(** * SkillBridge frontend: the mock store and the data-access call

    A shallow embedding of [src/App.tsx], lines 1-103: the in-memory mock
    API ([mock]) and the data-access function ([api]).

    JavaScript objects and arrays are modelled by reference: the heap is a
    list of cells, a reference is an index into it.  The operations of the
    mock store run in a state-and-exception monad over that heap, so that
    copying ([slice], object spread), in-place mutation ([unshift], [push],
    [sort]) and aliasing (an operation returning the stored array itself)
    are all visible in the model.

    Calls into the platform ([uid()], [new Date().toISOString()],
    [JSON.parse], [fetch]) are answered by a [Platform] record. *)

From Stdlib Require Import ZArith String Ascii.
From Stdlib Require OrderedTypeEx.
From stdpp Require Import base option list sorting strings gmap.

Open Scope string_scope.
Open Scope list_scope.
Open Scope Z_scope.

Set Warnings "-register-all".

(** ** JavaScript values carried by request bodies

    The value of [JSON.parse], or [undefined] when a request has no body.
    An object is the list of its own properties (each key once).  Number
    literals are kept as integers: the store only tests them for
    truthiness.  Strings are taken to be ASCII. *)

Inductive value : Type :=
| VUndefined
| VNull
| VBool (b : bool)
| VNum (n : Z)
| VStr (s : string)
| VArr (elems : list value)
| VObj (fields : list (string * value)).

(** What a [throw] carries.  [Fault] marks a dereference that the
    TypeScript types rule out (a reference of the wrong shape). *)
Inductive exn : Type :=
| TypeError
| SyntaxError
| Error (message : string)
| Rejected (reason : string)
| Fault.

Inductive res (A : Type) : Type :=
| Ok (a : A)
| Throw (e : exn).
Arguments Ok {A} a.
Arguments Throw {A} e.

(** ** Domain objects (lines 3-5)

    [Opportunity.t] and [User.t] are parametrised by what their [skills]
    field holds: a reference to an array in the heap, or the list of
    skills read through that reference. *)

Module Skill.
Record t : Type := Build { id : string; name : string }.
End Skill.

Module Opportunity.
Record t (S : Type) : Type := Build {
  id : string;
  title : value;
  description : value;
  createdAt : string;
  skills : S;
  matchScore : option Z }.
Arguments Build {S}.
Arguments id {S}.
Arguments title {S}.
Arguments description {S}.
Arguments createdAt {S}.
Arguments skills {S}.
Arguments matchScore {S}.
End Opportunity.

Module User.
Record t (S : Type) : Type := Build {
  id : string;
  name : value;
  email : value;
  skills : S }.
Arguments Build {S}.
Arguments id {S}.
Arguments name {S}.
Arguments email {S}.
Arguments skills {S}.
End User.

(** ** The heap *)

(** A reference is an index into the heap. *)
Abbreviation loc := nat (only parsing).

(** The static element type of an array ([Skill[]], [Opportunity[]],
    [User[]]). *)
Inductive ty : Type := TSkill | TOpportunity | TUser.

Inductive cell : Type :=
| CSkill (s : Skill.t)
| COpportunity (o : Opportunity.t loc)
| CUser (u : User.t loc)
| CArray (t : ty) (elems : list loc).

Abbreviation heap := (list cell) (only parsing).

Definition ty_eqb (a b : ty) : bool :=
  match a, b with
  | TSkill, TSkill | TOpportunity, TOpportunity | TUser, TUser => true
  | _, _ => false
  end.

(** ** The monad: a heap threaded through, exceptions keep the heap *)

Definition M (A : Type) : Type := heap -> res A * heap.

Definition ret {A} (a : A) : M A := fun h => (Ok a, h).
Definition throw {A} (e : exn) : M A := fun h => (Throw e, h).
Definition bind {A B} (c : M A) (k : A -> M B) : M B :=
  fun h => match c h with
           | (Ok a, h') => k a h'
           | (Throw e, h') => (Throw e, h')
           end.
Definition lift {A} (r : res A) : M A := fun h => (r, h).

Declare Scope js_scope.
Delimit Scope js_scope with js.
Notation "x <- c ;; k" := (bind c (fun x => k))
  (at level 100, c at next level, right associativity) : js_scope.
Notation "c ;;; k" := (bind c (fun _ => k))
  (at level 100, right associativity) : js_scope.
Open Scope js_scope.

(** Allocation of an object or array literal. *)
Definition new (c : cell) : M loc := fun h => (Ok (List.length h), (h ++ [c])%list).

Definition deref (l : loc) : M cell :=
  fun h => match h !! l with
           | Some c => (Ok c, h)
           | None => (Throw Fault, h)
           end.

Definition assign (l : loc) (c : cell) : M unit :=
  fun h => (Ok tt, <[l := c]> h).

Definition derefSkill (l : loc) : M Skill.t :=
  c <- deref l ;; match c with CSkill s => ret s | _ => throw Fault end.

Definition derefOpportunity (l : loc) : M (Opportunity.t loc) :=
  c <- deref l ;; match c with COpportunity o => ret o | _ => throw Fault end.

Definition derefUser (l : loc) : M (User.t loc) :=
  c <- deref l ;; match c with CUser u => ret u | _ => throw Fault end.

(** The elements of the array at [a], of static type [t[]]. *)
Definition elements (t : ty) (a : loc) : M (list loc) :=
  c <- deref a ;;
  match c with
  | CArray t' ls => if ty_eqb t t' then ret ls else throw Fault
  | _ => throw Fault
  end.

Fixpoint mapM' {A B} (f : A -> M B) (l : list A) : M (list B) :=
  match l with
  | [] => ret []
  | x :: l' => y <- f x ;; ys <- mapM' f l' ;; ret (y :: ys)
  end.

(** [Array.prototype.filter]: the callback runs on every element, in
    order; the kept elements are collected by the caller. *)
Fixpoint filterM {A} (f : A -> M bool) (l : list A) : M (list A) :=
  match l with
  | [] => ret []
  | x :: l' =>
      b <- f x ;; ys <- filterM f l' ;; ret (if b then x :: ys else ys)
  end.

(** [Array.prototype.find]: the first element the callback accepts. *)
Fixpoint findM {A} (f : A -> M bool) (l : list A) : M (option A) :=
  match l with
  | [] => ret None
  | x :: l' => b <- f x ;; if b then ret (Some x) else findM f l'
  end.

(** [Array.prototype.reduce] with an initial accumulator. *)
Fixpoint reduceM {A B} (f : B -> A -> M B) (l : list A) (acc : B) : M B :=
  match l with
  | [] => ret acc
  | x :: l' => acc' <- f acc x ;; reduceM f l' acc'
  end.

(** [a.slice()]: a new array with the same elements. *)
Definition slice (t : ty) (a : loc) : M loc :=
  ls <- elements t a ;; new (CArray t ls).

(** [a.unshift(x)] and [a.push(x)]: the array at [a] is changed in place. *)
Definition unshift (t : ty) (a : loc) (x : loc) : M unit :=
  ls <- elements t a ;; assign a (CArray t (x :: ls)).

Definition push (t : ty) (a : loc) (x : loc) : M unit :=
  ls <- elements t a ;; assign a (CArray t (ls ++ [x])%list).

(** ** Strings *)

Definition upper_ascii (c : ascii) : ascii :=
  let n := nat_of_ascii c in
  if ((97 <=? n)%nat && (n <=? 122)%nat)%bool then ascii_of_nat (n - 32) else c.

Fixpoint toUpperCase (s : string) : string :=
  match s with
  | EmptyString => EmptyString
  | String c s' => String (upper_ascii c) (toUpperCase s')
  end.

Definition lower_ascii (c : ascii) : ascii :=
  let n := nat_of_ascii c in
  if ((65 <=? n)%nat && (n <=? 90)%nat)%bool then ascii_of_nat (n + 32) else c.

Fixpoint toLowerCase (s : string) : string :=
  match s with
  | EmptyString => EmptyString
  | String c s' => String (lower_ascii c) (toLowerCase s')
  end.

Definition startsWith (s pre : string) : bool := String.prefix pre s.

Definition endsWith (s suf : string) : bool :=
  let n := String.length s in
  let k := String.length suf in
  ((k <=? n)%nat && String.eqb (substring (n - k) k s) suf)%bool.

(** [s.split(sep)] for a one-character separator. *)
Fixpoint split (sep : ascii) (s : string) : list string :=
  match s with
  | EmptyString => [EmptyString]
  | String c s' =>
      if Ascii.eqb c sep then EmptyString :: split sep s'
      else match split sep s' with
           | x :: r => String c x :: r
           | [] => [String c EmptyString]
           end
  end.

(** [hay.includes(needle)] on strings: [needle] occurs in [hay]. *)
Fixpoint str_includes (hay needle : string) : bool :=
  (String.prefix needle hay ||
   match hay with
   | EmptyString => false
   | String _ hay' => str_includes hay' needle
   end)%bool.

(** [a.localeCompare(b)].  On the strings it is used for here, the
    fixed-width ISO-8601 renderings of [toISOString], collation order is
    the order of the character codes. *)
Definition localeCompare (a b : string) : Z :=
  match String.compare a b with
  | Lt => -1
  | Eq => 0
  | Gt => 1
  end.

(** ** Property access on a request body *)

Definition truthy (v : value) : bool :=
  match v with
  | VUndefined | VNull => false
  | VBool b => b
  | VNum n => negb (n =? 0)
  | VStr s => negb (String.eqb s "")
  | VArr _ | VObj _ => true
  end.

Fixpoint lookup_field (k : string) (fields : list (string * value)) : value :=
  match fields with
  | [] => VUndefined
  | (k', v) :: r => if String.eqb k' k then v else lookup_field k r
  end.

(** [v.k] for one of the property names the store reads ([title],
    [description], [name], [email], [skillIds]): none of them exists on a
    primitive or on an array. *)
Definition get (v : value) (k : string) : res value :=
  match v with
  | VUndefined | VNull => Throw TypeError
  | VObj fields => Ok (lookup_field k fields)
  | _ => Ok VUndefined
  end.

(** [v?.k] *)
Definition get_opt (v : value) (k : string) : value :=
  match v with
  | VUndefined | VNull => VUndefined
  | VObj fields => lookup_field k fields
  | _ => VUndefined
  end.

(** [a || b] *)
Definition or_else (a b : value) : value := if truthy a then a else b.

(** [x === s] for a string [s]. *)
Definition is_string (s : string) (x : value) : bool :=
  match x with
  | VStr s' => String.eqb s' s
  | _ => false
  end.

(** [v.includes(s)] for a string [s]: [Array.prototype.includes] on an
    array, [String.prototype.includes] on a string; on anything else
    [includes] is not a function. *)
Definition includes (v : value) (s : string) : res bool :=
  match v with
  | VArr elems => Ok (existsb (is_string s) elems)
  | VStr hay => Ok (str_includes hay s)
  | _ => Throw TypeError
  end.

(** ** [Array.prototype.sort]

    The sort is stable: [x], which stood before [y], moves behind it only
    when the comparator is positive on [(x, y)]. *)
Fixpoint sort_insert {A} (cmp : A -> A -> Z) (x : A) (l : list A) : list A :=
  match l with
  | [] => [x]
  | y :: l' => if 0 <? cmp x y then y :: sort_insert cmp x l' else x :: l
  end.

Definition sort {A} (cmp : A -> A -> Z) (l : list A) : list A :=
  foldr (sort_insert cmp) [] l.

(** ** The mock store (lines 13-78)

    The closure of [mock] holds three arrays. *)

Record Mock : Type := {
  skills : loc;
  opportunities : loc;
  users : loc }.

(** What the platform answers while the module is loaded: the results of
    the successive calls of [uid()] and the three timestamps of the seed
    opportunities (now, 15 minutes ago, 60 minutes ago). *)
Record Boot : Type := {
  boot_uid : nat -> string;
  boot_now : string;
  boot_15_minutes_ago : string;
  boot_60_minutes_ago : string }.

(** The second argument of [api] and of [fetch]. *)
Record RequestInit : Type := {
  method : option string;
  headers : option (list (string * string));
  body : option string }.

(** A response: its status, and what [res.text()] and [res.json()]
    resolve to. *)
Record Response : Type := {
  status : Z;
  text : res string;
  json : res value }.

(** [res.ok]: the status is in the range 200-299. *)
Definition ok (r : Response) : bool := (200 <=? status r) && (status r <=? 299).

(** What the platform answers during one call of [api]. *)
Record Platform : Type := {
  uid : string;
  now : string;
  JSON_parse : string -> res value;
  fetch : string -> RequestInit -> res Response }.

Definition skillNames : list string :=
  ["JavaScript"; "TypeScript"; "React"; "Node.js"; "Express"; "PostgreSQL";
   "Prisma"; "Docker"; "CI/CD"].

(** [skills.find((s) => s.name === name)!] *)
Definition findSkill (skills : loc) (name : string) : M loc :=
  ls <- elements TSkill skills ;;
  r <- findM (fun l => s <- derefSkill l ;; ret (String.eqb (Skill.name s) name)) ls ;;
  match r with
  | Some l => ret l
  | None => throw Fault
  end.

Definition seedOpportunity (skills : loc) (id : string) (title description : string)
    (createdAt : string) (names : list string) : M loc :=
  ss <- mapM' (findSkill skills) names ;;
  a <- new (CArray TSkill ss) ;;
  new (COpportunity (Opportunity.Build id (VStr title) (VStr description) createdAt a None)).

Definition seedUser (skills : loc) (id : string) (name email : string)
    (names : list string) : M loc :=
  ss <- mapM' (findSkill skills) names ;;
  a <- new (CArray TSkill ss) ;;
  new (CUser (User.Build id (VStr name) (VStr email) a)).

Definition mock_init (b : Boot) : M Mock :=
  ss <- mapM' (fun '(k, name) => new (CSkill (Skill.Build (boot_uid b k) name)))
              (imap (fun k name => (k, name)) skillNames) ;;
  skills <- new (CArray TSkill ss) ;;
  o1 <- seedOpportunity skills (boot_uid b 9) "Frontend Intern"
          "Build UI with React + TS" (boot_now b) ["React"; "TypeScript"] ;;
  o2 <- seedOpportunity skills (boot_uid b 10) "Backend Intern"
          "API with Node, Express, Prisma" (boot_15_minutes_ago b)
          ["Node.js"; "Express"; "PostgreSQL"; "Prisma"] ;;
  o3 <- seedOpportunity skills (boot_uid b 11) "DevOps Trainee"
          "Dockerize apps and set up CI" (boot_60_minutes_ago b)
          ["Docker"; "CI/CD"] ;;
  opportunities <- new (CArray TOpportunity [o1; o2; o3]) ;;
  u1 <- seedUser skills (boot_uid b 12) "Alice" "alice@example.com"
          ["React"; "TypeScript"] ;;
  u2 <- seedUser skills (boot_uid b 13) "Bob" "bob@example.com"
          ["Node.js"; "Express"; "PostgreSQL"] ;;
  users <- new (CArray TUser [u1; u2]) ;;
  ret {| skills := skills; opportunities := opportunities; users := users |}.

(** [body?.skillIds || []] *)
Definition selection (body : value) : value :=
  or_else (get_opt body "skillIds") (VArr []).

(** [skills.filter((s) => (body?.skillIds || []).includes(s.id))] *)
Definition chooseSkills (m : Mock) (body : value) : M loc :=
  ls <- elements TSkill (skills m) ;;
  chosen <- filterM (fun l =>
              s <- derefSkill l ;;
              lift (includes (selection body) (Skill.id s)))
            ls ;;
  new (CArray TSkill chosen).

(** The comparator of [getOpps]: [(a, b) => b.createdAt.localeCompare(a.createdAt)] *)
Definition newest_first {S} (a b : Opportunity.t S) : Z :=
  localeCompare (Opportunity.createdAt b) (Opportunity.createdAt a).

(** [a.sort(cmp)] on an array of opportunities: the elements are
    dereferenced for the comparator and the array is reordered in place. *)
Definition sortOpportunities (cmp : Opportunity.t loc -> Opportunity.t loc -> Z)
    (a : loc) : M loc :=
  ls <- elements TOpportunity a ;;
  os <- mapM' (fun l => o <- derefOpportunity l ;; ret (l, o)) ls ;;
  assign a (CArray TOpportunity (fst <$> sort (fun x y => cmp (snd x) (snd y)) os)) ;;;
  ret a.

Definition getSkills (m : Mock) : M loc := ret (skills m).

Definition getOpps (m : Mock) : M loc :=
  c <- slice TOpportunity (opportunities m) ;;
  sortOpportunities newest_first c.

Definition postOpp (P : Platform) (m : Mock) (body : value) : M loc :=
  chosen <- chooseSkills m body ;;
  title <- lift (get body "title") ;;
  description <- lift (get body "description") ;;
  opp <- new (COpportunity
                (Opportunity.Build (uid P) title description (now P) chosen None)) ;;
  unshift TOpportunity (opportunities m) opp ;;;
  ret opp.

Definition getUsers (m : Mock) : M loc := ret (users m).

Definition postUser (P : Platform) (m : Mock) (body : value) : M loc :=
  chosen <- chooseSkills m body ;;
  name <- lift (get body "name") ;;
  email <- lift (get body "email") ;;
  user <- new (CUser (User.Build (uid P) name email chosen)) ;;
  push TUser (users m) user ;;;
  ret user.

(** The callback of [opportunities.map] in [getMatches]:
    [(o) => ({ ...o, matchScore: o.skills.reduce(...) })], a new object. *)
Definition withMatchScore (uSkillIds : gset string) (ol : loc) : M loc :=
  o <- derefOpportunity ol ;;
  oss <- elements TSkill (Opportunity.skills o) ;;
  score <- reduceM (fun acc l =>
             s <- derefSkill l ;;
             ret (acc + (if bool_decide (Skill.id s ∈ uSkillIds) then 1 else 0)))
           oss 0 ;;
  new (COpportunity
         (Opportunity.Build (Opportunity.id o) (Opportunity.title o)
            (Opportunity.description o) (Opportunity.createdAt o)
            (Opportunity.skills o) (Some score))).

(** [userId] is [None] when the caller passes [undefined]. *)
Definition getMatches (m : Mock) (userId : option string) : M loc :=
  us <- elements TUser (users m) ;;
  u <- findM (fun l => x <- derefUser l ;;
                       ret (bool_decide (Some (User.id x) = userId))) us ;;
  match u with
  | None => new (CArray TOpportunity [])
  | Some ul =>
      x <- derefUser ul ;;
      ss <- elements TSkill (User.skills x) ;;
      ids <- mapM' (fun l => s <- derefSkill l ;; ret (Skill.id s)) ss ;;
      let uSkillIds : gset string := list_to_set ids in
      os <- elements TOpportunity (opportunities m) ;;
      rs <- mapM' (withMatchScore uSkillIds) os ;;
      new (CArray TOpportunity rs)
  end.

(** ** The data-access call (lines 7-8 and 80-103) *)

Record Config : Type := {
  API_URL : string;
  USE_MOCK : bool }.

(** [import.meta.env], read once when the module is loaded. *)
Record Env : Type := {
  VITE_API_URL : option string;
  VITE_USE_MOCK : option string }.

(** Lines 7-8: [VITE_API_URL || 'http://localhost:5000'], and
    [String(VITE_USE_MOCK).toLowerCase()] compared with ['1'] and
    ['true']. *)
Definition config_of (e : Env) : Config :=
  {| API_URL :=
       match VITE_API_URL e with
       | Some s => if String.eqb s "" then "http://localhost:5000" else s
       | None => "http://localhost:5000"
       end;
     USE_MOCK :=
       let flag := toLowerCase (default "undefined" (VITE_USE_MOCK e)) in
       (String.eqb flag "1" || String.eqb flag "true")%bool |}.

(** What [api] resolves to: a reference into the mock store, or the
    parsed body of a network response. *)
Inductive reply : Type :=
| Ref (l : loc)
| Json (v : value).

Definition by_ref (c : M loc) : M reply := l <- c ;; ret (Ref l).

(** [(options?.method || 'GET').toUpperCase()] *)
Definition request_method (options : option RequestInit) : string :=
  toUpperCase
    match options ≫= method with
    | Some s => if String.eqb s "" then "GET" else s
    | None => "GET"
    end.

(** [options?.body ? JSON.parse(String(options.body)) : undefined] *)
Definition request_body (P : Platform) (options : option RequestInit) : res value :=
  match options ≫= body with
  | Some s => if String.eqb s "" then Ok VUndefined else JSON_parse P s
  | None => Ok VUndefined
  end.

(** [{ headers: { 'Content-Type': 'application/json' }, ...options }] *)
Definition fetch_init (options : option RequestInit) : RequestInit :=
  {| method := options ≫= method;
     headers := Some (default [("Content-Type", "application/json")]
                              (options ≫= headers));
     body := options ≫= body |}.

Definition api (cfg : Config) (P : Platform) (m : Mock)
    (path : string) (options : option RequestInit) : M reply :=
  if USE_MOCK cfg then
    let method := request_method options in
    body <- lift (request_body P options) ;;
    if (String.eqb path "/api/skills" && String.eqb method "GET")%bool
    then by_ref (getSkills m)
    else if (String.eqb path "/api/opportunities" && String.eqb method "GET")%bool
    then by_ref (getOpps m)
    else if (String.eqb path "/api/opportunities" && String.eqb method "POST")%bool
    then by_ref (postOpp P m body)
    else if (String.eqb path "/api/users" && String.eqb method "GET")%bool
    then by_ref (getUsers m)
    else if (String.eqb path "/api/users" && String.eqb method "POST")%bool
    then by_ref (postUser P m body)
    else if (startsWith path "/api/users/" && endsWith path "/matches"
             && String.eqb method "GET")%bool
    then
      let userId := split "/" path !! 3%nat in
      by_ref (getMatches m userId)
    else throw (Error ("Mock route not implemented: " +:+ method +:+ " " +:+ path))
  else
    r <- lift (fetch P (API_URL cfg +:+ path) (fetch_init options)) ;;
    if negb (ok r) then
      t <- lift (text r) ;; throw (Error t)
    else
      v <- lift (json r) ;; ret (Json v).

(** ** Reading the store back

    What a client sees when it follows a reference: the objects with
    their [skills] arrays read out. *)

Definition viewSkill (h : heap) (l : loc) : option Skill.t :=
  match h !! l with
  | Some (CSkill s) => Some s
  | _ => None
  end.

Definition viewArray (t : ty) (h : heap) (a : loc) : option (list loc) :=
  match h !! a with
  | Some (CArray t' ls) => if ty_eqb t t' then Some ls else None
  | _ => None
  end.

Definition viewSkills (h : heap) (a : loc) : option (list Skill.t) :=
  viewArray TSkill h a ≫= mapM (viewSkill h).

Definition viewOpportunity (h : heap) (l : loc)
    : option (Opportunity.t (list Skill.t)) :=
  match h !! l with
  | Some (COpportunity o) =>
      ss ← viewSkills h (Opportunity.skills o);
      Some (Opportunity.Build (Opportunity.id o) (Opportunity.title o)
              (Opportunity.description o) (Opportunity.createdAt o) ss
              (Opportunity.matchScore o))
  | _ => None
  end.

Definition viewOpportunities (h : heap) (a : loc)
    : option (list (Opportunity.t (list Skill.t))) :=
  viewArray TOpportunity h a ≫= mapM (viewOpportunity h).

Definition viewUser (h : heap) (l : loc) : option (User.t (list Skill.t)) :=
  match h !! l with
  | Some (CUser u) =>
      ss ← viewSkills h (User.skills u);
      Some (User.Build (User.id u) (User.name u) (User.email u) ss)
  | _ => None
  end.

Definition viewUsers (h : heap) (a : loc) : option (list (User.t (list Skill.t))) :=
  viewArray TUser h a ≫= mapM (viewUser h).

(** The three collections of the mock store, as values. *)
Record Store : Type := {
  store_skills : list Skill.t;
  store_opportunities : list (Opportunity.t (list Skill.t));
  store_users : list (User.t (list Skill.t)) }.

Definition snapshot (m : Mock) (h : heap) : option Store :=
  ss ← viewSkills h (skills m);
  os ← viewOpportunities h (opportunities m);
  us ← viewUsers h (users m);
  Some {| store_skills := ss; store_opportunities := os; store_users := us |}.

(** ** Sequences of calls on the mock store *)

Inductive request : Type :=
| GetSkills
| GetOpps
| PostOpp (P : Platform) (body : value)
| GetUsers
| PostUser (P : Platform) (body : value)
| GetMatches (userId : option string).

Definition perform (m : Mock) (r : request) : M loc :=
  match r with
  | GetSkills => getSkills m
  | GetOpps => getOpps m
  | PostOpp P body => postOpp P m body
  | GetUsers => getUsers m
  | PostUser P body => postUser P m body
  | GetMatches userId => getMatches m userId
  end.

(** The heap after a sequence of calls, whether they return or throw. *)
Definition run (m : Mock) (rs : list request) (h : heap) : heap :=
  foldl (fun h r => snd (perform m r h)) h rs.

(** A store as the running application can have it: the module was
    loaded on an empty heap and some calls were made. *)
Definition reachable (b : Boot) (m : Mock) (h : heap) : Prop :=
  ∃ rs h0, mock_init b [] = (Ok m, h0) ∧ h = run m rs h0.

(** The skill catalog as seeded at load time (lines 15-18). *)
Definition seed_skills (b : Boot) : list Skill.t :=
  imap (fun k name => Skill.Build (boot_uid b k) name) skillNames.

(** [st'] keeps every record of [st], in place: the catalog is the same,
    opportunities were only added at the front and users at the end. *)
Definition grown (st st' : Store) : Prop :=
  store_skills st' = store_skills st ∧
  (∃ added, store_opportunities st' = added ++ store_opportunities st) ∧
  (∃ added, store_users st' = store_users st ++ added).

(** No stored opportunity carries a [matchScore]. *)
Definition unscored (st : Store) : Prop :=
  Forall (fun o => Opportunity.matchScore o = None) (store_opportunities st).

(** ** Vocabulary of the claims *)

(** The skill ids of a list of skills. *)
Definition skill_ids (ss : list Skill.t) : list string := Skill.id <$> ss.

(** Number of the opportunity's skills whose id is among the user's. *)
Definition overlap (u : User.t (list Skill.t)) (o : Opportunity.t (list Skill.t)) : Z :=
  Z.of_nat (List.length
    (filter (fun s => Skill.id s ∈ skill_ids (User.skills u)) (Opportunity.skills o))).

Definition with_score (score : Z) (o : Opportunity.t (list Skill.t))
    : Opportunity.t (list Skill.t) :=
  Opportunity.Build (Opportunity.id o) (Opportunity.title o)
    (Opportunity.description o) (Opportunity.createdAt o)
    (Opportunity.skills o) (Some score).

(** The first user of the collection with the given id. *)
Definition user_with_id (userId : string) (us : list (User.t (list Skill.t)))
    : option (User.t (list Skill.t)) :=
  List.find (fun u => String.eqb (User.id u) userId) us.

(** The catalog filtered to the given ids, in catalog order. *)
Definition catalog_filter (ids : list string) (catalog : list Skill.t) : list Skill.t :=
  filter (fun s => Skill.id s ∈ ids) catalog.

(** The order a sort with comparator [cmp] puts its result in: [x] may
    stand before [y]. *)
Definition in_order {A} (cmp : A -> A -> Z) (x y : A) : Prop := cmp x y <= 0.

(** [t1] is not later than [t2]. *)
Definition not_later (t1 t2 : string) : Prop := localeCompare t1 t2 <= 0.

(** The request bodies the two forms send:
    [JSON.stringify({ title, description, skillIds })] and
    [JSON.stringify({ name, email, skillIds })], parsed. *)
Definition opportunity_body (title description : string) (skillIds : list string) : value :=
  VObj [("title", VStr title); ("description", VStr description);
        ("skillIds", VArr (VStr <$> skillIds))].

Definition user_body (name email : string) (skillIds : list string) : value :=
  VObj [("name", VStr name); ("email", VStr email);
        ("skillIds", VArr (VStr <$> skillIds))].

(** The route table as the interface description gives it: five literal
    method and path pairs, and [GET /api/users/{id}/matches]. *)
Definition route_table : list (string * string) :=
  [("GET", "/api/skills"); ("GET", "/api/opportunities");
   ("POST", "/api/opportunities"); ("GET", "/api/users"); ("POST", "/api/users")].

Definition in_route_table (method path : string) : Prop :=
  (method, path) ∈ route_table ∨
  (method = "GET" ∧ ∃ id, path = "/api/users/" +:+ id +:+ "/matches").

(** The tests of the router of [api], on the upper-cased method. *)
Definition routed (method path : string) : bool :=
  (String.eqb path "/api/skills" && String.eqb method "GET")
  || (String.eqb path "/api/opportunities" && String.eqb method "GET")
  || (String.eqb path "/api/opportunities" && String.eqb method "POST")
  || (String.eqb path "/api/users" && String.eqb method "GET")
  || (String.eqb path "/api/users" && String.eqb method "POST")
  || (startsWith path "/api/users/" && endsWith path "/matches"
      && String.eqb method "GET").

Definition not_implemented (method path : string) : exn :=
  Error ("Mock route not implemented: " +:+ method +:+ " " +:+ path).

Definition mock_mode : Config :=
  config_of {| VITE_API_URL := None; VITE_USE_MOCK := Some "true" |}.
Definition live_mode (url : string) : Config :=
  config_of {| VITE_API_URL := Some url; VITE_USE_MOCK := None |}.

(** A user of the collection has this id. *)
Definition existing_user_id (userId : string) (st : Store) : Prop :=
  userId ∈ (User.id <$> store_users st).

(** The opportunities, each with its score against user [u]. *)
Definition matches_of (u : User.t (list Skill.t)) (st : Store)
    : list (Opportunity.t (list Skill.t)) :=
  (fun o => with_score (overlap u o) o) <$> store_opportunities st.

(** A request body that is an object whose [skillIds] is the given list
    of ids. *)
Definition selects (body : value) (ids : list string) : Prop :=
  ∃ fields, body = VObj fields ∧ lookup_field "skillIds" fields = VArr (VStr <$> ids).

(** A request body that is an object without a usable [skillIds]. *)
Definition selects_nothing (body : value) : Prop :=
  ∃ fields, body = VObj fields ∧
    (lookup_field "skillIds" fields = VUndefined ∨ lookup_field "skillIds" fields = VNull).

(** Descending by [createdAt]. *)
Definition newest_to_oldest (l : list (Opportunity.t (list Skill.t))) : Prop :=
  Sorted (fun x y => not_later (Opportunity.createdAt y) (Opportunity.createdAt x)) l.

(** The opportunities stamped [t], in the order of the list. *)
Definition stamped (t : string) (l : list (Opportunity.t (list Skill.t)))
    : list (Opportunity.t (list Skill.t)) :=
  filter (fun o => Opportunity.createdAt o = t) l.

(** The clock has not run backwards: nothing stored is later than [t]. *)
Definition none_later (t : string) (st : Store) : Prop :=
  Forall (fun o => not_later (Opportunity.createdAt o) t) (store_opportunities st).

(** ** Examples *)

(** A platform for the examples: it parses the two texts below and
    rejects every other one, as [JSON.parse] rejects an opening brace
    alone; the network is down. *)
Definition example_platform (uid now : string) : Platform :=
  {| uid := uid;
     now := now;
     JSON_parse := fun text =>
       if String.eqb text "null" then Ok VNull
       else if String.eqb text "{}" then Ok (VObj [])
       else Throw SyntaxError;
     fetch := fun _ _ => Throw (Rejected "Failed to fetch") |}.

(** A platform whose network answers every request with [r]. *)
Definition answering (r : Response) : Platform :=
  {| uid := "unused";
     now := "2024-05-01T12:00:00.000Z";
     JSON_parse := fun _ => Throw SyntaxError;
     fetch := fun _ _ => Ok r |}.

Definition not_found : Response :=
  {| status := 404; text := Ok "Not Found"; json := Throw SyntaxError |}.

Definition two_hundred : Response :=
  {| status := 200; text := Ok "[]"; json := Ok (VArr []) |}.

Definition post_without_body : RequestInit :=
  {| method := Some "POST"; headers := None; body := None |}.

Definition example_boot : Boot :=
  {| boot_uid := fun k => "skill-" +:+ String (ascii_of_nat (65 + k)) "";
     boot_now := "2024-05-01T12:00:00.000Z";
     boot_15_minutes_ago := "2024-05-01T11:45:00.000Z";
     boot_60_minutes_ago := "2024-05-01T11:00:00.000Z" |}.

Definition example_mock : Mock :=
  {| skills := 9%nat; opportunities := 16%nat; users := 21%nat |}.

Definition example_heap : heap :=
  Eval vm_compute in snd (mock_init example_boot []).

Definition empty_store : Store :=
  {| store_skills := []; store_opportunities := []; store_users := [] |}.

Definition example_store : Store :=
  Eval vm_compute in default empty_store (snapshot example_mock example_heap).

(** The store of the matching example: skills A, B, C, a user with
    skills A and B, and three opportunities asking for [A], [C] and
    [A, B]. *)
Definition abc_heap : heap :=
  [ CSkill (Skill.Build "A" "a"); CSkill (Skill.Build "B" "b");
    CSkill (Skill.Build "C" "c");
    CArray TSkill [0; 1; 2]%nat;
    CArray TSkill [0]%nat;
    COpportunity (Opportunity.Build "o1" (VStr "first") (VStr "") "2024-05-01T12:00:00.000Z" 4%nat None);
    CArray TSkill [2]%nat;
    COpportunity (Opportunity.Build "o2" (VStr "second") (VStr "") "2024-05-01T11:00:00.000Z" 6%nat None);
    CArray TSkill [0; 1]%nat;
    COpportunity (Opportunity.Build "o3" (VStr "third") (VStr "") "2024-05-01T10:00:00.000Z" 8%nat None);
    CArray TOpportunity [5; 7; 9]%nat;
    CArray TSkill [0; 1]%nat;
    CUser (User.Build "u1" (VStr "Ann") (VStr "ann@example.com") 11%nat);
    CArray TUser [12]%nat ].

Definition abc_mock : Mock :=
  {| skills := 3%nat; opportunities := 10%nat; users := 13%nat |}.

Definition abc_store : Store :=
  Eval vm_compute in default empty_store (snapshot abc_mock abc_heap).

(** ** More vocabulary *)

(** The string has no slash. *)
Definition no_slash (s : string) : Prop := str_includes s "/" = false.

(** The path of the matches of a user, as the matching panel builds it
    (line 270): [`/api/users/${selected}/matches`]. *)
Definition matches_path (selected : string) : string :=
  "/api/users/" +:+ selected +:+ "/matches".

(** A request without a body, with the given method. *)
Definition bodiless (method : string) : RequestInit :=
  {| method := Some method; headers := None; body := None |}.

(** [null] or [undefined]. *)
Definition nullish (v : value) : bool :=
  match v with
  | VUndefined | VNull => true
  | _ => false
  end.

(** A value on which [includes] is a function: an array or a string. *)
Definition has_includes (v : value) : bool :=
  match v with
  | VArr _ | VStr _ => true
  | _ => false
  end.

(** The request bodies a creation call accepts: not [null] or
    [undefined], and a [skillIds] that is falsy, an array or a string. *)
Definition acceptable (body : value) : bool :=
  negb (nullish body) && has_includes (selection body).

(** [needle] occurs in [hay]. *)
Definition occurs_in (needle hay : string) : Prop :=
  ∃ pre post, hay = pre +:+ needle +:+ post.

(** Every skill of every stored opportunity and user is one of [catalog]. *)
Definition within (catalog : list Skill.t) (st : Store) : Prop :=
  Forall (fun o => Opportunity.skills o ⊆ catalog) (store_opportunities st) ∧
  Forall (fun u => User.skills u ⊆ catalog) (store_users st).

(** Whether the selection [sel] picks the skill id [id]:
    [sel.includes(id)], where it is defined. *)
Definition picks (sel : value) (id : string) : bool :=
  match includes sel id with
  | Ok b => b
  | Throw _ => false
  end.

(** ** The skill pickers of the two forms (lines 161 and 214)

    [(xs) => xs.includes(id) ? xs.filter((x) => x !== id) : [...xs, id]],
    the updater passed to [setSelected]. *)
Definition toggle (id : string) (xs : list string) : list string :=
  if bool_decide (id ∈ xs) then filter (fun x => x ≠ id) xs else xs ++ [id].

(** The selection after a sequence of clicks, from the empty selection
    the forms start with. *)
Definition selected_after (clicks : list string) : list string :=
  foldl (fun xs id => toggle id xs) [] clicks.

(** How many times [id] was clicked. *)
Definition clicks_on (id : string) (clicks : list string) : nat :=
  List.length (filter (fun x => x = id) clicks).

(** ** The components (lines 105-311)

    The state of a component is the record of its [useState] cells.  A
    handler runs to its end on the state it was rendered with, the calls
    of the setters taking effect in program order, and gives the state
    and the heap it ends with.  [stringify] is [JSON.stringify]; every
    call of [api] has platform answers of its own. *)

(** [{ method: 'POST', body: text }] *)
Definition post (text : string) : option RequestInit :=
  Some {| method := Some "POST"; headers := None; body := Some text |}.

(** [e.message]: the text an [Error] was made with; for the errors the
    engine raises itself, what the engine gives. *)
Definition message_of (engine : exn -> value) (e : exn) : value :=
  match e with
  | Error msg => VStr msg
  | _ => engine e
  end.

(** [api(path).then(set).catch(console.error)] (lines 107, 128, 213 and
    267): the cell takes the answer; a failure is logged and the cell
    keeps its value. *)
Definition load (cfg : Config) (P : Platform) (m : Mock) (path : string)
    (current : reply) (h : heap) : reply * heap :=
  match api cfg P m path None h with
  | (Ok r, h') => (r, h')
  | (Throw _, h') => (current, h')
  end.

Module CreateOpportunity.

Record state : Type := {
  title : string;
  description : string;
  selected : list string;
  saving : bool;
  message : value }.

Definition initial : state :=
  {| title := ""; description := ""; selected := []; saving := false;
     message := VStr "" |}.

(** [{ title, description, skillIds: selected }] *)
Definition payload (s : state) : value :=
  opportunity_body (title s) (description s) (selected s).

(** What [submit] leaves after a success (line 167). *)
Definition created : state :=
  {| title := ""; description := ""; selected := []; saving := false;
     message := VStr "Created!" |}.

(** Lines 163-171. *)
Definition submit (stringify : value -> string) (engine : exn -> value)
    (cfg : Config) (P : Platform) (m : Mock) (s : state) (h : heap) : state * heap :=
  match api cfg P m "/api/opportunities" (post (stringify (payload s))) h with
  | (Ok _, h') => (created, h')
  | (Throw e, h') =>
      ({| title := title s; description := description s; selected := selected s;
          saving := false;
          message := or_else (message_of engine e) (VStr "Error") |}, h')
  end.

End CreateOpportunity.

Module Users.

Record state : Type := {
  users : reply;
  name : string;
  email : string;
  selected : list string }.

Definition initial : state :=
  {| users := Json (VArr []); name := ""; email := ""; selected := [] |}.

(** [{ name, email, skillIds: selected }] *)
Definition payload (s : state) : value :=
  user_body (name s) (email s) (selected s).

(** Lines 216-221.  Nothing catches: when a call fails the handler stops
    there, with the setters called so far applied. *)
Definition submit (stringify : value -> string) (cfg : Config) (P1 P2 : Platform)
    (m : Mock) (s : state) (h : heap) : res unit * state * heap :=
  match api cfg P1 m "/api/users" (post (stringify (payload s))) h with
  | (Throw e, h1) => (Throw e, s, h1)
  | (Ok _, h1) =>
      match api cfg P2 m "/api/users" None h1 with
      | (Throw e, h2) =>
          (Throw e, {| users := users s; name := ""; email := ""; selected := [] |}, h2)
      | (Ok fresh, h2) =>
          (Ok tt, {| users := fresh; name := ""; email := ""; selected := [] |}, h2)
      end
  end.

End Users.

Module Matching.

Record state : Type := {
  users : reply;
  selected : string;
  matches : reply }.

Definition initial : state :=
  {| users := Json (VArr []); selected := ""; matches := Json (VArr []) |}.

(** [onChange] of the select (line 282). *)
Definition choose (id : string) (s : state) : state :=
  {| users := users s; selected := id; matches := matches s |}.

(** The effect on [selected] (lines 269-272). *)
Definition effect (cfg : Config) (P : Platform) (m : Mock) (s : state) (h : heap)
    : state * heap :=
  if String.eqb (selected s) "" then
    ({| users := users s; selected := selected s; matches := Json (VArr []) |}, h)
  else
    let (r, h') := load cfg P m ("/api/users/" +:+ selected s +:+ "/matches")
                        (matches s) h in
    ({| users := users s; selected := selected s; matches := r |}, h').

End Matching.

(** A platform for the examples that parses one text, to [v]. *)
Definition parsing (text : string) (v : value) (uid now : string) : Platform :=
  {| uid := uid;
     now := now;
     JSON_parse := fun t => if String.eqb t text then Ok v else Throw SyntaxError;
     fetch := fun _ _ => Throw (Rejected "Failed to fetch") |}.

(** * Proofs *)

(** ** Running the monad *)

Lemma bind_ok {A B} (c : M A) (k : A -> M B) h a h' :
  c h = (Ok a, h') -> bind c k h = k a h'.
Proof. intros E. unfold bind. now rewrite E. Qed.

Lemma bind_throw {A B} (c : M A) (k : A -> M B) h e h' :
  c h = (Throw e, h') -> bind c k h = (Throw e, h').
Proof. intros E. unfold bind. now rewrite E. Qed.

Lemma ty_eqb_refl t : ty_eqb t t = true.
Proof. now destruct t. Qed.

Lemma ty_eqb_eq t t' : ty_eqb t t' = true -> t = t'.
Proof. now destruct t, t'. Qed.

(** ** Views only grow when the heap is extended *)

Section Frame.
Context {h h' : heap} (Hext : h `prefix_of` h').

Lemma lookup_mono l (c : cell) : h !! l = Some c -> h' !! l = Some c.
Proof. intros E. exact (prefix_lookup_Some _ _ _ _ E Hext). Qed.

Lemma viewSkill_mono l s : viewSkill h l = Some s -> viewSkill h' l = Some s.
Proof.
  unfold viewSkill. destruct (h !! l) as [c|] eqn:E; [|discriminate].
  now rewrite (lookup_mono _ _ E).
Qed.

Lemma viewArray_mono t a ls : viewArray t h a = Some ls -> viewArray t h' a = Some ls.
Proof.
  unfold viewArray. destruct (h !! a) as [c|] eqn:E; [|discriminate].
  now rewrite (lookup_mono _ _ E).
Qed.

Lemma mapM_mono {A} (f g : loc -> option A) ls vs :
  (forall l v, f l = Some v -> g l = Some v) ->
  mapM f ls = Some vs -> mapM g ls = Some vs.
Proof.
  intros Hfg. rewrite !mapM_Some. intros H. eapply Forall2_impl; eauto.
Qed.

Lemma viewSkills_mono a ss : viewSkills h a = Some ss -> viewSkills h' a = Some ss.
Proof.
  unfold viewSkills. destruct (viewArray TSkill h a) as [ls|] eqn:E; [|discriminate].
  rewrite (viewArray_mono _ _ _ E). simpl.
  apply mapM_mono, viewSkill_mono.
Qed.

Lemma viewOpportunity_mono l o :
  viewOpportunity h l = Some o -> viewOpportunity h' l = Some o.
Proof.
  unfold viewOpportunity. destruct (h !! l) as [c|] eqn:E; [|discriminate].
  rewrite (lookup_mono _ _ E). destruct c; try discriminate.
  destruct (viewSkills h (Opportunity.skills o0)) as [ss|] eqn:Es; [|discriminate].
  now rewrite (viewSkills_mono _ _ Es).
Qed.

Lemma viewUser_mono l u : viewUser h l = Some u -> viewUser h' l = Some u.
Proof.
  unfold viewUser. destruct (h !! l) as [c|] eqn:E; [|discriminate].
  rewrite (lookup_mono _ _ E). destruct c; try discriminate.
  destruct (viewSkills h (User.skills u0)) as [ss|] eqn:Es; [|discriminate].
  now rewrite (viewSkills_mono _ _ Es).
Qed.

Lemma viewOpportunities_mono a os :
  viewOpportunities h a = Some os -> viewOpportunities h' a = Some os.
Proof.
  unfold viewOpportunities.
  destruct (viewArray TOpportunity h a) as [ls|] eqn:E; [|discriminate].
  rewrite (viewArray_mono _ _ _ E). simpl.
  apply mapM_mono, viewOpportunity_mono.
Qed.

Lemma viewUsers_mono a us : viewUsers h a = Some us -> viewUsers h' a = Some us.
Proof.
  unfold viewUsers. destruct (viewArray TUser h a) as [ls|] eqn:E; [|discriminate].
  rewrite (viewArray_mono _ _ _ E). simpl.
  apply mapM_mono, viewUser_mono.
Qed.

Lemma snapshot_mono m S : snapshot m h = Some S -> snapshot m h' = Some S.
Proof.
  unfold snapshot.
  destruct (viewSkills h (skills m)) as [ss|] eqn:E1; [|discriminate].
  destruct (viewOpportunities h (opportunities m)) as [os|] eqn:E2; [|discriminate].
  destruct (viewUsers h (users m)) as [us|] eqn:E3; [|discriminate].
  rewrite (viewSkills_mono _ _ E1), (viewOpportunities_mono _ _ E2),
    (viewUsers_mono _ _ E3). trivial.
Qed.
End Frame.

(** ** Reads through a view succeed and leave the heap alone *)

Lemma elements_view t (h : heap) a ls :
  viewArray t h a = Some ls -> elements t a h = (Ok ls, h).
Proof.
  unfold viewArray, elements, bind, deref.
  destruct (h !! a) as [[| | |t' ls']|]; try discriminate.
  destruct (ty_eqb t t'); [|discriminate]. now intros [= ->].
Qed.

Lemma derefSkill_view (h : heap) l s :
  viewSkill h l = Some s -> derefSkill l h = (Ok s, h).
Proof.
  unfold viewSkill, derefSkill, bind, deref.
  destruct (h !! l) as [[| | |]|]; try discriminate. now intros [= ->].
Qed.

Lemma viewOpportunity_inv (h : heap) l ov :
  viewOpportunity h l = Some ov ->
  ∃ o, h !! l = Some (COpportunity o) ∧
       viewSkills h (Opportunity.skills o) = Some (Opportunity.skills ov) ∧
       ov = Opportunity.Build (Opportunity.id o) (Opportunity.title o)
              (Opportunity.description o) (Opportunity.createdAt o)
              (Opportunity.skills ov) (Opportunity.matchScore o).
Proof.
  unfold viewOpportunity.
  destruct (h !! l) as [[|o| |]|]; try discriminate.
  destruct (viewSkills h (Opportunity.skills o)) as [ss|] eqn:E; [|discriminate].
  simpl. intros [= <-]. exists o. split; [reflexivity|]. split; [exact E|reflexivity].
Qed.

Lemma viewUser_inv (h : heap) l uv :
  viewUser h l = Some uv ->
  ∃ u, h !! l = Some (CUser u) ∧
       viewSkills h (User.skills u) = Some (User.skills uv) ∧
       uv = User.Build (User.id u) (User.name u) (User.email u) (User.skills uv).
Proof.
  unfold viewUser.
  destruct (h !! l) as [[| |u|]|]; try discriminate.
  destruct (viewSkills h (User.skills u)) as [ss|] eqn:E; [|discriminate].
  simpl. intros [= <-]. exists u. split; [reflexivity|]. split; [exact E|reflexivity].
Qed.

Lemma derefOpportunity_cell (h : heap) l o :
  h !! l = Some (COpportunity o) -> derefOpportunity l h = (Ok o, h).
Proof. intros E. unfold derefOpportunity, bind, deref. now rewrite E. Qed.

Lemma derefUser_cell (h : heap) l u :
  h !! l = Some (CUser u) -> derefUser l h = (Ok u, h).
Proof. intros E. unfold derefUser, bind, deref. now rewrite E. Qed.

Lemma viewSkills_inv (h : heap) a ss :
  viewSkills h a = Some ss ->
  ∃ ls, viewArray TSkill h a = Some ls ∧ mapM (viewSkill h) ls = Some ss.
Proof.
  unfold viewSkills. destruct (viewArray TSkill h a) as [ls|]; [|discriminate].
  simpl. eauto.
Qed.

Lemma viewOpportunities_inv (h : heap) a os :
  viewOpportunities h a = Some os ->
  ∃ ls, viewArray TOpportunity h a = Some ls ∧ mapM (viewOpportunity h) ls = Some os.
Proof.
  unfold viewOpportunities.
  destruct (viewArray TOpportunity h a) as [ls|]; [|discriminate].
  simpl. eauto.
Qed.

Lemma viewUsers_inv (h : heap) a us :
  viewUsers h a = Some us ->
  ∃ ls, viewArray TUser h a = Some ls ∧ mapM (viewUser h) ls = Some us.
Proof.
  unfold viewUsers. destruct (viewArray TUser h a) as [ls|]; [|discriminate].
  simpl. eauto.
Qed.

Lemma snapshot_inv m (h : heap) S :
  snapshot m h = Some S ->
  viewSkills h (skills m) = Some (store_skills S) ∧
  viewOpportunities h (opportunities m) = Some (store_opportunities S) ∧
  viewUsers h (users m) = Some (store_users S).
Proof.
  unfold snapshot.
  destruct (viewSkills h (skills m)) as [ss|]; [|discriminate].
  destruct (viewOpportunities h (opportunities m)) as [os|]; [|discriminate].
  destruct (viewUsers h (users m)) as [us|]; [|discriminate].
  simpl. now intros [= <-].
Qed.

Lemma snapshot_intro m (h : heap) ss os us :
  viewSkills h (skills m) = Some ss ->
  viewOpportunities h (opportunities m) = Some os ->
  viewUsers h (users m) = Some us ->
  snapshot m h = Some {| store_skills := ss; store_opportunities := os; store_users := us |}.
Proof. unfold snapshot. now intros -> -> ->. Qed.

Lemma viewArray_lt t (h : heap) a ls : viewArray t h a = Some ls -> (a < List.length h)%nat.
Proof.
  unfold viewArray. destruct (h !! a) eqn:E; [|discriminate].
  intros _. eapply lookup_lt_Some; eauto.
Qed.

(** ** Replacing the contents of an array that does not hold skills *)

Section Update.
Context (h : heap) (p : loc) (t : ty) (old new : list loc).
Context (Hp : h !! p = Some (CArray t old)) (Ht : t ≠ TSkill).

#[local] Abbreviation h' := (<[p := CArray t new]> h).

Lemma update_lookup_other l c :
  (forall t' ls, c ≠ CArray t' ls) -> h !! l = Some c -> h' !! l = Some c.
Proof.
  intros Hc E. rewrite list_lookup_insert_ne; [exact E|].
  intros ->. rewrite Hp in E. injection E as <-. now apply (Hc t old).
Qed.

Lemma update_viewSkill l : viewSkill h' l = viewSkill h l.
Proof.
  unfold viewSkill. destruct (decide (p = l)) as [->|Hne].
  - rewrite list_lookup_insert_eq by (eapply lookup_lt_Some; eauto).
    now rewrite Hp.
  - now rewrite list_lookup_insert_ne.
Qed.

Lemma update_viewArray_self : viewArray t h' p = Some new.
Proof.
  unfold viewArray.
  rewrite list_lookup_insert_eq by (eapply lookup_lt_Some; eauto).
  now rewrite ty_eqb_refl.
Qed.

Lemma update_viewArray_other t' a : t' ≠ t -> viewArray t' h' a = viewArray t' h a.
Proof.
  intros Hne. unfold viewArray. destruct (decide (p = a)) as [->|Hpa].
  - rewrite list_lookup_insert_eq by (eapply lookup_lt_Some; eauto).
    rewrite Hp. destruct (ty_eqb t' t) eqn:E; [|reflexivity].
    now apply ty_eqb_eq in E.
  - now rewrite list_lookup_insert_ne.
Qed.

Lemma update_viewSkills a : viewSkills h' a = viewSkills h a.
Proof.
  unfold viewSkills. rewrite update_viewArray_other by congruence.
  destruct (viewArray TSkill h a); [simpl|reflexivity].
  apply mapM_ext, update_viewSkill.
Qed.

Lemma update_viewOpportunity l : viewOpportunity h' l = viewOpportunity h l.
Proof.
  unfold viewOpportunity. destruct (decide (p = l)) as [->|Hne].
  - rewrite list_lookup_insert_eq by (eapply lookup_lt_Some; eauto).
    now rewrite Hp.
  - rewrite list_lookup_insert_ne by done.
    destruct (h !! l) as [[| | |]|]; try reflexivity.
    now rewrite update_viewSkills.
Qed.

Lemma update_viewUser l : viewUser h' l = viewUser h l.
Proof.
  unfold viewUser. destruct (decide (p = l)) as [->|Hne].
  - rewrite list_lookup_insert_eq by (eapply lookup_lt_Some; eauto).
    now rewrite Hp.
  - rewrite list_lookup_insert_ne by done.
    destruct (h !! l) as [[| | |]|]; try reflexivity.
    now rewrite update_viewSkills.
Qed.

Lemma update_viewOpportunities_other a :
  t ≠ TOpportunity -> viewOpportunities h' a = viewOpportunities h a.
Proof.
  intros Hne. unfold viewOpportunities. rewrite update_viewArray_other by congruence.
  destruct (viewArray TOpportunity h a); [simpl|reflexivity].
  apply mapM_ext, update_viewOpportunity.
Qed.

Lemma update_viewUsers_other a : t ≠ TUser -> viewUsers h' a = viewUsers h a.
Proof.
  intros Hne. unfold viewUsers. rewrite update_viewArray_other by congruence.
  destruct (viewArray TUser h a); [simpl|reflexivity].
  apply mapM_ext, update_viewUser.
Qed.

Lemma update_viewOpportunities_self :
  t = TOpportunity -> viewOpportunities h' p = mapM (viewOpportunity h) new.
Proof.
  intros Heq. unfold viewOpportunities.
  rewrite <- Heq, update_viewArray_self. simpl.
  apply mapM_ext, update_viewOpportunity.
Qed.

Lemma update_viewUsers_self : t = TUser -> viewUsers h' p = mapM (viewUser h) new.
Proof.
  intros Heq. unfold viewUsers.
  rewrite <- Heq, update_viewArray_self. simpl.
  apply mapM_ext, update_viewUser.
Qed.
End Update.

Lemma viewArray_cell t (h : heap) a ls :
  viewArray t h a = Some ls -> h !! a = Some (CArray t ls).
Proof.
  unfold viewArray. destruct (h !! a) as [[| | |t' ls']|]; try discriminate.
  destruct (ty_eqb t t') eqn:E; [|discriminate].
  apply ty_eqb_eq in E as ->. now intros [= ->].
Qed.

(** ** Allocation *)

Lemma new_lookup (h : heap) c : (h ++ [c]) !! List.length h = Some c.
Proof. now rewrite list_lookup_middle. Qed.

Lemma new_prefix (h : heap) (k : list cell) : h `prefix_of` h ++ k.
Proof. now exists k. Qed.

Lemma new_skills_view (h : heap) ls ss :
  mapM (viewSkill h) ls = Some ss ->
  viewSkills (h ++ [CArray TSkill ls]) (List.length h) = Some ss.
Proof.
  intros E. unfold viewSkills, viewArray. rewrite new_lookup. simpl.
  revert E. apply mapM_mono. intros l v. apply viewSkill_mono, new_prefix.
Qed.

(** ** Choosing the skills of a new record *)

Lemma filterM_skills (h : heap) sel (p : string -> bool) ls cat :
  (forall s, includes sel s = Ok (p s)) ->
  mapM (viewSkill h) ls = Some cat ->
  ∃ kept,
    filterM (fun l => s <- derefSkill l ;; lift (includes sel (Skill.id s))) ls h
      = (Ok kept, h) ∧
    mapM (viewSkill h) kept = Some (filter (fun s => Is_true (p (Skill.id s))) cat).
Proof.
  intros Hp. rewrite mapM_Some. induction 1 as [|l s ls cat Hl _ IH].
  - exists []. split; reflexivity.
  - destruct IH as (kept & Hrun & Hview). cbn [filterM].
    rewrite (bind_ok _ _ h (p (Skill.id s)) h).
    2:{ rewrite (bind_ok _ _ h s h) by now apply derefSkill_view.
        unfold lift. now rewrite Hp. }
    rewrite (bind_ok _ _ _ _ _ Hrun). unfold ret.
    rewrite filter_cons. destruct (p (Skill.id s)) eqn:E.
    + exists (l :: kept). split; [reflexivity|].
      rewrite decide_True by done. rewrite mapM_Some. constructor; [exact Hl|].
      now apply mapM_Some.
    + exists kept. split; [reflexivity|]. now rewrite decide_False by (simpl; tauto).
Qed.

Lemma filterM_skills_throw (h : heap) sel e l ls s :
  (forall x, includes sel x = Throw e) ->
  viewSkill h l = Some s ->
  filterM (fun l => s <- derefSkill l ;; lift (includes sel (Skill.id s))) (l :: ls) h
    = (Throw e, h).
Proof.
  intros Hp Hl. cbn [filterM]. apply bind_throw.
  rewrite (bind_ok _ _ h s h) by now apply derefSkill_view.
  unfold lift. now rewrite Hp.
Qed.

Lemma chooseSkills_ok m body (h : heap) (p : string -> bool) cat :
  (forall s, includes (selection body) s = Ok (p s)) ->
  viewSkills h (skills m) = Some cat ->
  ∃ kept,
    chooseSkills m body h = (Ok (List.length h), h ++ [CArray TSkill kept]) ∧
    mapM (viewSkill h) kept = Some (filter (fun s => Is_true (p (Skill.id s))) cat).
Proof.
  intros Hp Hcat. apply viewSkills_inv in Hcat as (ls & Harr & Hls).
  destruct (filterM_skills h _ p ls cat Hp Hls) as (kept & Hrun & Hkept).
  exists kept. split; [|exact Hkept].
  unfold chooseSkills.
  rewrite (bind_ok _ _ _ _ _ (elements_view _ _ _ _ Harr)).
  now rewrite (bind_ok _ _ _ _ _ Hrun).
Qed.

(** ** The two creation calls *)

Lemma bind_lift_ok {A B} (r : res A) (k : A -> M B) (h : heap) a :
  r = Ok a -> bind (lift r) k h = k a h.
Proof. now intros ->. Qed.

Lemma bind_lift_throw {A B} (r : res A) (k : A -> M B) (h : heap) e :
  r = Throw e -> bind (lift r) k h = (Throw e, h).
Proof. now intros ->. Qed.

Lemma bind_new {B} c (k : loc -> M B) (h : heap) :
  bind (new c) k h = k (List.length h) (h ++ [c]).
Proof. reflexivity. Qed.

Lemma unshift_view t (h : heap) a x ls :
  viewArray t h a = Some ls ->
  unshift t a x h = (Ok tt, <[a := CArray t (x :: ls)]> h).
Proof.
  intros E. unfold unshift. now rewrite (bind_ok _ _ _ _ _ (elements_view _ _ _ _ E)).
Qed.

Lemma push_view t (h : heap) a x ls :
  viewArray t h a = Some ls ->
  push t a x h = (Ok tt, <[a := CArray t (ls ++ [x])]> h).
Proof.
  intros E. unfold push. now rewrite (bind_ok _ _ _ _ _ (elements_view _ _ _ _ E)).
Qed.

Lemma mapM_snoc {A B} (f : A -> option B) l x k y :
  mapM f l = Some k -> f x = Some y -> mapM f (l ++ [x]) = Some (k ++ [y]).
Proof.
  rewrite !mapM_Some. intros H Hx. apply Forall2_app; [exact H|].
  constructor; [exact Hx|constructor].
Qed.

Lemma postOpp_chosen P m body (h : heap) st kept chosen t d :
  snapshot m h = Some st ->
  chooseSkills m body h = (Ok (List.length h), h ++ [CArray TSkill kept]) ->
  mapM (viewSkill h) kept = Some chosen ->
  get body "title" = Ok t ->
  get body "description" = Ok d ->
  let created := Opportunity.Build (uid P) t d (now P) chosen None in
  let r := S (List.length h) in
  ∃ h' ls,
    postOpp P m body h = (Ok r, h') ∧
    viewOpportunity h' r = Some created ∧
    viewArray TOpportunity h (opportunities m) = Some ls ∧
    viewArray TOpportunity h' (opportunities m) = Some (r :: ls) ∧
    snapshot m h' =
      Some {| store_skills := store_skills st;
              store_opportunities := created :: store_opportunities st;
              store_users := store_users st |} ∧
    (forall l c, l ≠ opportunities m -> h !! l = Some c -> h' !! l = Some c).
Proof.
  intros Hst Hrun Hkept Ht Hd created r.
  destruct (snapshot_inv _ _ _ Hst) as (Hsk & Hop & Hus).
  destruct (viewOpportunities_inv _ _ _ Hop) as (ls & Harr & Hls).
  set (h1 := h ++ [CArray TSkill kept]) in *.
  set (o := Opportunity.Build (uid P) t d (now P) (List.length h) None).
  set (h2 := h1 ++ [COpportunity o]).
  assert (Hr : List.length h1 = r).
  { unfold h1, r. rewrite length_app. simpl. lia. }
  assert (H12 : h `prefix_of` h2).
  { unfold h2, h1. rewrite <- app_assoc. apply new_prefix. }
  assert (Harr2 : viewArray TOpportunity h2 (opportunities m) = Some ls).
  { eapply viewArray_mono; eauto. }
  assert (Hcell := viewArray_cell _ _ _ _ Harr2).
  assert (Hnew : viewOpportunity h2 r = Some created).
  { unfold viewOpportunity. rewrite <- Hr. unfold h2. rewrite new_lookup.
    cbn [Opportunity.skills o].
    assert (E : viewSkills (h1 ++ [COpportunity o]) (List.length h)
                = Some (Opportunity.skills created)).
    { eapply viewSkills_mono; [apply new_prefix|]. now apply new_skills_view. }
    rewrite E. reflexivity. }
  exists (<[opportunities m := CArray TOpportunity (r :: ls)]> h2), ls.
  split; [|split; [|split; [|split; [|split]]]].
  - unfold postOpp. rewrite (bind_ok _ _ _ _ _ Hrun). fold h1.
    rewrite (bind_lift_ok _ _ _ _ Ht), (bind_lift_ok _ _ _ _ Hd), bind_new.
    fold o h2. rewrite Hr.
    now rewrite (bind_ok _ _ _ _ _ (unshift_view _ _ _ r _ Harr2)).
  - rewrite (update_viewOpportunity h2 _ TOpportunity ls) by done. exact Hnew.
  - exact Harr.
  - apply (update_viewArray_self h2 _ TOpportunity ls). exact Hcell.
  - apply snapshot_intro.
    + rewrite (update_viewSkills h2 _ TOpportunity ls) by done.
      eapply viewSkills_mono; eauto.
    + rewrite (update_viewOpportunities_self h2 _ TOpportunity ls) by done.
      rewrite mapM_Some. constructor; [exact Hnew|]. apply mapM_Some.
      revert Hls. apply mapM_mono. intros l v. now apply viewOpportunity_mono.
    + rewrite (update_viewUsers_other h2 _ TOpportunity ls) by done.
      eapply viewUsers_mono; eauto.
  - intros l c Hne Hl. rewrite list_lookup_insert_ne by done.
    eapply lookup_mono; eauto.
Qed.

Lemma postUser_chosen P m body (h : heap) st kept chosen n e :
  snapshot m h = Some st ->
  chooseSkills m body h = (Ok (List.length h), h ++ [CArray TSkill kept]) ->
  mapM (viewSkill h) kept = Some chosen ->
  get body "name" = Ok n ->
  get body "email" = Ok e ->
  let created := User.Build (uid P) n e chosen in
  let r := S (List.length h) in
  ∃ h' ls,
    postUser P m body h = (Ok r, h') ∧
    viewUser h' r = Some created ∧
    viewArray TUser h (users m) = Some ls ∧
    viewArray TUser h' (users m) = Some (ls ++ [r]) ∧
    snapshot m h' =
      Some {| store_skills := store_skills st;
              store_opportunities := store_opportunities st;
              store_users := store_users st ++ [created] |} ∧
    (forall l c, l ≠ users m -> h !! l = Some c -> h' !! l = Some c).
Proof.
  intros Hst Hrun Hkept Hn He created r.
  destruct (snapshot_inv _ _ _ Hst) as (Hsk & Hop & Hus).
  destruct (viewUsers_inv _ _ _ Hus) as (ls & Harr & Hls).
  set (h1 := h ++ [CArray TSkill kept]) in *.
  set (u := User.Build (uid P) n e (List.length h)).
  set (h2 := h1 ++ [CUser u]).
  assert (Hr : List.length h1 = r).
  { unfold h1, r. rewrite length_app. simpl. lia. }
  assert (H12 : h `prefix_of` h2).
  { unfold h2, h1. rewrite <- app_assoc. apply new_prefix. }
  assert (Harr2 : viewArray TUser h2 (users m) = Some ls).
  { eapply viewArray_mono; eauto. }
  assert (Hcell := viewArray_cell _ _ _ _ Harr2).
  assert (Hnew : viewUser h2 r = Some created).
  { unfold viewUser. rewrite <- Hr. unfold h2. rewrite new_lookup.
    cbn [User.skills u].
    assert (E : viewSkills (h1 ++ [CUser u]) (List.length h)
                = Some (User.skills created)).
    { eapply viewSkills_mono; [apply new_prefix|]. now apply new_skills_view. }
    rewrite E. reflexivity. }
  exists (<[users m := CArray TUser (ls ++ [r])]> h2), ls.
  split; [|split; [|split; [|split; [|split]]]].
  - unfold postUser. rewrite (bind_ok _ _ _ _ _ Hrun). fold h1.
    rewrite (bind_lift_ok _ _ _ _ Hn), (bind_lift_ok _ _ _ _ He), bind_new.
    fold u h2. rewrite Hr.
    now rewrite (bind_ok _ _ _ _ _ (push_view _ _ _ r _ Harr2)).
  - rewrite (update_viewUser h2 _ TUser ls) by done. exact Hnew.
  - exact Harr.
  - apply (update_viewArray_self h2 _ TUser ls). exact Hcell.
  - apply snapshot_intro.
    + rewrite (update_viewSkills h2 _ TUser ls) by done.
      eapply viewSkills_mono; eauto.
    + rewrite (update_viewOpportunities_other h2 _ TUser ls) by done.
      eapply viewOpportunities_mono; eauto.
    + rewrite (update_viewUsers_self h2 _ TUser ls) by done.
      apply mapM_snoc; [|exact Hnew].
      revert Hls. apply mapM_mono. intros l v. now apply viewUser_mono.
  - intros l c Hne Hl. rewrite list_lookup_insert_ne by done.
    eapply lookup_mono; eauto.
Qed.

(** ** The stable sort *)

Section Sort.
Context {A : Type} (cmp : A -> A -> Z).

Lemma sort_insert_perm x l : sort_insert cmp x l ≡ₚ x :: l.
Proof.
  induction l as [|y l IH]; simpl; [reflexivity|].
  destruct (0 <? cmp x y); [|reflexivity].
  rewrite IH. apply Permutation_swap.
Qed.

Lemma sort_perm l : sort cmp l ≡ₚ l.
Proof.
  induction l as [|x l IH]; simpl; [reflexivity|].
  unfold sort in *. simpl. now rewrite sort_insert_perm, IH.
Qed.

Hypothesis cmp_antisym : forall x y, 0 < cmp x y -> cmp y x <= 0.

Lemma sort_insert_hd x y l :
  (in_order cmp) y x -> HdRel (in_order cmp) y l -> HdRel (in_order cmp) y (sort_insert cmp x l).
Proof.
  intros Hyx Hl. destruct l as [|z l]; simpl; [now constructor|].
  destruct (0 <? cmp x z); constructor; [|exact Hyx].
  now apply HdRel_inv in Hl.
Qed.

Lemma sort_insert_sorted x l :
  Sorted (in_order cmp) l -> Sorted (in_order cmp) (sort_insert cmp x l).
Proof.
  induction 1 as [|y l Hl IH Hy]; simpl; [repeat constructor|].
  destruct (0 <? cmp x y) eqn:E.
  - constructor; [exact IH|]. apply sort_insert_hd; [|exact Hy].
    apply cmp_antisym. lia.
  - constructor; [now constructor|]. constructor. unfold in_order. lia.
Qed.

Lemma sort_sorted l : Sorted (in_order cmp) (sort cmp l).
Proof.
  induction l as [|x l IH]; [constructor|].
  unfold sort in *. simpl. now apply sort_insert_sorted.
Qed.
End Sort.

Section SortStable.
Context {A : Type} (cmp : A -> A -> Z).
Context (P : A -> Prop) `{!forall x, Decision (P x)}.

(** [P] selects elements that the comparator does not order. *)
Hypothesis P_tie : forall x y, P x -> P y -> cmp x y <= 0.

Lemma sort_insert_stable x l :
  filter P (sort_insert cmp x l) = filter P (x :: l).
Proof.
  induction l as [|y l IH]; simpl; [reflexivity|].
  destruct (0 <? cmp x y) eqn:E; [|reflexivity].
  rewrite (filter_cons _ y), IH, !(filter_cons _ x), (filter_cons _ y).
  destruct (decide (P x)) as [Hx|Hx], (decide (P y)) as [Hy|Hy]; try reflexivity.
  specialize (P_tie x y Hx Hy). lia.
Qed.

Lemma sort_stable l : filter P (sort cmp l) = filter P l.
Proof.
  induction l as [|x l IH]; [reflexivity|].
  unfold sort in *. simpl. rewrite sort_insert_stable, !filter_cons.
  now rewrite IH.
Qed.
End SortStable.

(** Sorting two lists that are related element by element, with
    comparators that agree on related elements. *)
Section SortRel.
Context {A B : Type} (R : A -> B -> Prop).
Context (cmpA : A -> A -> Z) (cmpB : B -> B -> Z).
Hypothesis cmp_agree : forall x y a b, R x a -> R y b -> cmpA x y = cmpB a b.

Lemma sort_insert_Forall2 x a l k :
  R x a -> Forall2 R l k ->
  Forall2 R (sort_insert cmpA x l) (sort_insert cmpB a k).
Proof.
  intros Hxa. induction 1 as [|y b l k Hyb Hlk IH]; simpl.
  - repeat constructor. exact Hxa.
  - rewrite (cmp_agree x y a b Hxa Hyb).
    destruct (0 <? cmpB a b); repeat (constructor; try assumption).
Qed.

Lemma sort_Forall2 l k : Forall2 R l k -> Forall2 R (sort cmpA l) (sort cmpB k).
Proof.
  induction 1 as [|x a l k Hxa Hlk IH]; [constructor|].
  unfold sort in *. simpl. now apply sort_insert_Forall2.
Qed.
End SortRel.

(** The newest element that is at the front stays at the front. *)
Lemma sort_head {A} (cmp : A -> A -> Z) x l :
  Forall (fun y => cmp x y <= 0) l -> sort cmp (x :: l) = x :: sort cmp l.
Proof.
  intros Hl. unfold sort. simpl. fold (sort cmp l).
  assert (Hs : Forall (fun y => cmp x y <= 0) (sort cmp l)).
  { rewrite Forall_forall in *. intros y Hy. apply Hl.
    now rewrite <- (sort_perm cmp l). }
  destruct (sort cmp l) as [|y s]; [reflexivity|]. simpl.
  apply Forall_inv in Hs. destruct (0 <? cmp x y) eqn:E; [lia|reflexivity].
Qed.

(** ** Comparing timestamps *)

Lemma localeCompare_refl a : localeCompare a a = 0.
Proof.
  unfold localeCompare. pose proof (String.compare_antisym a a) as H.
  now destruct (String.compare a a).
Qed.

Lemma localeCompare_eq a b : localeCompare a b = 0 <-> a = b.
Proof.
  split; [|intros ->; apply localeCompare_refl].
  unfold localeCompare. destruct (String.compare a b) eqn:E; try discriminate.
  intros _. now apply String.compare_eq_iff.
Qed.

Lemma localeCompare_antisym a b : localeCompare a b = - localeCompare b a.
Proof.
  unfold localeCompare. rewrite (String.compare_antisym b a).
  now destruct (String.compare a b).
Qed.

Lemma not_later_refl t : not_later t t.
Proof. unfold not_later. now rewrite localeCompare_refl. Qed.

Lemma not_later_trans t1 t2 t3 : not_later t1 t2 -> not_later t2 t3 -> not_later t1 t3.
Proof.
  unfold not_later, localeCompare. intros H12 H23.
  destruct (String.compare t1 t2) eqn:E12; try lia;
    destruct (String.compare t2 t3) eqn:E23; try lia.
  - apply String.compare_eq_iff in E12 as ->. now rewrite E23.
  - apply String.compare_eq_iff in E12 as ->. now rewrite E23.
  - apply String.compare_eq_iff in E23 as <-. now rewrite E12.
  - apply OrderedTypeEx.String_as_OT.cmp_lt in E12, E23.
    pose proof (OrderedTypeEx.String_as_OT.lt_trans _ _ _ E12 E23) as H.
    apply OrderedTypeEx.String_as_OT.cmp_lt in H.
    unfold OrderedTypeEx.String_as_OT.cmp in H. now rewrite H.
Qed.

Lemma not_later_total t1 t2 : not_later t1 t2 ∨ not_later t2 t1.
Proof.
  unfold not_later. rewrite (localeCompare_antisym t2 t1).
  destruct (Z.le_gt_cases (localeCompare t1 t2) 0); [left|right]; lia.
Qed.

Lemma not_later_antisym t1 t2 : not_later t1 t2 -> not_later t2 t1 -> t1 = t2.
Proof.
  unfold not_later. rewrite (localeCompare_antisym t2 t1). intros H1 H2.
  apply localeCompare_eq. lia.
Qed.

Lemma newest_first_antisym {S} (x y : Opportunity.t S) :
  0 < newest_first x y -> newest_first y x <= 0.
Proof.
  unfold newest_first.
  rewrite (localeCompare_antisym (Opportunity.createdAt x)). lia.
Qed.

Lemma newest_first_order {S} (x y : Opportunity.t S) :
  in_order newest_first x y <->
  not_later (Opportunity.createdAt y) (Opportunity.createdAt x).
Proof. reflexivity. Qed.

(** ** Listing the opportunities *)

Lemma mapM'_pairs (h0 h : heap) ls ovs :
  h0 `prefix_of` h ->
  mapM (viewOpportunity h0) ls = Some ovs ->
  ∃ ps,
    mapM' (fun l => o <- derefOpportunity l ;; ret (l, o)) ls h = (Ok ps, h) ∧
    fst <$> ps = ls ∧
    Forall2 (fun p ov => viewOpportunity h0 (fst p) = Some ov ∧
                         Opportunity.createdAt (snd p) = Opportunity.createdAt ov)
            ps ovs.
Proof.
  intros Hext. rewrite mapM_Some. induction 1 as [|l ov ls ovs Hl _ IH].
  - exists []. split; [reflexivity|]. split; [reflexivity|constructor].
  - destruct IH as (ps & Hrun & Hfst & Hps).
    destruct (viewOpportunity_inv _ _ _ Hl) as (o & Hcell & _ & Hov).
    exists ((l, o) :: ps). split; [|split].
    + cbn [mapM'].
      rewrite (bind_ok _ _ h (l, o) h).
      2:{ rewrite (bind_ok _ _ h o h); [reflexivity|].
          apply derefOpportunity_cell. eapply lookup_mono; eauto. }
      now rewrite (bind_ok _ _ _ _ _ Hrun).
    + rewrite fmap_cons. now rewrite Hfst.
    + constructor; [|exact Hps]. split; [exact Hl|]. now rewrite Hov.
Qed.

Lemma new_array_view t (h : heap) ls : viewArray t (h ++ [CArray t ls]) (List.length h) = Some ls.
Proof. unfold viewArray. now rewrite new_lookup, ty_eqb_refl. Qed.

Lemma assign_last (h : heap) c c' :
  <[List.length h := c']> (h ++ [c]) = h ++ [c'].
Proof.
  rewrite insert_app_r_alt by lia. now rewrite Nat.sub_diag.
Qed.

(** [getOpps] allocates one array, the sorted copy, and nothing else. *)
Lemma getOpps_refs m (h : heap) st ls :
  snapshot m h = Some st ->
  viewArray TOpportunity h (opportunities m) = Some ls ->
  ∃ ps,
    fst <$> ps = ls ∧
    Forall2 (fun p ov => viewOpportunity h (fst p) = Some ov ∧
                         Opportunity.createdAt (snd p) = Opportunity.createdAt ov)
            ps (store_opportunities st) ∧
    getOpps m h
      = (Ok (List.length h),
         h ++ [CArray TOpportunity
                 (fst <$> sort (fun x y : loc * Opportunity.t loc =>
                                  newest_first (snd x) (snd y)) ps)]).
Proof.
  intros Hst Harr. destruct (snapshot_inv _ _ _ Hst) as (_ & Hop & _).
  destruct (viewOpportunities_inv _ _ _ Hop) as (ls' & Harr' & Hls).
  rewrite Harr in Harr'. injection Harr' as <-.
  set (h1 := h ++ [CArray TOpportunity ls]).
  destruct (mapM'_pairs h h1 ls _ (new_prefix h _) Hls) as (ps & Hrun & Hfst & Hps).
  exists ps. split; [exact Hfst|]. split; [exact Hps|].
  unfold getOpps, slice.
  rewrite (bind_ok _ _ _ _ _ (bind_ok _ _ _ _ _ (elements_view _ _ _ _ Harr))).
  unfold sortOpportunities.
  rewrite (bind_ok _ _ _ _ _ (elements_view _ _ _ _ (new_array_view _ h ls))).
  fold h1. rewrite (bind_ok _ _ _ _ _ Hrun).
  unfold bind, assign, ret, h1. now rewrite assign_last.
Qed.

Lemma getOpps_ok m (h : heap) st :
  snapshot m h = Some st ->
  ∃ sorted,
    getOpps m h = (Ok (List.length h), h ++ [CArray TOpportunity sorted]) ∧
    mapM (viewOpportunity h) sorted
      = Some (sort newest_first (store_opportunities st)).
Proof.
  intros Hst. destruct (snapshot_inv _ _ _ Hst) as (_ & Hop & _).
  destruct (viewOpportunities_inv _ _ _ Hop) as (ls & Harr & _).
  destruct (getOpps_refs m h st ls Hst Harr) as (ps & _ & Hps & Hrun).
  eexists. split; [exact Hrun|].
  apply mapM_Some, Forall2_fmap_l.
  eapply Forall2_impl.
  - eapply (sort_Forall2 _ _ newest_first); [|exact Hps].
    intros x y a b [_ Hx] [_ Hy]. unfold newest_first. now rewrite Hx, Hy.
  - now intros p ov [Hv _].
Qed.

Lemma getOpps_view m (h : heap) st :
  snapshot m h = Some st ->
  ∃ h', getOpps m h = (Ok (List.length h), h') ∧
        h `prefix_of` h' ∧
        viewOpportunities h' (List.length h)
          = Some (sort newest_first (store_opportunities st)).
Proof.
  intros Hst. destruct (getOpps_ok _ _ _ Hst) as (sorted & Hrun & Hview).
  eexists. split; [exact Hrun|]. split; [apply new_prefix|].
  unfold viewOpportunities. rewrite new_array_view. simpl.
  revert Hview. apply mapM_mono. intros l v.
  apply viewOpportunity_mono, new_prefix.
Qed.

(** ** Matching *)

(** Looking the user up: the callback of [users.find]. *)
Lemma findM_user (h : heap) (userId : option string) us uvs :
  mapM (viewUser h) us = Some uvs ->
  ∃ res,
    findM (fun l => x <- derefUser l ;;
                    ret (bool_decide (Some (User.id x) = userId))) us h
      = (Ok res, h) ∧
    match res with
    | Some l => ∃ i u, userId = Some i ∧ viewUser h l = Some u ∧
                       user_with_id i uvs = Some u
    | None => forall i, userId = Some i -> user_with_id i uvs = None
    end.
Proof.
  rewrite mapM_Some. induction 1 as [|l uv us uvs Hl _ IH].
  - exists None. split; [reflexivity|]. intros i _. reflexivity.
  - destruct IH as (res & Hrun & Hres).
    destruct (viewUser_inv _ _ _ Hl) as (u & Hcell & _ & Huv).
    assert (Hid : User.id uv = User.id u) by now rewrite Huv.
    cbn [findM].
    rewrite (bind_ok _ _ h (bool_decide (Some (User.id u) = userId)) h).
    2:{ now rewrite (bind_ok _ _ _ _ _ (derefUser_cell _ _ _ Hcell)). }
    destruct (bool_decide_reflect (Some (User.id u) = userId)) as [E|E].
    + exists (Some l). split; [reflexivity|].
      exists (User.id u), uv. split; [now symmetry|]. split; [exact Hl|].
      unfold user_with_id. simpl. rewrite Hid. now rewrite String.eqb_refl.
    + exists res. split; [exact Hrun|].
      assert (Hskip : forall i, userId = Some i ->
                user_with_id i (uv :: uvs) = user_with_id i uvs).
      { intros i ->. unfold user_with_id. simpl. rewrite Hid.
        destruct (String.eqb_spec (User.id u) i) as [Heq|]; [|reflexivity].
        destruct E. now rewrite Heq. }
      destruct res as [l'|].
      * destruct Hres as (i & u' & Hi & Hv & Hf). exists i, u'.
        repeat split; try assumption. now rewrite (Hskip i Hi).
      * intros i Hi. rewrite (Hskip i Hi). now apply Hres.
Qed.

Lemma mapM'_skill_ids (h : heap) ss sks :
  mapM (viewSkill h) ss = Some sks ->
  mapM' (fun l => s <- derefSkill l ;; ret (Skill.id s)) ss h
    = (Ok (skill_ids sks), h).
Proof.
  rewrite mapM_Some. induction 1 as [|l s ss sks Hl _ IH]; [reflexivity|].
  cbn [mapM'].
  rewrite (bind_ok _ _ h (Skill.id s) h)
    by now rewrite (bind_ok _ _ _ _ _ (derefSkill_view _ _ _ Hl)).
  now rewrite (bind_ok _ _ _ _ _ IH).
Qed.

(** The score of one opportunity against a set of skill ids. *)
Lemma reduceM_score (h : heap) (ids : gset string) oss sks acc :
  mapM (viewSkill h) oss = Some sks ->
  reduceM (fun acc l =>
             s <- derefSkill l ;;
             ret (acc + (if bool_decide (Skill.id s ∈ ids) then 1 else 0)))
          oss acc h
    = (Ok (acc + Z.of_nat (List.length (filter (fun s => Skill.id s ∈ ids) sks))), h).
Proof.
  rewrite mapM_Some. intros H. revert acc.
  induction H as [|l s oss sks Hl _ IH]; intros acc.
  - simpl. unfold ret. now rewrite Z.add_0_r.
  - cbn [reduceM].
    rewrite (bind_ok _ _ h (acc + (if bool_decide (Skill.id s ∈ ids) then 1 else 0)) h)
      by now rewrite (bind_ok _ _ _ _ _ (derefSkill_view _ _ _ Hl)).
    rewrite IH, filter_cons. f_equal. f_equal.
    destruct (decide (Skill.id s ∈ ids)) as [Hin|Hin].
    + rewrite bool_decide_eq_true_2 by done. simpl List.length. lia.
    + rewrite bool_decide_eq_false_2 by done. lia.
Qed.

Lemma withMatchScore_ok (h0 h : heap) (ids : gset string) ol ov :
  h0 `prefix_of` h ->
  viewOpportunity h0 ol = Some ov ->
  ∃ c,
    withMatchScore ids ol h = (Ok (List.length h), h ++ [c]) ∧
    forall h', h ++ [c] `prefix_of` h' ->
      viewOpportunity h' (List.length h)
        = Some (with_score
                  (Z.of_nat (List.length
                     (filter (fun s => Skill.id s ∈ ids) (Opportunity.skills ov))))
                  ov).
Proof.
  intros Hext Hov.
  destruct (viewOpportunity_inv _ _ _ Hov) as (o & Hcell & Hsk & Heq).
  pose proof (viewSkills_mono Hext _ _ Hsk) as Hsk'.
  destruct (viewSkills_inv _ _ _ Hsk') as (oss & Harr & Hoss).
  eexists. split.
  - unfold withMatchScore.
    rewrite (bind_ok _ _ _ _ _ (derefOpportunity_cell _ _ _ (lookup_mono Hext _ _ Hcell))).
    rewrite (bind_ok _ _ _ _ _ (elements_view _ _ _ _ Harr)).
    rewrite (bind_ok _ _ _ _ _ (reduceM_score h ids oss _ 0 Hoss)).
    reflexivity.
  - intros h' Hext'. unfold viewOpportunity.
    rewrite (lookup_mono Hext' _ _ (new_lookup h _)). cbn [Opportunity.skills].
    assert (Hh' : h0 `prefix_of` h').
    { etransitivity; [exact Hext|]. etransitivity; [apply new_prefix|exact Hext']. }
    rewrite (viewSkills_mono Hh' _ _ Hsk). simpl. rewrite Heq. reflexivity.
Qed.

Lemma mapM'_scores (h0 : heap) (ids : gset string) (ols : list loc)
    (ovs : list (Opportunity.t (list Skill.t))) :
  mapM (viewOpportunity h0) ols = Some ovs ->
  forall h : heap, h0 `prefix_of` h ->
  ∃ rs h',
    mapM' (withMatchScore ids) ols h = (Ok rs, h') ∧
    h `prefix_of` h' ∧
    Forall (fun r => (List.length h <= r)%nat) rs ∧
    forall h'', h' `prefix_of` h'' ->
      mapM (viewOpportunity h'') rs
        = Some ((fun ov => with_score
                   (Z.of_nat (List.length
                      (filter (fun s => Skill.id s ∈ ids) (Opportunity.skills ov))))
                   ov) <$> ovs).
Proof.
  rewrite mapM_Some. induction 1 as [|ol ov ols ovs Hov _ IH]; intros h Hext.
  - exists [], h. repeat split; [reflexivity|constructor].
  - destruct (withMatchScore_ok h0 h ids ol ov Hext Hov) as (c & Hrun & Hview).
    destruct (IH (h ++ [c])) as (rs & h' & Hrest & Hext' & Hfresh & Hviews).
    { etransitivity; [exact Hext|apply new_prefix]. }
    exists (List.length h :: rs), h'. split; [|split; [|split]].
    + cbn [mapM']. rewrite (bind_ok _ _ _ _ _ Hrun).
      now rewrite (bind_ok _ _ _ _ _ Hrest).
    + etransitivity; [apply new_prefix|exact Hext'].
    + constructor; [lia|]. eapply Forall_impl; [exact Hfresh|].
      intros r Hr. rewrite length_app in Hr. simpl in Hr. lia.
    + intros h'' Hext''. rewrite fmap_cons. apply mapM_Some. constructor.
      * apply Hview. etransitivity; eauto.
      * apply mapM_Some. now apply Hviews.
Qed.

Lemma overlap_set (u : User.t (list Skill.t)) (o : Opportunity.t (list Skill.t)) :
  Z.of_nat (List.length
    (filter (fun s => Skill.id s ∈ (list_to_set (skill_ids (User.skills u)) : gset string))
            (Opportunity.skills o)))
  = overlap u o.
Proof.
  unfold overlap. do 2 f_equal. apply list_filter_iff.
  intros s. apply elem_of_list_to_set.
Qed.

Lemma getMatches_found m (h : heap) st userId u :
  snapshot m h = Some st ->
  user_with_id userId (store_users st) = Some u ->
  ∃ r rs h',
    getMatches m (Some userId) h = (Ok r, h') ∧
    h `prefix_of` h' ∧
    (List.length h <= r)%nat ∧
    viewArray TOpportunity h' r = Some rs ∧
    Forall (fun l => (List.length h <= l)%nat) rs ∧
    viewOpportunities h' r
      = Some ((fun o => with_score (overlap u o) o) <$> store_opportunities st).
Proof.
  intros Hst Hu. destruct (snapshot_inv _ _ _ Hst) as (_ & Hop & Hus).
  destruct (viewUsers_inv _ _ _ Hus) as (us & Harr & Huvs).
  destruct (viewOpportunities_inv _ _ _ Hop) as (ols & Holarr & Hovs).
  destruct (findM_user h (Some userId) us _ Huvs) as (res & Hfind & Hres).
  destruct res as [ul|]; [|rewrite (Hres userId eq_refl) in Hu; discriminate].
  destruct Hres as (i & u' & [= <-] & Hul & Hu').
  rewrite Hu in Hu'. injection Hu' as <-.
  destruct (viewUser_inv _ _ _ Hul) as (x & Hcell & Hsk & _).
  destruct (viewSkills_inv _ _ _ Hsk) as (ss & Hssarr & Hss).
  destruct (mapM'_scores h (list_to_set (skill_ids (User.skills u))) ols _ Hovs h)
    as (rs & h' & Hloop & Hext & Hfresh & Hviews); [reflexivity|].
  exists (List.length h'), rs, (h' ++ [CArray TOpportunity rs]).
  assert (Hext' : h `prefix_of` h' ++ [CArray TOpportunity rs]).
  { etransitivity; [exact Hext|apply new_prefix]. }
  split; [|split; [|split; [|split; [|split]]]].
  - unfold getMatches.
    rewrite (bind_ok _ _ _ _ _ (elements_view _ _ _ _ Harr)).
    rewrite (bind_ok _ _ _ _ _ Hfind).
    rewrite (bind_ok _ _ _ _ _ (derefUser_cell _ _ _ Hcell)).
    rewrite (bind_ok _ _ _ _ _ (elements_view _ _ _ _ Hssarr)).
    rewrite (bind_ok _ _ _ _ _ (mapM'_skill_ids _ _ _ Hss)).
    cbv zeta.
    rewrite (bind_ok _ _ _ _ _ (elements_view _ _ _ _ Holarr)).
    now rewrite (bind_ok _ _ _ _ _ Hloop).
  - exact Hext'.
  - destruct Hext as [k ->]. rewrite length_app. lia.
  - apply new_array_view.
  - exact Hfresh.
  - unfold viewOpportunities. rewrite new_array_view. simpl.
    rewrite (Hviews _ (new_prefix h' _)). f_equal.
    apply list_fmap_ext. intros _ o _. now rewrite overlap_set.
Qed.

Lemma getMatches_none m (h : heap) st userId :
  snapshot m h = Some st ->
  (forall i, userId = Some i -> user_with_id i (store_users st) = None) ->
  getMatches m userId h = (Ok (List.length h), h ++ [CArray TOpportunity []]).
Proof.
  intros Hst Hnone. destruct (snapshot_inv _ _ _ Hst) as (_ & _ & Hus).
  destruct (viewUsers_inv _ _ _ Hus) as (us & Harr & Huvs).
  destruct (findM_user h userId us _ Huvs) as (res & Hfind & Hres).
  destruct res as [ul|].
  - destruct Hres as (i & u & Hi & _ & Hf). rewrite (Hnone i Hi) in Hf. discriminate.
  - unfold getMatches.
    rewrite (bind_ok _ _ _ _ _ (elements_view _ _ _ _ Harr)).
    now rewrite (bind_ok _ _ _ _ _ Hfind).
Qed.

(** ** Every shape of request body *)

Lemma includes_cases v :
  (∃ p, forall s, includes v s = Ok (p s)) ∨ (forall s, includes v s = Throw TypeError).
Proof.
  destruct v; try (right; reflexivity); left; eexists; intros x; reflexivity.
Qed.

Lemma get_cases body :
  (forall k, get body k = Throw TypeError) ∨ (forall k, ∃ v, get body k = Ok v).
Proof.
  destruct body; try (left; reflexivity); right; intros k; eexists; reflexivity.
Qed.

Lemma includes_ids ids s :
  includes (VArr (VStr <$> ids)) s = Ok (bool_decide (s ∈ ids)).
Proof.
  simpl. f_equal. induction ids as [|i ids IH]; simpl.
  - first [reflexivity | symmetry; apply bool_decide_eq_false_2, not_elem_of_nil].
  - change (list_fmap string value VStr ids) with (VStr <$> ids).
    rewrite IH. destruct (String.eqb_spec i s) as [->|Hne]; simpl.
    + symmetry. apply bool_decide_eq_true_2. left.
    + apply bool_decide_ext. rewrite elem_of_cons. intuition congruence.
Qed.

Lemma chooseSkills_cases m body (h : heap) cat :
  viewSkills h (skills m) = Some cat ->
  (∃ kept chosen,
      chooseSkills m body h = (Ok (List.length h), h ++ [CArray TSkill kept]) ∧
      mapM (viewSkill h) kept = Some chosen) ∨
  chooseSkills m body h = (Throw TypeError, h).
Proof.
  intros Hcat. destruct (includes_cases (selection body)) as [[p Hp]|Hthrow].
  - left. destruct (chooseSkills_ok m body h p cat Hp Hcat) as (kept & Hrun & Hk).
    eauto.
  - apply viewSkills_inv in Hcat as (ls & Harr & Hls).
    unfold chooseSkills. rewrite (bind_ok _ _ _ _ _ (elements_view _ _ _ _ Harr)).
    destruct ls as [|l ls].
    + left. exists [], []. split; reflexivity.
    + right. apply mapM_Some in Hls. inversion Hls as [|? s ? ? Hl _]; subst.
      apply bind_throw. now apply (filterM_skills_throw h _ _ l ls s).
Qed.

Lemma postOpp_cases P m body (h : heap) st :
  snapshot m h = Some st ->
  (∃ h' created,
      postOpp P m body h = (Ok (S (List.length h)), h') ∧
      Opportunity.matchScore created = None ∧
      snapshot m h' =
        Some {| store_skills := store_skills st;
                store_opportunities := created :: store_opportunities st;
                store_users := store_users st |}) ∨
  (∃ e h', postOpp P m body h = (Throw e, h') ∧ h `prefix_of` h').
Proof.
  intros Hst. destruct (snapshot_inv _ _ _ Hst) as (Hsk & _ & _).
  destruct (chooseSkills_cases m body h _ Hsk) as [(kept & chosen & Hrun & Hk)|Hthrow].
  - destruct (get_cases body) as [Hget|Hget].
    + right. exists TypeError, (h ++ [CArray TSkill kept]). split; [|apply new_prefix].
      unfold postOpp. rewrite (bind_ok _ _ _ _ _ Hrun).
      now apply bind_lift_throw.
    + left. destruct (Hget "title") as [t Ht], (Hget "description") as [d Hd].
      destruct (postOpp_chosen P m body h st kept chosen t d Hst Hrun Hk Ht Hd)
        as (h' & ls & Hpost & _ & _ & _ & Hsnap & _).
      exists h', (Opportunity.Build (uid P) t d (now P) chosen None). auto.
  - right. exists TypeError, h. split; [|reflexivity].
    unfold postOpp. now apply bind_throw.
Qed.

Lemma postUser_cases P m body (h : heap) st :
  snapshot m h = Some st ->
  (∃ h' created,
      postUser P m body h = (Ok (S (List.length h)), h') ∧
      snapshot m h' =
        Some {| store_skills := store_skills st;
                store_opportunities := store_opportunities st;
                store_users := store_users st ++ [created] |}) ∨
  (∃ e h', postUser P m body h = (Throw e, h') ∧ h `prefix_of` h').
Proof.
  intros Hst. destruct (snapshot_inv _ _ _ Hst) as (Hsk & _ & _).
  destruct (chooseSkills_cases m body h _ Hsk) as [(kept & chosen & Hrun & Hk)|Hthrow].
  - destruct (get_cases body) as [Hget|Hget].
    + right. exists TypeError, (h ++ [CArray TSkill kept]). split; [|apply new_prefix].
      unfold postUser. rewrite (bind_ok _ _ _ _ _ Hrun).
      now apply bind_lift_throw.
    + left. destruct (Hget "name") as [n Hn], (Hget "email") as [e He].
      destruct (postUser_chosen P m body h st kept chosen n e Hst Hrun Hk Hn He)
        as (h' & ls & Hpost & _ & _ & _ & Hsnap & _).
      exists h', (User.Build (uid P) n e chosen). auto.
  - right. exists TypeError, h. split; [|reflexivity].
    unfold postUser. now apply bind_throw.
Qed.

(** ** The store over a whole run *)

Lemma mock_init_ok b :
  ∃ m h0 st0,
    mock_init b [] = (Ok m, h0) ∧
    snapshot m h0 = Some st0 ∧
    store_skills st0 = seed_skills b ∧
    unscored st0.
Proof.
  eexists _, _, _. split; [reflexivity|]. split; [reflexivity|].
  split; [reflexivity|]. repeat constructor.
Qed.

Lemma grown_refl st : grown st st.
Proof.
  split; [reflexivity|]. split; [now exists []|].
  exists []. now rewrite app_nil_r.
Qed.

Lemma grown_trans st1 st2 st3 : grown st1 st2 -> grown st2 st3 -> grown st1 st3.
Proof.
  intros (Hs1 & [a1 Ho1] & [u1 Hu1]) (Hs2 & [a2 Ho2] & [u2 Hu2]).
  split; [congruence|]. split.
  - exists (a2 ++ a1). rewrite Ho2, Ho1. now rewrite app_assoc.
  - exists (u1 ++ u2). rewrite Hu2, Hu1. now rewrite app_assoc.
Qed.

(** One call, returning or throwing, from a well-formed store. *)
Lemma perform_step m r (h : heap) st :
  snapshot m h = Some st ->
  ∃ st', snapshot m (snd (perform m r h)) = Some st' ∧
         grown st st' ∧ (unscored st -> unscored st').
Proof.
  intros Hst. destruct r as [| |P body| |P body|userId]; simpl perform.
  - exists st. split; [exact Hst|]. split; [apply grown_refl|auto].
  - destruct (getOpps_view _ _ _ Hst) as (h' & -> & Hext & _). simpl.
    exists st. split; [eapply snapshot_mono; eauto|].
    split; [apply grown_refl|auto].
  - destruct (postOpp_cases P m body h st Hst)
      as [(h' & created & -> & Hnone & Hsnap)|(e & h' & -> & Hext)]; simpl.
    + eexists. split; [exact Hsnap|]. split.
      * split; [reflexivity|]. split; [now exists [created]|].
        exists []. simpl. now rewrite app_nil_r.
      * intros Hu. constructor; [exact Hnone|exact Hu].
    + exists st. split; [eapply snapshot_mono; eauto|].
      split; [apply grown_refl|auto].
  - exists st. split; [exact Hst|]. split; [apply grown_refl|auto].
  - destruct (postUser_cases P m body h st Hst)
      as [(h' & created & -> & Hsnap)|(e & h' & -> & Hext)]; simpl.
    + eexists. split; [exact Hsnap|]. split.
      * split; [reflexivity|]. split; [now exists []|]. now exists [created].
      * auto.
    + exists st. split; [eapply snapshot_mono; eauto|].
      split; [apply grown_refl|auto].
  - assert (Hext : h `prefix_of` (getMatches m userId h).2).
    { destruct userId as [i|].
      - destruct (user_with_id i (store_users st)) as [u|] eqn:Hu.
        + destruct (getMatches_found _ _ _ _ _ Hst Hu)
            as (r & rs & h' & -> & Hext & _). exact Hext.
        + rewrite (getMatches_none m h st (Some i) Hst); [apply new_prefix|].
          now intros ? [= <-].
      - rewrite (getMatches_none m h st None Hst); [apply new_prefix|].
        intros ? [=]. }
    exists st. split; [eapply snapshot_mono; eauto|].
    split; [apply grown_refl|auto].
Qed.

Lemma run_steps m rs (h : heap) st :
  snapshot m h = Some st ->
  ∃ st', snapshot m (run m rs h) = Some st' ∧
         grown st st' ∧ (unscored st -> unscored st').
Proof.
  revert h st. induction rs as [|r rs IH]; intros h st Hst.
  - exists st. split; [exact Hst|]. split; [apply grown_refl|auto].
  - destruct (perform_step m r h st Hst) as (st1 & Hst1 & Hg1 & Hu1).
    destruct (IH _ _ Hst1) as (st2 & Hst2 & Hg2 & Hu2).
    exists st2. split; [exact Hst2|]. split; [eapply grown_trans; eauto|auto].
Qed.

Lemma reachable_store b m (h : heap) :
  reachable b m h ->
  ∃ st, snapshot m h = Some st ∧ store_skills st = seed_skills b ∧ unscored st.
Proof.
  intros (rs & h0 & Hinit & ->).
  destruct (mock_init_ok b) as (m' & h0' & st0 & Hinit' & Hst0 & Hsk & Hun).
  rewrite Hinit in Hinit'. injection Hinit' as <- <-.
  destruct (run_steps m rs h0 st0 Hst0) as (st & Hst & (Hs & _) & Hu).
  exists st. split; [exact Hst|]. split; [congruence|auto].
Qed.

(** ** Finding a user by id *)

Lemma user_with_id_Some userId (us : list (User.t (list Skill.t))) :
  userId ∈ (User.id <$> us) ->
  ∃ u, user_with_id userId us = Some u ∧ User.id u = userId ∧ u ∈ us.
Proof.
  induction us as [|x us IH]; simpl; intros Hin.
  - now apply elem_of_nil in Hin.
  - unfold user_with_id. simpl.
    destruct (String.eqb_spec (User.id x) userId) as [Heq|Hne].
    + exists x. split; [reflexivity|]. split; [exact Heq|left].
    + apply elem_of_cons in Hin as [Hin|Hin]; [congruence|].
      destruct (IH Hin) as (u & Hu & Hid & Hmem).
      exists u. split; [exact Hu|]. split; [exact Hid|now right].
Qed.

Lemma user_with_id_None userId (us : list (User.t (list Skill.t))) :
  userId ∉ (User.id <$> us) -> user_with_id userId us = None.
Proof.
  induction us as [|x us IH]; simpl; intros Hin; [reflexivity|].
  unfold user_with_id. simpl.
  destruct (String.eqb_spec (User.id x) userId) as [Heq|Hne].
  - destruct Hin. rewrite Heq. left.
  - apply IH. intros H. apply Hin. now right.
Qed.

Lemma overlap_ids (u : User.t (list Skill.t)) (o : Opportunity.t (list Skill.t)) :
  overlap u o
  = Z.of_nat (List.length
      (filter (fun i => i ∈ skill_ids (User.skills u))
              (skill_ids (Opportunity.skills o)))).
Proof.
  unfold overlap. f_equal. generalize (skill_ids (User.skills u)) as ids. intros ids.
  induction (Opportunity.skills o) as [|s ss IH]; [reflexivity|].
  unfold skill_ids in *. rewrite fmap_cons, !filter_cons.
  destruct (decide (Skill.id s ∈ ids)); simpl; now rewrite IH.
Qed.

(** ** The example stores *)

Lemma example_snapshot : snapshot example_mock example_heap = Some example_store.
Proof. vm_compute. reflexivity. Qed.

Lemma example_boots : mock_init example_boot [] = (Ok example_mock, example_heap).
Proof. vm_compute. reflexivity. Qed.

Lemma abc_snapshot : snapshot abc_mock abc_heap = Some abc_store.
Proof. vm_compute. reflexivity. Qed.

(** * The claims *)

(** C1.  For every id of an existing user, [getMatches] returns one entry
    per opportunity of the store, in the order of the store (not sorted
    again by recency or by score); an entry is the opportunity with, as
    [matchScore], the number of its skills whose id is among the skill ids
    of the user; opportunities of score 0 are kept.  In particular, for a
    user with skills A and B and opportunities asking for [A], [C] and
    [A, B], in that order, the scores are 1, 0, 2, in that order. *)
Theorem getMatches_scores_every_opportunity m (h : heap) st userId :
  snapshot m h = Some st ->
  existing_user_id userId st ->
  ∃ u r h',
    user_with_id userId (store_users st) = Some u ∧
    User.id u = userId ∧
    getMatches m (Some userId) h = (Ok r, h') ∧
    viewOpportunities h' r = Some (matches_of u st) ∧
    (forall a b c, c ≠ a -> c ≠ b ->
       skill_ids (User.skills u) = [a; b] ->
       (fun o => skill_ids (Opportunity.skills o)) <$> store_opportunities st
         = [[a]; [c]; [a; b]] ->
       Opportunity.matchScore <$> matches_of u st = [Some 1; Some 0; Some 2]).
Proof.
  intros Hst Hin.
  destruct (user_with_id_Some userId _ Hin) as (u & Hu & Hid & _).
  destruct (getMatches_found m h st userId u Hst Hu)
    as (r & rs & h' & Hrun & _ & _ & _ & _ & Hview).
  exists u, r, h'. repeat (split; [assumption|]).
  intros a b c Hca Hcb Hab Hos. unfold matches_of.
  destruct (store_opportunities st) as [|o1 [|o2 [|o3 [|? ?]]]]; try discriminate.
  injection Hos as H1 H2 H3. simpl.
  rewrite !overlap_ids, Hab, H1, H2, H3.
  rewrite !filter_cons, !filter_nil.
  assert (Ha : a ∈ [a; b]) by left.
  assert (Hb : b ∈ [a; b]) by (right; left).
  assert (Hc : c ∉ [a; b]).
  { rewrite !elem_of_cons, elem_of_nil. tauto. }
  destruct (decide (a ∈ [a; b])); [|contradiction].
  destruct (decide (b ∈ [a; b])); [|contradiction].
  destruct (decide (c ∈ [a; b])); [contradiction|]. reflexivity.
Qed.

Lemma getMatches_scores_every_opportunity_witness :
  ∃ u r h',
    user_with_id "u1" (store_users abc_store) = Some u ∧
    User.id u = "u1" ∧
    getMatches abc_mock (Some "u1") abc_heap = (Ok r, h') ∧
    viewOpportunities h' r = Some (matches_of u abc_store) ∧
    Opportunity.matchScore <$> matches_of u abc_store = [Some 1; Some 0; Some 2].
Proof.
  destruct (getMatches_scores_every_opportunity abc_mock abc_heap abc_store "u1"
              abc_snapshot)
    as (u & r & h' & Hu & Hid & Hrun & Hview & Hex).
  - vm_compute. left.
  - exists u, r, h'. repeat (split; [assumption|]).
    injection Hu as <-.
    apply (Hex "A" "B" "C"); [discriminate|discriminate|reflexivity|reflexivity].
Defined.

(** C2.  For every user id that matches no user of the store,
    [getMatches] returns an empty array; it does not throw. *)
Theorem getMatches_unknown_user_empty m (h : heap) st userId :
  snapshot m h = Some st ->
  ¬ existing_user_id userId st ->
  ∃ r h', getMatches m (Some userId) h = (Ok r, h') ∧
          viewOpportunities h' r = Some [].
Proof.
  intros Hst Hnot. exists (List.length h), (h ++ [CArray TOpportunity []]).
  split.
  - apply (getMatches_none m h st (Some userId) Hst).
    intros i [= <-]. now apply user_with_id_None.
  - unfold viewOpportunities. now rewrite new_array_view.
Qed.

Lemma getMatches_unknown_user_empty_witness :
  ∃ r h', getMatches example_mock (Some "unknown-id") example_heap = (Ok r, h') ∧
          viewOpportunities h' r = Some [].
Proof.
  apply (getMatches_unknown_user_empty example_mock example_heap example_store
           "unknown-id" example_snapshot).
  vm_compute. intros H.
  repeat (apply elem_of_cons in H as [H|H]; [discriminate|]).
  now apply elem_of_nil in H.
Defined.

Lemma selection_selects body ids :
  selects body ids -> selection body = VArr (VStr <$> ids).
Proof. intros (fields & -> & Hf). unfold selection. simpl. now rewrite Hf. Qed.

Lemma selection_selects_nothing body :
  selects_nothing body -> selection body = VArr [].
Proof.
  intros (fields & -> & [Hf|Hf]); unfold selection; simpl; now rewrite Hf.
Qed.

Lemma selects_get body ids k : selects body ids -> ∃ v, get body k = Ok v.
Proof. intros (fields & -> & _). simpl. eauto. Qed.

Lemma selects_nothing_get body k : selects_nothing body -> ∃ v, get body k = Ok v.
Proof. intros (fields & -> & _). simpl. eauto. Qed.

Lemma chooseSkills_selects m body (h : heap) cat ids :
  selects body ids ->
  viewSkills h (skills m) = Some cat ->
  ∃ kept,
    chooseSkills m body h = (Ok (List.length h), h ++ [CArray TSkill kept]) ∧
    mapM (viewSkill h) kept = Some (catalog_filter ids cat).
Proof.
  intros Hsel Hcat.
  destruct (chooseSkills_ok m body h (fun s => bool_decide (s ∈ ids)) cat)
    as (kept & Hrun & Hkept); [|exact Hcat|].
  - intros s. rewrite (selection_selects _ _ Hsel). apply includes_ids.
  - exists kept. split; [exact Hrun|]. rewrite Hkept. f_equal.
    apply list_filter_iff. intros s. apply bool_decide_spec.
Qed.

Lemma chooseSkills_selects_nothing m body (h : heap) cat :
  selects_nothing body ->
  viewSkills h (skills m) = Some cat ->
  ∃ kept,
    chooseSkills m body h = (Ok (List.length h), h ++ [CArray TSkill kept]) ∧
    mapM (viewSkill h) kept = Some [].
Proof.
  intros Hsel Hcat.
  destruct (chooseSkills_ok m body h (fun _ => false) cat)
    as (kept & Hrun & Hkept); [|exact Hcat|].
  - intros s. now rewrite (selection_selects_nothing _ Hsel).
  - exists kept. split; [exact Hrun|]. rewrite Hkept. f_equal.
    clear. induction cat as [|s cat IH]; [reflexivity|].
    rewrite filter_cons. destruct (decide _) as [[]|]. exact IH.
Qed.

Lemma catalog_filter_nil cat : catalog_filter [] cat = [].
Proof.
  unfold catalog_filter. induction cat as [|s cat IH]; [reflexivity|].
  rewrite filter_cons. destruct (decide _) as [Hin|]; [|exact IH].
  now apply elem_of_nil in Hin.
Qed.

(** C3.  For every list of skill ids passed to [postOpp] or [postUser],
    the [skills] of the created record are the skill catalog filtered to
    the ids that appear in the list, in catalog order whatever the order
    of the list; ids that are not in the catalog are dropped without an
    error; with an empty list the creation succeeds with no skills. *)
Theorem created_skills_follow_catalog P m (h : heap) st body ids :
  snapshot m h = Some st ->
  selects body ids ->
  (∃ r h' o,
      postOpp P m body h = (Ok r, h') ∧
      viewOpportunity h' r = Some o ∧
      Opportunity.skills o = catalog_filter ids (store_skills st) ∧
      (ids = [] -> Opportunity.skills o = [])) ∧
  (∃ r h' u,
      postUser P m body h = (Ok r, h') ∧
      viewUser h' r = Some u ∧
      User.skills u = catalog_filter ids (store_skills st) ∧
      (ids = [] -> User.skills u = [])).
Proof.
  intros Hst Hsel. destruct (snapshot_inv _ _ _ Hst) as (Hsk & _ & _).
  destruct (chooseSkills_selects m body h _ ids Hsel Hsk) as (kept & Hrun & Hkept).
  split.
  - destruct (selects_get body ids "title" Hsel) as [t Ht].
    destruct (selects_get body ids "description" Hsel) as [d Hd].
    destruct (postOpp_chosen P m body h st kept _ t d Hst Hrun Hkept Ht Hd)
      as (h' & ls & Hpost & Hview & _).
    eexists _, h', _. split; [exact Hpost|]. split; [exact Hview|].
    split; [reflexivity|]. intros ->. apply catalog_filter_nil.
  - destruct (selects_get body ids "name" Hsel) as [n Hn].
    destruct (selects_get body ids "email" Hsel) as [e He].
    destruct (postUser_chosen P m body h st kept _ n e Hst Hrun Hkept Hn He)
      as (h' & ls & Hpost & Hview & _).
    eexists _, h', _. split; [exact Hpost|]. split; [exact Hview|].
    split; [reflexivity|]. intros ->. apply catalog_filter_nil.
Qed.

Lemma created_skills_follow_catalog_witness :
  let P := example_platform "new-id" "2024-05-01T13:00:00.000Z" in
  let ids := ["skill-I"; "no-such-skill"; "skill-A"] in
  catalog_filter ids (store_skills example_store)
    = [Skill.Build "skill-A" "JavaScript"; Skill.Build "skill-I" "CI/CD"] ∧
  (∃ r h' o,
      postOpp P example_mock (opportunity_body "T" "D" ids) example_heap = (Ok r, h') ∧
      viewOpportunity h' r = Some o ∧
      Opportunity.skills o = catalog_filter ids (store_skills example_store) ∧
      (ids = [] -> Opportunity.skills o = [])) ∧
  (∃ r h' u,
      postUser P example_mock (opportunity_body "T" "D" ids) example_heap = (Ok r, h') ∧
      viewUser h' r = Some u ∧
      User.skills u = catalog_filter ids (store_skills example_store) ∧
      (ids = [] -> User.skills u = [])).
Proof.
  intros P ids. split; [vm_compute; reflexivity|].
  apply created_skills_follow_catalog; [exact example_snapshot|].
  eexists. split; reflexivity.
Defined.

Lemma viewOpportunity_lt (h : heap) l o :
  viewOpportunity h l = Some o -> (l < List.length h)%nat.
Proof.
  intros H. destruct (viewOpportunity_inv _ _ _ H) as (c & Hc & _).
  eapply lookup_lt_Some; eauto.
Qed.

Lemma viewUser_lt (h : heap) l u :
  viewUser h l = Some u -> (l < List.length h)%nat.
Proof.
  intros H. destruct (viewUser_inv _ _ _ H) as (c & Hc & _).
  eapply lookup_lt_Some; eauto.
Qed.

Lemma mapM_lt {A} (f : loc -> option A) (n : nat) ls vs :
  (forall l v, f l = Some v -> (l < n)%nat) ->
  mapM f ls = Some vs -> Forall (fun l => (l < n)%nat) ls.
Proof.
  intros Hf. rewrite mapM_Some. induction 1; constructor; eauto.
Qed.

Lemma fresh_not_in (n : nat) ls : Forall (fun l => (l < n)%nat) ls -> S n ∉ ls.
Proof.
  intros Hall Hin. rewrite Forall_forall in Hall. apply Hall in Hin. lia.
Qed.

(** C5.  [postOpp] gives the new record the id that [uid()] returned and
    the timestamp read during the call, puts it at the front of the
    opportunity collection and returns it: the reference returned is a
    new one, and it is the first element of the stored array, before the
    former elements.  [postUser] puts the new record at the end of the
    user collection and returns it. *)
Theorem creation_inserts_and_returns P m (h : heap) st body ids :
  snapshot m h = Some st ->
  selects body ids ->
  (∃ r h' o ls,
      postOpp P m body h = (Ok r, h') ∧
      viewOpportunity h' r = Some o ∧
      Opportunity.id o = uid P ∧
      Opportunity.createdAt o = now P ∧
      viewArray TOpportunity h (opportunities m) = Some ls ∧
      (r ∉ ls) ∧
      viewArray TOpportunity h' (opportunities m) = Some (r :: ls) ∧
      snapshot m h' =
        Some {| store_skills := store_skills st;
                store_opportunities := o :: store_opportunities st;
                store_users := store_users st |}) ∧
  (∃ r h' u ls,
      postUser P m body h = (Ok r, h') ∧
      viewUser h' r = Some u ∧
      User.id u = uid P ∧
      viewArray TUser h (users m) = Some ls ∧
      (r ∉ ls) ∧
      viewArray TUser h' (users m) = Some (ls ++ [r]) ∧
      snapshot m h' =
        Some {| store_skills := store_skills st;
                store_opportunities := store_opportunities st;
                store_users := store_users st ++ [u] |}).
Proof.
  intros Hst Hsel. destruct (snapshot_inv _ _ _ Hst) as (Hsk & Hop & Hus).
  destruct (chooseSkills_selects m body h _ ids Hsel Hsk) as (kept & Hrun & Hkept).
  split.
  - destruct (selects_get body ids "title" Hsel) as [t Ht].
    destruct (selects_get body ids "description" Hsel) as [d Hd].
    destruct (postOpp_chosen P m body h st kept _ t d Hst Hrun Hkept Ht Hd)
      as (h' & ls & Hpost & Hview & Hbefore & Hafter & Hsnap & _).
    eexists _, h', _, ls. split; [exact Hpost|]. split; [exact Hview|].
    repeat (split; [reflexivity|]). split; [exact Hbefore|].
    split; [|split; [exact Hafter|exact Hsnap]].
    apply fresh_not_in. apply viewOpportunities_inv in Hop as (ls' & Hls' & Hm).
    rewrite Hbefore in Hls'. injection Hls' as <-.
    eapply mapM_lt; [|exact Hm]. apply viewOpportunity_lt.
  - destruct (selects_get body ids "name" Hsel) as [n Hn].
    destruct (selects_get body ids "email" Hsel) as [e He].
    destruct (postUser_chosen P m body h st kept _ n e Hst Hrun Hkept Hn He)
      as (h' & ls & Hpost & Hview & Hbefore & Hafter & Hsnap & _).
    eexists _, h', _, ls. split; [exact Hpost|]. split; [exact Hview|].
    split; [reflexivity|]. split; [exact Hbefore|].
    split; [|split; [exact Hafter|exact Hsnap]].
    apply fresh_not_in. apply viewUsers_inv in Hus as (ls' & Hls' & Hm).
    rewrite Hbefore in Hls'. injection Hls' as <-.
    eapply mapM_lt; [|exact Hm]. apply viewUser_lt.
Qed.

Lemma creation_inserts_and_returns_witness :
  let P := example_platform "new-id" "2024-05-01T13:00:00.000Z" in
  (∃ r h' o,
      postOpp P example_mock (opportunity_body "T" "D" ["skill-C"]) example_heap
        = (Ok r, h') ∧
      viewOpportunity h' r = Some o ∧
      Opportunity.id o = "new-id" ∧
      Opportunity.createdAt o = "2024-05-01T13:00:00.000Z" ∧
      viewArray TOpportunity h' (opportunities example_mock)
        = Some [r; 11; 13; 15]%nat) ∧
  (∃ r h' u,
      postUser P example_mock (user_body "N" "E" ["skill-C"]) example_heap
        = (Ok r, h') ∧
      viewUser h' r = Some u ∧
      User.id u = "new-id" ∧
      viewArray TUser h' (users example_mock) = Some [18; 20; r]%nat).
Proof.
  intros P. pose proof example_snapshot as Hst.
  split.
  - destruct (creation_inserts_and_returns P example_mock example_heap _
                (opportunity_body "T" "D" ["skill-C"]) ["skill-C"] Hst)
      as [(r & h' & o & ls & Hpost & Hview & Hid & Hat & Hbefore & _ & Hafter & _) _].
    { eexists. split; reflexivity. }
    exists r, h', o. repeat (split; [assumption|]).
    vm_compute in Hbefore. injection Hbefore as <-. exact Hafter.
  - destruct (creation_inserts_and_returns P example_mock example_heap _
                (user_body "N" "E" ["skill-C"]) ["skill-C"] Hst)
      as [_ (r & h' & u & ls & Hpost & Hview & Hid & Hbefore & _ & Hafter & _)].
    { eexists. split; reflexivity. }
    exists r, h', u. repeat (split; [assumption|]).
    vm_compute in Hbefore. injection Hbefore as <-. exact Hafter.
Defined.

Lemma postOpp_selects P m body ids (h : heap) st ls :
  snapshot m h = Some st ->
  selects body ids ->
  viewArray TOpportunity h (opportunities m) = Some ls ->
  ∃ h' o,
    postOpp P m body h = (Ok (S (List.length h)), h') ∧
    viewOpportunity h' (S (List.length h)) = Some o ∧
    Opportunity.createdAt o = now P ∧
    viewArray TOpportunity h' (opportunities m) = Some (S (List.length h) :: ls) ∧
    snapshot m h' =
      Some {| store_skills := store_skills st;
              store_opportunities := o :: store_opportunities st;
              store_users := store_users st |}.
Proof.
  intros Hst Hsel Harr. destruct (snapshot_inv _ _ _ Hst) as (Hsk & _ & _).
  destruct (chooseSkills_selects m body h _ ids Hsel Hsk) as (kept & Hrun & Hkept).
  destruct (selects_get body ids "title" Hsel) as [t Ht].
  destruct (selects_get body ids "description" Hsel) as [d Hd].
  destruct (postOpp_chosen P m body h st kept _ t d Hst Hrun Hkept Ht Hd)
    as (h' & ls' & Hpost & Hview & Hbefore & Hafter & Hsnap & _).
  rewrite Harr in Hbefore. injection Hbefore as <-.
  eexists h', _. split; [exact Hpost|]. split; [exact Hview|].
  split; [reflexivity|]. split; [exact Hafter|exact Hsnap].
Qed.

Lemma pairs_none_later (h : heap) (ps : list (loc * Opportunity.t loc)) ovs t :
  Forall2 (fun p ov => viewOpportunity h (fst p) = Some ov ∧
                       Opportunity.createdAt (snd p) = Opportunity.createdAt ov)
          ps ovs ->
  Forall (fun o => not_later (Opportunity.createdAt o) t) ovs ->
  Forall (fun p => not_later (Opportunity.createdAt (snd p)) t) ps.
Proof.
  induction 1 as [|p ov ps ovs [_ Hp] _ IH]; intros Hall; [constructor|].
  inversion Hall; subst. constructor; [now rewrite Hp|auto].
Qed.

(** C4.  [getOpps] returns all the opportunities, sorted by [createdAt]
    from the newest to the oldest; opportunities with the same timestamp
    keep the order they have in the collection.  After two creations in
    sequence, read on a clock that does not run backwards, the listing
    starts with the record created last, followed by the one created
    before it. *)
Theorem getOpps_newest_first m (h : heap) st :
  snapshot m h = Some st ->
  (∃ r h' listing,
      getOpps m h = (Ok r, h') ∧
      viewOpportunities h' r = Some listing ∧
      listing ≡ₚ store_opportunities st ∧
      newest_to_oldest listing ∧
      (forall t, stamped t listing = stamped t (store_opportunities st))) ∧
  (forall P1 P2 body1 body2 ids1 ids2,
      selects body1 ids1 -> selects body2 ids2 ->
      none_later (now P1) st ->
      not_later (now P1) (now P2) ->
      ∃ r1 h1 r2 h2 r h3 o1 o2 older,
        postOpp P1 m body1 h = (Ok r1, h1) ∧
        postOpp P2 m body2 h1 = (Ok r2, h2) ∧
        getOpps m h2 = (Ok r, h3) ∧
        viewOpportunity h3 r1 = Some o1 ∧
        viewOpportunity h3 r2 = Some o2 ∧
        viewArray TOpportunity h3 r = Some (r2 :: r1 :: older) ∧
        viewOpportunities h3 r
          = Some (o2 :: o1 :: sort newest_first (store_opportunities st))).
Proof.
  intros Hst. split.
  - destruct (getOpps_view m h st Hst) as (h' & Hrun & _ & Hview).
    eexists _, h', _. split; [exact Hrun|]. split; [exact Hview|].
    split; [apply sort_perm|]. split.
    + apply (sort_sorted newest_first). intros x y. apply newest_first_antisym.
    + intros t. apply sort_stable. intros x y Hx Hy. unfold newest_first.
      rewrite Hx, Hy, localeCompare_refl. lia.
  - intros P1 P2 body1 body2 ids1 ids2 Hsel1 Hsel2 Hold Hclock.
    destruct (snapshot_inv _ _ _ Hst) as (_ & Hop & _).
    destruct (viewOpportunities_inv _ _ _ Hop) as (ls & Harr & _).
    destruct (postOpp_selects P1 m body1 ids1 h st ls Hst Hsel1 Harr)
      as (h1 & o1 & Hpost1 & _ & Hat1 & Harr1 & Hst1).
    destruct (postOpp_selects P2 m body2 ids2 h1 _ _ Hst1 Hsel2 Harr1)
      as (h2 & o2 & Hpost2 & _ & Hat2 & Harr2 & Hst2).
    set (r1 := S (List.length h)) in *. set (r2 := S (List.length h1)) in *.
    destruct (getOpps_refs m h2 _ _ Hst2 Harr2) as (ps & Hfst & Hps & Hrun).
    destruct (getOpps_view m h2 _ Hst2) as (h3 & Hrun' & Hext & Hview).
    simpl store_opportunities in *.
    destruct ps as [|p2 [|p1 ps]]; try discriminate.
    injection Hfst as Hp2 Hp1 Hrest.
    inversion Hps as [|? ? ? ? [Hv2 Hc2] Hps1]; subst.
    inversion Hps1 as [|? ? ? ? [Hv1 Hc1] Hps0]; subst.
    assert (Hold1 : Forall (fun o => not_later (Opportunity.createdAt o) (now P1))
                      (store_opportunities st)) by exact Hold.
    assert (Hold2 : Forall (fun o => not_later (Opportunity.createdAt o) (now P2))
                      (store_opportunities st)).
    { eapply Forall_impl; [exact Hold1|]. intros o Ho.
      exact (not_later_trans _ _ _ Ho Hclock). }
    rewrite Hrun in Hrun'. injection Hrun' as <-.
    exists r1, h1, r2, h2, (List.length h2). eexists _, o1, o2, _.
    split; [exact Hpost1|]. split; [exact Hpost2|]. split; [exact Hrun|].
    split; [eapply viewOpportunity_mono; [apply new_prefix|]; now rewrite <- Hp1|].
    split; [eapply viewOpportunity_mono; [apply new_prefix|]; now rewrite <- Hp2|].
    split.
    + rewrite new_array_view. f_equal.
      rewrite sort_head.
      2:{ constructor.
          - unfold newest_first. rewrite Hc2, Hc1, Hat2, Hat1. exact Hclock.
          - eapply Forall_impl; [exact (pairs_none_later _ _ _ _ Hps0 Hold2)|].
            intros p Hp. unfold newest_first. rewrite Hc2, Hat2. exact Hp. }
      rewrite sort_head.
      2:{ eapply Forall_impl; [exact (pairs_none_later _ _ _ _ Hps0 Hold1)|].
          intros p Hp. unfold newest_first. rewrite Hc1, Hat1. exact Hp. }
      rewrite !fmap_cons, Hp2, Hp1. reflexivity.
    + refine (eq_trans Hview _). f_equal.
      rewrite sort_head.
      2:{ constructor.
          - unfold newest_first. rewrite Hat2, Hat1. exact Hclock.
          - eapply Forall_impl; [exact Hold2|].
            intros o Ho. unfold newest_first. rewrite Hat2. exact Ho. }
      rewrite sort_head; [reflexivity|].
      eapply Forall_impl; [exact Hold1|].
      intros o Ho. unfold newest_first. rewrite Hat1. exact Ho.
Qed.

Lemma getOpps_newest_first_witness :
  let P1 := example_platform "first" "2024-05-01T13:00:00.000Z" in
  let P2 := example_platform "second" "2024-05-01T13:00:00.000Z" in
  let body := opportunity_body "T" "D" [] in
  none_later (now P1) example_store ∧
  not_later (now P1) (now P2) ∧
  (∃ r h' listing,
      getOpps example_mock example_heap = (Ok r, h') ∧
      viewOpportunities h' r = Some listing ∧
      listing ≡ₚ store_opportunities example_store ∧
      newest_to_oldest listing ∧
      (forall t, stamped t listing = stamped t (store_opportunities example_store))) ∧
  (∃ r1 h1 r2 h2 r h3 o1 o2 older,
      postOpp P1 example_mock body example_heap = (Ok r1, h1) ∧
      postOpp P2 example_mock body h1 = (Ok r2, h2) ∧
      getOpps example_mock h2 = (Ok r, h3) ∧
      viewOpportunity h3 r1 = Some o1 ∧
      viewOpportunity h3 r2 = Some o2 ∧
      viewArray TOpportunity h3 r = Some (r2 :: r1 :: older) ∧
      viewOpportunities h3 r
        = Some (o2 :: o1 :: sort newest_first (store_opportunities example_store))).
Proof.
  intros P1 P2 body.
  assert (Hold : none_later (now P1) example_store).
  { repeat constructor; vm_compute; discriminate. }
  assert (Hclock : not_later (now P1) (now P2)) by (vm_compute; discriminate).
  split; [exact Hold|]. split; [exact Hclock|].
  destruct (getOpps_newest_first example_mock example_heap example_store
              example_snapshot) as [Hlist Hnew].
  split; [exact Hlist|].
  apply (Hnew P1 P2 body body [] []); try assumption;
    eexists; split; reflexivity.
Defined.

(** C7.  In live mode, when the response does not have a success status
    the call fails with an [Error] whose message is the text of the
    response body; when it has a success status the call returns the
    body parsed as JSON. *)
Theorem live_call_follows_response cfg P m path options (h : heap) r :
  USE_MOCK cfg = false ->
  fetch P (API_URL cfg +:+ path) (fetch_init options) = Ok r ->
  (ok r = false -> forall t, text r = Ok t ->
     api cfg P m path options h = (Throw (Error t), h)) ∧
  (ok r = true -> forall v, json r = Ok v ->
     api cfg P m path options h = (Ok (Json v), h)).
Proof.
  intros Hlive Hfetch. unfold api. rewrite Hlive.
  rewrite (bind_lift_ok _ _ _ _ Hfetch). split; intros Hok x Hx; rewrite Hok; simpl.
  - now rewrite (bind_lift_ok _ _ _ _ Hx).
  - now rewrite (bind_lift_ok _ _ _ _ Hx).
Qed.

Lemma live_call_follows_response_witness :
  api (live_mode "http://localhost:5000") (answering not_found) example_mock
      "/api/skills" None example_heap
    = (Throw (Error "Not Found"), example_heap) ∧
  api (live_mode "http://localhost:5000") (answering two_hundred) example_mock
      "/api/skills" None example_heap
    = (Ok (Json (VArr [])), example_heap).
Proof.
  split.
  - apply (live_call_follows_response (live_mode "http://localhost:5000")
             (answering not_found) example_mock "/api/skills" None example_heap
             not_found eq_refl eq_refl);
      reflexivity.
  - apply (live_call_follows_response (live_mode "http://localhost:5000")
             (answering two_hundred) example_mock "/api/skills" None example_heap
             two_hundred eq_refl eq_refl);
      reflexivity.
Defined.

(** ** Routing *)

Lemma length_append (a b : string) :
  String.length (a +:+ b) = (String.length a + String.length b)%nat.
Proof. induction a as [|c a IH]; simpl; [reflexivity|now rewrite IH]. Qed.

Lemma not_in_pairs (method path : string) :
  (method, path) ∈ route_table ->
  (method = "GET" ∨ method = "POST") ∧
  (path = "/api/skills" ∨ path = "/api/opportunities" ∨ path = "/api/users").
Proof.
  unfold route_table. rewrite !elem_of_cons, elem_of_nil.
  intros [H|[H|[H|[H|[H|[]]]]]]; injection H as -> ->; tauto.
Qed.

(** In mock mode [api] does nothing to the store but one call of the
    mock: the runs of [run] cover what the application does through
    [api]. *)
Lemma api_mock_is_a_call cfg P m path options (h : heap) :
  USE_MOCK cfg = true ->
  snd (api cfg P m path options h) = h ∨
  ∃ r, snd (api cfg P m path options h) = snd (perform m r h).
Proof.
  intros Hmock. unfold api. rewrite Hmock.
  assert (Hby : forall c : M loc, snd (by_ref c h) = snd (c h)).
  { intros c. unfold by_ref, bind. now destruct (c h) as [[l|e] h']. }
  destruct (request_body P options) as [body|e]; [|now left].
  rewrite (bind_lift_ok _ _ _ body eq_refl).
  repeat match goal with
         | |- context [if ?b then _ else _] => destruct b
         end.
  - right. rewrite Hby. now exists GetSkills.
  - right. rewrite Hby. now exists GetOpps.
  - right. rewrite Hby. now exists (PostOpp P body).
  - right. rewrite Hby. now exists GetUsers.
  - right. rewrite Hby. now exists (PostUser P body).
  - right. rewrite Hby. now exists (GetMatches (split "/" path !! 3%nat)).
  - now left.
Qed.

(** C6 as stated fails: with a request that is not in the route table
    the call can succeed (the matches route is recognised by the start
    and the end of the path, and the method is upper-cased before it is
    compared), and it can fail with another error (the body is parsed
    before the route is looked up). *)
Lemma requests_outside_the_table :
  let P := example_platform "id" "2024-05-01T13:00:00.000Z" in
  (¬ in_route_table "GET" "/api/users/matches" ∧
   fst (api mock_mode P example_mock "/api/users/matches" None example_heap)
     = Ok (Ref 22%nat)) ∧
  (¬ in_route_table "get" "/api/skills" ∧
   fst (api mock_mode P example_mock "/api/skills"
          (Some {| method := Some "get"; headers := None; body := None |})
          example_heap)
     = Ok (Ref 9%nat)) ∧
  (¬ in_route_table "POST" "/api/unknown" ∧
   fst (api mock_mode P example_mock "/api/unknown"
          (Some {| method := Some "POST"; headers := None; body := Some "{" |})
          example_heap)
     = Throw SyntaxError).
Proof.
  intros P. repeat split; try (vm_compute; reflexivity).
  - intros [Hin|[_ [id Hid]]].
    + apply not_in_pairs in Hin as [_ [H|[H|H]]]; discriminate.
    + simpl in Hid. injection Hid as Hid. apply (f_equal String.length) in Hid.
      rewrite !length_append in Hid. simpl in Hid. lia.
  - intros [Hin|[Hm _]]; [|discriminate].
    apply not_in_pairs in Hin as [[H|H] _]; discriminate.
  - intros [Hin|[Hm _]]; [|discriminate].
    apply not_in_pairs in Hin as [_ [H|[H|H]]]; discriminate.
Qed.

(** C6, amended.  In mock mode the call upper-cases the method (GET when
    there is none) and parses the body when there is one.  When the body
    is absent or parses, a request that passes none of the tests of the
    router (five method and path pairs compared literally, and GET with a
    path that starts with /api/users/ and ends with /matches) fails with
    the error "Mock route not implemented: METHOD path"; the store is
    left as it was and the network is not used. *)
Theorem mock_unrouted_request_fails cfg P m path options (h : heap) body :
  USE_MOCK cfg = true ->
  request_body P options = Ok body ->
  routed (request_method options) path = false ->
  api cfg P m path options h
    = (Throw (not_implemented (request_method options) path), h).
Proof.
  intros Hmock Hbody Hroute. unfold api. rewrite Hmock.
  rewrite (bind_lift_ok _ _ _ _ Hbody).
  unfold routed in Hroute. rewrite !orb_false_iff in Hroute.
  destruct Hroute as (((((H1 & H2) & H3) & H4) & H5) & H6).
  now rewrite H1, H2, H3, H4, H5, H6.
Qed.

Lemma mock_unrouted_request_fails_witness :
  api mock_mode (example_platform "id" "2024-05-01T13:00:00.000Z") example_mock
      "/api/unknown" (Some post_without_body) example_heap
    = (Throw (Error "Mock route not implemented: POST /api/unknown"), example_heap).
Proof.
  apply (mock_unrouted_request_fails mock_mode
           (example_platform "id" "2024-05-01T13:00:00.000Z") example_mock
           "/api/unknown" (Some post_without_body) example_heap VUndefined);
    reflexivity.
Defined.

(** ** The reads only allocate *)

Lemma getMatches_frame m (h : heap) st userId :
  snapshot m h = Some st ->
  ∃ r rs h',
    getMatches m userId h = (Ok r, h') ∧
    h `prefix_of` h' ∧
    (List.length h <= r)%nat ∧
    viewArray TOpportunity h' r = Some rs ∧
    Forall (fun l => (List.length h <= l)%nat) rs.
Proof.
  intros Hst.
  assert (Hnone : (forall i, userId = Some i -> user_with_id i (store_users st) = None) ->
    ∃ r rs h',
      getMatches m userId h = (Ok r, h') ∧ h `prefix_of` h' ∧
      (List.length h <= r)%nat ∧ viewArray TOpportunity h' r = Some rs ∧
      Forall (fun l => (List.length h <= l)%nat) rs).
  { intros Hn. exists (List.length h), [], (h ++ [CArray TOpportunity []]).
    split; [now apply (getMatches_none m h st)|]. split; [apply new_prefix|].
    split; [lia|]. split; [apply new_array_view|constructor]. }
  destruct userId as [i|]; [|apply Hnone; intros ? [=]].
  destruct (user_with_id i (store_users st)) as [u|] eqn:Hu.
  - destruct (getMatches_found _ _ _ _ _ Hst Hu)
      as (r & rs & h' & Hrun & Hext & Hr & Harr & Hfresh & _).
    exists r, rs, h'. auto.
  - apply Hnone. now intros ? [= <-].
Qed.

(** C8.  In every store the application can reach, no stored opportunity
    carries a [matchScore], and the two reads leave the store as it is:
    [getOpps] and [getMatches] only allocate (every object and array of
    the heap before the call is the same after it), what they return is a
    new array, the entries [getMatches] returns are new objects, and the
    three collections, the order of the opportunities included, read the
    same after the call. *)
Theorem reads_leave_store_unchanged b m (h : heap) :
  reachable b m h ->
  ∃ st,
    snapshot m h = Some st ∧
    unscored st ∧
    (∃ r h',
        getOpps m h = (Ok r, h') ∧
        h `prefix_of` h' ∧
        (List.length h <= r)%nat ∧
        viewArray TOpportunity h' (opportunities m)
          = viewArray TOpportunity h (opportunities m) ∧
        snapshot m h' = Some st) ∧
    (forall userId,
      ∃ r rs h',
        getMatches m userId h = (Ok r, h') ∧
        h `prefix_of` h' ∧
        (List.length h <= r)%nat ∧
        viewArray TOpportunity h' r = Some rs ∧
        Forall (fun l => (List.length h <= l)%nat) rs ∧
        viewArray TOpportunity h' (opportunities m)
          = viewArray TOpportunity h (opportunities m) ∧
        snapshot m h' = Some st).
Proof.
  intros Hreach. destruct (reachable_store b m h Hreach) as (st & Hst & _ & Hun).
  destruct (snapshot_inv _ _ _ Hst) as (_ & Hop & _).
  destruct (viewOpportunities_inv _ _ _ Hop) as (ls & Harr & _).
  exists st. split; [exact Hst|]. split; [exact Hun|]. split.
  - destruct (getOpps_view m h st Hst) as (h' & Hrun & Hext & _).
    exists (List.length h), h'. split; [exact Hrun|]. split; [exact Hext|].
    split; [lia|]. split; [|eapply snapshot_mono; eauto].
    rewrite Harr. eapply viewArray_mono; eauto.
  - intros userId.
    destruct (getMatches_frame m h st userId Hst)
      as (r & rs & h' & Hrun & Hext & Hr & Hrs & Hfresh).
    exists r, rs, h'. repeat (split; [assumption|]).
    split; [|eapply snapshot_mono; eauto].
    rewrite Harr. eapply viewArray_mono; eauto.
Qed.

Lemma reads_leave_store_unchanged_witness :
  ∃ st,
    snapshot example_mock example_heap = Some st ∧
    unscored st ∧
    (∃ r h',
        getOpps example_mock example_heap = (Ok r, h') ∧
        example_heap `prefix_of` h' ∧
        (List.length example_heap <= r)%nat ∧
        viewArray TOpportunity h' (opportunities example_mock)
          = viewArray TOpportunity example_heap (opportunities example_mock) ∧
        snapshot example_mock h' = Some st) ∧
    (forall userId,
      ∃ r rs h',
        getMatches example_mock userId example_heap = (Ok r, h') ∧
        example_heap `prefix_of` h' ∧
        (List.length example_heap <= r)%nat ∧
        viewArray TOpportunity h' r = Some rs ∧
        Forall (fun l => (List.length example_heap <= l)%nat) rs ∧
        viewArray TOpportunity h' (opportunities example_mock)
          = viewArray TOpportunity example_heap (opportunities example_mock) ∧
        snapshot example_mock h' = Some st).
Proof.
  apply (reads_leave_store_unchanged example_boot example_mock example_heap).
  exists [], example_heap. split; vm_compute; reflexivity.
Defined.

(** C9.  Over any sequence of calls on the mock store, from any store
    the application can reach: the skill catalog stays the one seeded
    when the module was loaded ([getSkills] returns the same skills in
    the same order), and the two other collections only grow: every
    opportunity and every user stored before is stored after, unchanged
    and in the same relative order, new opportunities before them and
    new users after them. *)
Theorem store_only_grows b m (h : heap) rs :
  reachable b m h ->
  ∃ st st',
    snapshot m h = Some st ∧
    snapshot m (run m rs h) = Some st' ∧
    grown st st' ∧
    store_skills st = seed_skills b ∧
    store_skills st' = seed_skills b ∧
    getSkills m (run m rs h) = (Ok (skills m), run m rs h) ∧
    viewSkills (run m rs h) (skills m) = Some (seed_skills b).
Proof.
  intros Hreach. destruct (reachable_store b m h Hreach) as (st & Hst & Hsk & _).
  destruct (run_steps m rs h st Hst) as (st' & Hst' & Hg & _).
  exists st, st'. split; [exact Hst|]. split; [exact Hst'|]. split; [exact Hg|].
  split; [exact Hsk|]. destruct Hg as (Hsame & _).
  split; [congruence|]. split; [reflexivity|].
  destruct (snapshot_inv _ _ _ Hst') as (Hv & _). rewrite Hv. f_equal. congruence.
Qed.

Lemma store_only_grows_witness :
  let P := example_platform "new-id" "2024-05-01T13:00:00.000Z" in
  let rs := [PostOpp P (opportunity_body "T" "D" ["skill-A"]); GetOpps;
             PostUser P (user_body "N" "E" []); GetMatches (Some "new-id");
             PostOpp P VUndefined] in
  ∃ st st',
    snapshot example_mock example_heap = Some st ∧
    snapshot example_mock (run example_mock rs example_heap) = Some st' ∧
    grown st st' ∧
    store_skills st = seed_skills example_boot ∧
    store_skills st' = seed_skills example_boot ∧
    getSkills example_mock (run example_mock rs example_heap)
      = (Ok (skills example_mock), run example_mock rs example_heap) ∧
    viewSkills (run example_mock rs example_heap) (skills example_mock)
      = Some (seed_skills example_boot).
Proof.
  intros P rs.
  apply (store_only_grows example_boot example_mock example_heap rs).
  exists [], example_heap. split; vm_compute; reflexivity.
Defined.

(** ** A creation call without a body *)

Lemma fst_bind_throw {A B} (c : M A) (k : A -> M B) (h : heap) e :
  fst (c h) = Throw e -> fst (bind c k h) = Throw e.
Proof. unfold bind. destruct (c h) as [[a|e'] h']; simpl; congruence. Qed.

Lemma postOpp_undefined P m (h : heap) st :
  snapshot m h = Some st -> fst (postOpp P m VUndefined h) = Throw TypeError.
Proof.
  intros Hst. destruct (snapshot_inv _ _ _ Hst) as (Hsk & _).
  destruct (chooseSkills_ok m VUndefined h (fun _ => false) _ (fun _ => eq_refl) Hsk)
    as (kept & Hrun & _).
  unfold postOpp. now rewrite (bind_ok _ _ _ _ _ Hrun).
Qed.

Lemma postUser_undefined P m (h : heap) st :
  snapshot m h = Some st -> fst (postUser P m VUndefined h) = Throw TypeError.
Proof.
  intros Hst. destruct (snapshot_inv _ _ _ Hst) as (Hsk & _).
  destruct (chooseSkills_ok m VUndefined h (fun _ => false) _ (fun _ => eq_refl) Hsk)
    as (kept & Hrun & _).
  unfold postUser. now rewrite (bind_ok _ _ _ _ _ Hrun).
Qed.

(** C10.  The claim fails on the code where the body is missing: the
    skill selection tolerates it ([body?.skillIds || []] is the empty
    list), but the next line reads [body.title] (or [body.name]) and
    throws a [TypeError], through [api] as well.  The rest of the claim
    holds: when the body is an object whose [skillIds] is absent or
    [null], both creations succeed with no skills. *)
Theorem creation_without_body_throws P m (h : heap) st :
  snapshot m h = Some st ->
  (fst (postOpp P m VUndefined h) = Throw TypeError ∧
   fst (postUser P m VUndefined h) = Throw TypeError ∧
   fst (api mock_mode P m "/api/opportunities" (Some post_without_body) h)
     = Throw TypeError ∧
   fst (api mock_mode P m "/api/users" (Some post_without_body) h)
     = Throw TypeError) ∧
  (forall body, selects_nothing body ->
     (∃ r h' o, postOpp P m body h = (Ok r, h') ∧
                viewOpportunity h' r = Some o ∧ Opportunity.skills o = []) ∧
     (∃ r h' u, postUser P m body h = (Ok r, h') ∧
                viewUser h' r = Some u ∧ User.skills u = [])).
Proof.
  intros Hst. split.
  - split; [eapply postOpp_undefined; eauto|].
    split; [eapply postUser_undefined; eauto|].
    split.
    + change (api mock_mode P m "/api/opportunities" (Some post_without_body) h)
        with (by_ref (postOpp P m VUndefined) h).
      apply fst_bind_throw. eapply postOpp_undefined; eauto.
    + change (api mock_mode P m "/api/users" (Some post_without_body) h)
        with (by_ref (postUser P m VUndefined) h).
      apply fst_bind_throw. eapply postUser_undefined; eauto.
  - intros body Hsel. destruct (snapshot_inv _ _ _ Hst) as (Hsk & _).
    destruct (chooseSkills_selects_nothing m body h _ Hsel Hsk) as (kept & Hrun & Hk).
    split.
    + destruct (selects_nothing_get body "title" Hsel) as [t Ht].
      destruct (selects_nothing_get body "description" Hsel) as [d Hd].
      destruct (postOpp_chosen P m body h st kept _ t d Hst Hrun Hk Ht Hd)
        as (h' & ls & Hpost & Hview & _).
      eexists _, h', _. split; [exact Hpost|]. split; [exact Hview|reflexivity].
    + destruct (selects_nothing_get body "name" Hsel) as [n Hn].
      destruct (selects_nothing_get body "email" Hsel) as [e He].
      destruct (postUser_chosen P m body h st kept _ n e Hst Hrun Hk Hn He)
        as (h' & ls & Hpost & Hview & _).
      eexists _, h', _. split; [exact Hpost|]. split; [exact Hview|reflexivity].
Qed.

Lemma creation_without_body_throws_witness :
  let P := example_platform "new-id" "2024-05-01T13:00:00.000Z" in
  (fst (postOpp P example_mock VUndefined example_heap) = Throw TypeError ∧
   fst (postUser P example_mock VUndefined example_heap) = Throw TypeError ∧
   fst (api mock_mode P example_mock "/api/opportunities" (Some post_without_body)
          example_heap)
     = Throw TypeError ∧
   fst (api mock_mode P example_mock "/api/users" (Some post_without_body)
          example_heap)
     = Throw TypeError) ∧
  (∃ r h' o, postOpp P example_mock (VObj [("title", VStr "T")]) example_heap
               = (Ok r, h') ∧
             viewOpportunity h' r = Some o ∧ Opportunity.skills o = []).
Proof.
  intros P.
  destruct (creation_without_body_throws P example_mock example_heap example_store
              example_snapshot) as [Hthrow Hnothing].
  split; [exact Hthrow|].
  apply (Hnothing (VObj [("title", VStr "T")])).
  exists [("title", VStr "T")]. split; [reflexivity|left; reflexivity].
Defined.

(** * Beyond the claims *)

(** ** Strings *)

Lemma append_cons c (a b : string) : String c a +:+ b = String c (a +:+ b).
Proof. reflexivity. Qed.

Lemma append_nil (b : string) : "" +:+ b = b.
Proof. reflexivity. Qed.

Lemma append_assoc (a b c : string) : (a +:+ b) +:+ c = a +:+ (b +:+ c).
Proof.
  induction a as [|x a IH]; [reflexivity|].
  rewrite !append_cons. now rewrite IH.
Qed.

Lemma substring_all (s : string) : substring 0 (String.length s) s = s.
Proof. induction s as [|c s IH]; simpl; [reflexivity|now rewrite IH]. Qed.

Lemma substring_append_r (a b : string) :
  substring (String.length a) (String.length b) (a +:+ b) = b.
Proof.
  induction a as [|c a IH]; [apply substring_all|].
  rewrite append_cons. exact IH.
Qed.

Lemma endsWith_append (a suf : string) : endsWith (a +:+ suf) suf = true.
Proof.
  unfold endsWith. rewrite length_append.
  replace (String.length a + String.length suf - String.length suf)%nat
    with (String.length a) by lia.
  rewrite substring_append_r, String.eqb_refl.
  rewrite andb_true_r. apply Nat.leb_le. lia.
Qed.

Lemma no_slash_cons c s :
  no_slash (String c s) -> c ≠ "/"%char ∧ no_slash s.
Proof.
  unfold no_slash.
  change (str_includes (String c s) "/")
    with (String.prefix "/" (String c s) || str_includes s "/").
  change (String.prefix "/" (String c s))
    with (if ascii_dec "/" c then String.prefix "" s else false).
  destruct (ascii_dec "/" c) as [<-|Hne].
  - destruct s; discriminate.
  - intros H. split; [congruence|exact H].
Qed.

Lemma split_segment (seg rest : string) :
  no_slash seg ->
  split "/" (seg +:+ String "/" rest) = seg :: split "/" rest.
Proof.
  induction seg as [|c seg IH]; intros Hno.
  - reflexivity.
  - apply no_slash_cons in Hno as [Hc Hno].
    rewrite append_cons. cbn [split].
    destruct (Ascii.eqb_spec c "/") as [->|_]; [contradiction|].
    now rewrite (IH Hno).
Qed.

Lemma upper_ascii_idem c : upper_ascii (upper_ascii c) = upper_ascii c.
Proof.
  destruct c as [[] [] [] [] [] [] [] []]; reflexivity.
Qed.

Lemma toUpperCase_idem s : toUpperCase (toUpperCase s) = toUpperCase s.
Proof.
  induction s as [|c s IH]; simpl; [reflexivity|].
  now rewrite upper_ascii_idem, IH.
Qed.

(** ** The matches route *)

Lemma prefix_nil s : String.prefix "" s = true.
Proof. now destruct s. Qed.

Lemma startsWith_users x : startsWith ("/api/users/" +:+ x) "/api/users/" = true.
Proof.
  unfold startsWith.
  change (String.prefix "/api/users/" ("/api/users/" +:+ x)) with (String.prefix "" x).
  apply prefix_nil.
Qed.

Lemma split_users seg tail :
  no_slash seg ->
  split "/" ("/api/users/" +:+ seg +:+ String "/" tail) !! 3%nat = Some seg.
Proof.
  intros Hno.
  change ("/api/users/" +:+ seg +:+ String "/" tail)
    with ("" +:+ String "/" ("api" +:+ String "/" ("users" +:+ String "/"
            (seg +:+ String "/" tail)))).
  rewrite (split_segment "") by reflexivity.
  rewrite (split_segment "api") by reflexivity.
  rewrite (split_segment "users") by reflexivity.
  now rewrite (split_segment seg) by assumption.
Qed.

Lemma matches_route cfg P m options seg tail (h : heap) body :
  USE_MOCK cfg = true ->
  request_method options = "GET" ->
  request_body P options = Ok body ->
  no_slash seg ->
  endsWith ("/api/users/" +:+ seg +:+ String "/" tail) "/matches" = true ->
  api cfg P m ("/api/users/" +:+ seg +:+ String "/" tail) options h
    = by_ref (getMatches m (Some seg)) h.
Proof.
  intros Hmock Hmethod Hbody Hno Hends. unfold api.
  rewrite Hmock, (bind_lift_ok _ _ _ _ Hbody), Hmethod, Hends.
  rewrite startsWith_users, (split_users seg tail Hno).
  reflexivity.
Qed.

Lemma matches_path_ends selected : endsWith (matches_path selected) "/matches" = true.
Proof.
  unfold matches_path. rewrite <- append_assoc. apply endsWith_append.
Qed.

Lemma by_ref_ok (c : M loc) (h : heap) r h' :
  c h = (Ok r, h') -> by_ref c h = (Ok (Ref r), h').
Proof. intros E. unfold by_ref. now rewrite (bind_ok _ _ _ _ _ E). Qed.

(** X1.  In mock mode, a GET of [/api/users/{id}/matches] for an id
    without a slash is answered by [getMatches] on that very id: for the
    id of a stored user the reply reads as the opportunities with their
    scores against that user, for any other id as the empty list. *)
Theorem matches_route_answers_for_the_id cfg P m options (h : heap) st userId body :
  USE_MOCK cfg = true ->
  request_method options = "GET" ->
  request_body P options = Ok body ->
  snapshot m h = Some st ->
  no_slash userId ->
  ∃ r h',
    api cfg P m (matches_path userId) options h = (Ok (Ref r), h') ∧
    viewOpportunities h' r
      = Some (from_option (fun u => matches_of u st) []
                (user_with_id userId (store_users st))).
Proof.
  intros Hmock Hmethod Hbody Hst Hno.
  assert (Hroute : api cfg P m (matches_path userId) options h
                   = by_ref (getMatches m (Some userId)) h).
  { apply (matches_route cfg P m options userId "matches" h body); try assumption.
    apply matches_path_ends. }
  rewrite Hroute.
  destruct (user_with_id userId (store_users st)) as [u|] eqn:Hu; simpl.
  - destruct (getMatches_found m h st userId u Hst Hu)
      as (r & rs & h' & Hrun & _ & _ & _ & _ & Hview).
    exists r, h'. split; [now apply by_ref_ok|exact Hview].
  - exists (List.length h), (h ++ [CArray TOpportunity []]). split.
    + apply by_ref_ok. apply (getMatches_none m h st (Some userId) Hst).
      now intros i [= <-].
    + unfold viewOpportunities. now rewrite new_array_view.
Qed.

Lemma matches_route_answers_for_the_id_witness :
  ∃ r h',
    api mock_mode (example_platform "id" "2024-05-01T13:00:00.000Z") abc_mock
        (matches_path "u1") None abc_heap = (Ok (Ref r), h') ∧
    viewOpportunities h' r
      = Some (from_option (fun u => matches_of u abc_store) []
                (user_with_id "u1" (store_users abc_store))).
Proof.
  apply (matches_route_answers_for_the_id mock_mode
           (example_platform "id" "2024-05-01T13:00:00.000Z") abc_mock None
           abc_heap abc_store "u1" VUndefined);
    solve [reflexivity | exact abc_snapshot].
Defined.

(** X2.  The router takes the id from the fourth segment of the path: in
    mock mode a GET for an id that contains a slash is answered exactly
    as the GET for the part of the id before its first slash. *)
Theorem matches_route_cuts_id_at_slash cfg P m options (h : heap) seg rest body :
  USE_MOCK cfg = true ->
  request_method options = "GET" ->
  request_body P options = Ok body ->
  no_slash seg ->
  api cfg P m (matches_path (seg +:+ "/" +:+ rest)) options h
    = api cfg P m (matches_path seg) options h.
Proof.
  intros Hmock Hmethod Hbody Hno.
  transitivity (by_ref (getMatches m (Some seg)) h).
  - pose proof (matches_path_ends (seg +:+ "/" +:+ rest)) as Hends.
    unfold matches_path in *. rewrite append_assoc in *.
    exact (matches_route cfg P m options seg (rest +:+ "/matches") h body
             Hmock Hmethod Hbody Hno Hends).
  - symmetry.
    apply (matches_route cfg P m options seg "matches" h body); try assumption.
    apply matches_path_ends.
Qed.

Lemma matches_route_cuts_id_at_slash_witness :
  api mock_mode (example_platform "id" "2024-05-01T13:00:00.000Z") abc_mock
      (matches_path ("u1" +:+ "/" +:+ "anything")) None abc_heap
    = api mock_mode (example_platform "id" "2024-05-01T13:00:00.000Z") abc_mock
        (matches_path "u1") None abc_heap.
Proof.
  apply (matches_route_cuts_id_at_slash mock_mode
           (example_platform "id" "2024-05-01T13:00:00.000Z") abc_mock None
           abc_heap "u1" "anything" VUndefined);
    reflexivity.
Defined.

(** ** The method of a request *)

Lemma toUpperCase_empty s : String.eqb (toUpperCase s) "" = String.eqb s "".
Proof. now destruct s. Qed.

Lemma request_method_upper headers body s :
  request_method (Some {| method := Some (toUpperCase s); headers := headers; body := body |})
    = request_method (Some {| method := Some s; headers := headers; body := body |}).
Proof.
  unfold request_method. simpl. rewrite toUpperCase_empty.
  destruct (String.eqb s ""); [reflexivity|apply toUpperCase_idem].
Qed.

(** X3.  In mock mode the method of a request is compared whatever its
    case: a request and the same request with its method in upper case
    get the same answer (the same result and the same store). *)
Theorem mock_method_case_insensitive cfg P m path method headers body (h : heap) :
  USE_MOCK cfg = true ->
  api cfg P m path
      (Some {| method := Some method; headers := headers; body := body |}) h
    = api cfg P m path
        (Some {| method := Some (toUpperCase method); headers := headers;
                 body := body |}) h.
Proof.
  intros Hmock. unfold api. rewrite Hmock, request_method_upper. reflexivity.
Qed.

Lemma mock_method_case_insensitive_witness :
  api mock_mode (example_platform "id" "2024-05-01T13:00:00.000Z") example_mock
      "/api/opportunities"
      (Some {| method := Some "pOsT"; headers := None; body := Some "{}" |})
      example_heap
    = api mock_mode (example_platform "id" "2024-05-01T13:00:00.000Z") example_mock
        "/api/opportunities"
        (Some {| method := Some "POST"; headers := None; body := Some "{}" |})
        example_heap.
Proof.
  apply (mock_method_case_insensitive mock_mode
           (example_platform "id" "2024-05-01T13:00:00.000Z") example_mock
           "/api/opportunities" "pOsT" None (Some "{}") example_heap).
  reflexivity.
Defined.

(** ** When a creation call throws *)

Lemma chooseSkills_outcome m body (h : heap) cat :
  viewSkills h (skills m) = Some cat ->
  (∃ kept chosen,
      chooseSkills m body h = (Ok (List.length h), h ++ [CArray TSkill kept]) ∧
      mapM (viewSkill h) kept = Some chosen ∧
      chosen `sublist_of` cat ∧
      (cat = [] ∨ has_includes (selection body) = true)) ∨
  (chooseSkills m body h = (Throw TypeError, h) ∧
   cat ≠ [] ∧ has_includes (selection body) = false).
Proof.
  intros Hcat. destruct (has_includes (selection body)) eqn:Hinc.
  - left.
    assert (Hp : ∃ p, forall s, includes (selection body) s = Ok (p s)).
    { destruct (selection body); try discriminate; eexists; intros x; reflexivity. }
    destruct Hp as [p Hp].
    destruct (chooseSkills_ok m body h p cat Hp Hcat) as (kept & Hrun & Hk).
    exists kept, (filter (fun s => Is_true (p (Skill.id s))) cat).
    split; [exact Hrun|]. split; [exact Hk|]. split; [apply sublist_filter|now right].
  - assert (Hthrow : forall s, includes (selection body) s = Throw TypeError).
    { destruct (selection body); try discriminate; reflexivity. }
    pose proof Hcat as Hcat'.
    apply viewSkills_inv in Hcat' as (ls & Harr & Hls).
    destruct ls as [|l ls].
    + left. exists [], []. apply mapM_Some in Hls. inversion Hls; subst.
      split; [|split; [reflexivity|split; [constructor|now left]]].
      unfold chooseSkills. now rewrite (bind_ok _ _ _ _ _ (elements_view _ _ _ _ Harr)).
    + right. apply mapM_Some in Hls. inversion Hls as [|? s ? ? Hl _]; subst.
      split; [|split; [discriminate|reflexivity]].
      unfold chooseSkills. rewrite (bind_ok _ _ _ _ _ (elements_view _ _ _ _ Harr)).
      apply bind_throw. now apply (filterM_skills_throw h _ _ l ls s).
Qed.

Lemma get_nullish body k : nullish body = true -> get body k = Throw TypeError.
Proof. now destruct body. Qed.

Lemma get_not_nullish body k : nullish body = false -> ∃ v, get body k = Ok v.
Proof. destruct body; try discriminate; intros _; simpl; eauto. Qed.

(** What [postOpp] does on any body, from a well-formed store. *)
Lemma postOpp_outcome P m body (h : heap) st :
  snapshot m h = Some st ->
  (∃ h' o,
      postOpp P m body h = (Ok (S (List.length h)), h') ∧
      viewOpportunity h' (S (List.length h)) = Some o ∧
      Opportunity.skills o `sublist_of` store_skills st ∧
      Opportunity.matchScore o = None ∧
      snapshot m h' =
        Some {| store_skills := store_skills st;
                store_opportunities := o :: store_opportunities st;
                store_users := store_users st |} ∧
      nullish body = false ∧
      (store_skills st = [] ∨ has_includes (selection body) = true)) ∨
  (∃ h', postOpp P m body h = (Throw TypeError, h') ∧
         h `prefix_of` h' ∧
         (nullish body = true ∨
          (store_skills st ≠ [] ∧ has_includes (selection body) = false))).
Proof.
  intros Hst. destruct (snapshot_inv _ _ _ Hst) as (Hsk & _ & _).
  destruct (chooseSkills_outcome m body h _ Hsk)
    as [(kept & chosen & Hrun & Hk & Hsub & Hwhy)|(Hthrow & Hne & Hinc)].
  - destruct (nullish body) eqn:Hnull.
    + right. exists (h ++ [CArray TSkill kept]).
      split; [|split; [apply new_prefix|now left]].
      unfold postOpp. rewrite (bind_ok _ _ _ _ _ Hrun).
      apply bind_lift_throw. now apply get_nullish.
    + left. destruct (get_not_nullish body "title" Hnull) as [t Ht].
      destruct (get_not_nullish body "description" Hnull) as [d Hd].
      destruct (postOpp_chosen P m body h st kept chosen t d Hst Hrun Hk Ht Hd)
        as (h' & ls & Hpost & Hview & _ & _ & Hsnap & _).
      exists h', (Opportunity.Build (uid P) t d (now P) chosen None).
      repeat (split; [assumption || reflexivity|]). exact Hwhy.
  - right. exists h. split; [|split; [reflexivity|right; now split]].
    unfold postOpp. now apply bind_throw.
Qed.

Lemma postUser_outcome P m body (h : heap) st :
  snapshot m h = Some st ->
  (∃ h' u,
      postUser P m body h = (Ok (S (List.length h)), h') ∧
      viewUser h' (S (List.length h)) = Some u ∧
      User.skills u `sublist_of` store_skills st ∧
      snapshot m h' =
        Some {| store_skills := store_skills st;
                store_opportunities := store_opportunities st;
                store_users := store_users st ++ [u] |} ∧
      nullish body = false ∧
      (store_skills st = [] ∨ has_includes (selection body) = true)) ∨
  (∃ h', postUser P m body h = (Throw TypeError, h') ∧
         h `prefix_of` h' ∧
         (nullish body = true ∨
          (store_skills st ≠ [] ∧ has_includes (selection body) = false))).
Proof.
  intros Hst. destruct (snapshot_inv _ _ _ Hst) as (Hsk & _ & _).
  destruct (chooseSkills_outcome m body h _ Hsk)
    as [(kept & chosen & Hrun & Hk & Hsub & Hwhy)|(Hthrow & Hne & Hinc)].
  - destruct (nullish body) eqn:Hnull.
    + right. exists (h ++ [CArray TSkill kept]).
      split; [|split; [apply new_prefix|now left]].
      unfold postUser. rewrite (bind_ok _ _ _ _ _ Hrun).
      apply bind_lift_throw. now apply get_nullish.
    + left. destruct (get_not_nullish body "name" Hnull) as [n Hn].
      destruct (get_not_nullish body "email" Hnull) as [e He].
      destruct (postUser_chosen P m body h st kept chosen n e Hst Hrun Hk Hn He)
        as (h' & ls & Hpost & Hview & _ & _ & Hsnap & _).
      exists h', (User.Build (uid P) n e chosen).
      repeat (split; [assumption || reflexivity|]). exact Hwhy.
  - right. exists h. split; [|split; [reflexivity|right; now split]].
    unfold postUser. now apply bind_throw.
Qed.

Lemma reachable_catalog b m (h : heap) st :
  reachable b m h -> snapshot m h = Some st -> store_skills st ≠ [].
Proof.
  intros Hreach Hst. destruct (reachable_store b m h Hreach) as (st' & Hst' & Hsk & _).
  rewrite Hst in Hst'. injection Hst' as <-. rewrite Hsk. discriminate.
Qed.

(** X4.  A creation call that throws stores nothing: whatever the body,
    if [postOpp] or [postUser] throws, the error is a [TypeError], every
    object and array of the heap is as before, and the three collections
    read the same. *)
Theorem failed_creation_stores_nothing P m body (h : heap) st e h' :
  snapshot m h = Some st ->
  postOpp P m body h = (Throw e, h') ∨ postUser P m body h = (Throw e, h') ->
  e = TypeError ∧ h `prefix_of` h' ∧ snapshot m h' = Some st.
Proof.
  intros Hst [Hrun|Hrun].
  - destruct (postOpp_outcome P m body h st Hst)
      as [(h1 & o & Hok & _)|(h1 & Hthrow & Hext & _)];
      rewrite Hrun in *; [discriminate|].
    injection Hthrow as -> ->.
    split; [reflexivity|]. split; [exact Hext|]. eapply snapshot_mono; eauto.
  - destruct (postUser_outcome P m body h st Hst)
      as [(h1 & o & Hok & _)|(h1 & Hthrow & Hext & _)];
      rewrite Hrun in *; [discriminate|].
    injection Hthrow as -> ->.
    split; [reflexivity|]. split; [exact Hext|]. eapply snapshot_mono; eauto.
Qed.

Lemma failed_creation_stores_nothing_witness :
  let P := example_platform "new-id" "2024-05-01T13:00:00.000Z" in
  let h' := example_heap ++ [CArray TSkill []] in
  postOpp P example_mock VNull example_heap = (Throw TypeError, h') ∧
  TypeError = TypeError ∧
  example_heap `prefix_of` h' ∧
  snapshot example_mock h' = Some example_store.
Proof.
  intros P h'.
  assert (Hrun : postOpp P example_mock VNull example_heap = (Throw TypeError, h'))
    by (vm_compute; reflexivity).
  split; [exact Hrun|].
  apply (failed_creation_stores_nothing P example_mock VNull example_heap
           example_store TypeError h' example_snapshot).
  left. exact Hrun.
Defined.

(** X5.  On every store the application can reach, [postOpp] and
    [postUser] succeed exactly on the bodies that are not [null] or
    [undefined] and whose [skillIds] is falsy, an array or a string; on
    every other body (for instance [skillIds: 5], [skillIds: true] or
    [skillIds: {}]) they throw a [TypeError]. *)
Theorem creation_succeeds_exactly_on_acceptable b m (h : heap) P body :
  reachable b m h ->
  (acceptable body = true ->
     (∃ r h', postOpp P m body h = (Ok r, h')) ∧
     (∃ r h', postUser P m body h = (Ok r, h'))) ∧
  (acceptable body = false ->
     fst (postOpp P m body h) = Throw TypeError ∧
     fst (postUser P m body h) = Throw TypeError).
Proof.
  intros Hreach. destruct (reachable_store b m h Hreach) as (st & Hst & _).
  pose proof (reachable_catalog b m h st Hreach Hst) as Hcat.
  unfold acceptable. split; intros Hacc.
  - apply andb_true_iff in Hacc as [Hnull Hinc]. apply negb_true_iff in Hnull.
    split.
    + destruct (postOpp_outcome P m body h st Hst)
        as [(h' & o & Hok & _)|(h' & _ & _ & [Hn|[_ Hi]])]; [eauto|congruence..].
    + destruct (postUser_outcome P m body h st Hst)
        as [(h' & o & Hok & _)|(h' & _ & _ & [Hn|[_ Hi]])]; [eauto|congruence..].
  - apply andb_false_iff in Hacc. split.
    + destruct (postOpp_outcome P m body h st Hst)
        as [(h' & o & _ & _ & _ & _ & _ & Hn & [He|Hi])|(h' & -> & _)];
        [contradiction| |reflexivity].
      destruct Hacc as [Hacc|Hacc]; [|congruence].
      apply negb_false_iff in Hacc. congruence.
    + destruct (postUser_outcome P m body h st Hst)
        as [(h' & o & _ & _ & _ & _ & Hn & [He|Hi])|(h' & -> & _)];
        [contradiction| |reflexivity].
      destruct Hacc as [Hacc|Hacc]; [|congruence].
      apply negb_false_iff in Hacc. congruence.
Qed.

Lemma creation_succeeds_exactly_on_acceptable_witness :
  let P := example_platform "new-id" "2024-05-01T13:00:00.000Z" in
  ((∃ r h', postOpp P example_mock (VObj [("skillIds", VStr "skill-A")]) example_heap
              = (Ok r, h')) ∧
   (∃ r h', postUser P example_mock (VObj [("skillIds", VStr "skill-A")]) example_heap
              = (Ok r, h'))) ∧
  (fst (postOpp P example_mock (VObj [("skillIds", VNum 5)]) example_heap)
     = Throw TypeError ∧
   fst (postUser P example_mock (VObj [("skillIds", VNum 5)]) example_heap)
     = Throw TypeError).
Proof.
  intros P.
  assert (Hreach : reachable example_boot example_mock example_heap).
  { exists [], example_heap. split; vm_compute; reflexivity. }
  split.
  - apply (creation_succeeds_exactly_on_acceptable example_boot example_mock
             example_heap P (VObj [("skillIds", VStr "skill-A")]) Hreach).
    reflexivity.
  - apply (creation_succeeds_exactly_on_acceptable example_boot example_mock
             example_heap P (VObj [("skillIds", VNum 5)]) Hreach).
    reflexivity.
Defined.

(** ** What a creation call reads from the body *)

Lemma includes_picks sel s :
  has_includes sel = true -> includes sel s = Ok (picks sel s).
Proof. unfold picks. destruct sel; try discriminate; reflexivity. Qed.

Lemma filter_none {A} (l : list A) : filter (fun _ => Is_true false) l = [].
Proof.
  induction l as [|x l IH]; [reflexivity|].
  rewrite filter_cons. destruct (decide _) as [[]|]. exact IH.
Qed.

(** X6.  From a body that is not [null] or [undefined] and whose
    [skillIds] is falsy, an array or a string, [postOpp] creates a record
    whose [title] and [description] are the properties of the body as
    they are ([undefined] when missing, whatever their type) and whose
    skills are the catalog skills [s] with [skillIds.includes(s.id)];
    [postUser] does the same with [name] and [email]. *)
Theorem creation_takes_body_as_it_is P m body (h : heap) st :
  snapshot m h = Some st ->
  acceptable body = true ->
  (∃ r h' o,
      postOpp P m body h = (Ok r, h') ∧
      viewOpportunity h' r = Some o ∧
      get body "title" = Ok (Opportunity.title o) ∧
      get body "description" = Ok (Opportunity.description o) ∧
      Opportunity.skills o
        = filter (fun s => Is_true (picks (selection body) (Skill.id s)))
                 (store_skills st)) ∧
  (∃ r h' u,
      postUser P m body h = (Ok r, h') ∧
      viewUser h' r = Some u ∧
      get body "name" = Ok (User.name u) ∧
      get body "email" = Ok (User.email u) ∧
      User.skills u
        = filter (fun s => Is_true (picks (selection body) (Skill.id s)))
                 (store_skills st)).
Proof.
  intros Hst Hacc. unfold acceptable in Hacc.
  apply andb_true_iff in Hacc as [Hnull Hinc]. apply negb_true_iff in Hnull.
  destruct (snapshot_inv _ _ _ Hst) as (Hsk & _ & _).
  destruct (chooseSkills_ok m body h (picks (selection body)) _
              (fun s => includes_picks _ s Hinc) Hsk) as (kept & Hrun & Hk).
  split.
  - destruct (get_not_nullish body "title" Hnull) as [t Ht].
    destruct (get_not_nullish body "description" Hnull) as [d Hd].
    destruct (postOpp_chosen P m body h st kept _ t d Hst Hrun Hk Ht Hd)
      as (h' & ls & Hpost & Hview & _).
    eexists _, h', _. split; [exact Hpost|]. split; [exact Hview|].
    split; [exact Ht|]. split; [exact Hd|reflexivity].
  - destruct (get_not_nullish body "name" Hnull) as [n Hn].
    destruct (get_not_nullish body "email" Hnull) as [e He].
    destruct (postUser_chosen P m body h st kept _ n e Hst Hrun Hk Hn He)
      as (h' & ls & Hpost & Hview & _).
    eexists _, h', _. split; [exact Hpost|]. split; [exact Hview|].
    split; [exact Hn|]. split; [exact He|reflexivity].
Qed.

Lemma creation_takes_body_as_it_is_witness :
  let P := example_platform "new-id" "2024-05-01T13:00:00.000Z" in
  let body := VObj [("title", VNum 7); ("skillIds", VArr [VStr "skill-B"; VNum 3])] in
  (∃ r h' o,
      postOpp P example_mock body example_heap = (Ok r, h') ∧
      viewOpportunity h' r = Some o ∧
      get body "title" = Ok (Opportunity.title o) ∧
      get body "description" = Ok (Opportunity.description o) ∧
      Opportunity.skills o
        = filter (fun s => Is_true (picks (selection body) (Skill.id s)))
                 (store_skills example_store)) ∧
  (∃ r h' u,
      postUser P example_mock body example_heap = (Ok r, h') ∧
      viewUser h' r = Some u ∧
      get body "name" = Ok (User.name u) ∧
      get body "email" = Ok (User.email u) ∧
      User.skills u
        = filter (fun s => Is_true (picks (selection body) (Skill.id s)))
                 (store_skills example_store)).
Proof.
  intros P body.
  apply (creation_takes_body_as_it_is P example_mock body example_heap example_store
           example_snapshot).
  reflexivity.
Defined.

(** X7.  A body that is not [null] or [undefined] and has no truthy
    [skillIds] (the property is missing, [null], [false], [0] or the
    empty string, or the body is a number, a string, a boolean or an
    array) is accepted, and the record created has no skills. *)
Theorem falsy_skillIds_select_nothing P m body (h : heap) st :
  snapshot m h = Some st ->
  nullish body = false ->
  truthy (get_opt body "skillIds") = false ->
  (∃ r h' o,
      postOpp P m body h = (Ok r, h') ∧
      viewOpportunity h' r = Some o ∧ Opportunity.skills o = []) ∧
  (∃ r h' u,
      postUser P m body h = (Ok r, h') ∧
      viewUser h' r = Some u ∧ User.skills u = []).
Proof.
  intros Hst Hnull Hfalsy.
  assert (Hsel : selection body = VArr []).
  { unfold selection, or_else. now rewrite Hfalsy. }
  destruct (snapshot_inv _ _ _ Hst) as (Hsk & _ & _).
  destruct (chooseSkills_ok m body h (fun _ => false) (store_skills st)) as (kept & Hrun & Hk);
    [intros s; now rewrite Hsel|exact Hsk|].
  rewrite filter_none in Hk. split.
  - destruct (get_not_nullish body "title" Hnull) as [t Ht].
    destruct (get_not_nullish body "description" Hnull) as [d Hd].
    destruct (postOpp_chosen P m body h st kept _ t d Hst Hrun Hk Ht Hd)
      as (h' & ls & Hpost & Hview & _).
    eexists _, h', _. split; [exact Hpost|]. split; [exact Hview|reflexivity].
  - destruct (get_not_nullish body "name" Hnull) as [n Hn].
    destruct (get_not_nullish body "email" Hnull) as [e He].
    destruct (postUser_chosen P m body h st kept _ n e Hst Hrun Hk Hn He)
      as (h' & ls & Hpost & Hview & _).
    eexists _, h', _. split; [exact Hpost|]. split; [exact Hview|reflexivity].
Qed.

Lemma falsy_skillIds_select_nothing_witness :
  let P := example_platform "new-id" "2024-05-01T13:00:00.000Z" in
  ((∃ r h' o,
      postOpp P example_mock (VObj [("skillIds", VNum 0)]) example_heap = (Ok r, h') ∧
      viewOpportunity h' r = Some o ∧ Opportunity.skills o = []) ∧
   (∃ r h' u,
      postUser P example_mock (VObj [("skillIds", VNum 0)]) example_heap = (Ok r, h') ∧
      viewUser h' r = Some u ∧ User.skills u = [])) ∧
  ((∃ r h' o,
      postOpp P example_mock (VNum 42) example_heap = (Ok r, h') ∧
      viewOpportunity h' r = Some o ∧ Opportunity.skills o = []) ∧
   (∃ r h' u,
      postUser P example_mock (VNum 42) example_heap = (Ok r, h') ∧
      viewUser h' r = Some u ∧ User.skills u = [])).
Proof.
  intros P. split.
  - apply (falsy_skillIds_select_nothing P example_mock (VObj [("skillIds", VNum 0)])
             example_heap example_store example_snapshot); reflexivity.
  - apply (falsy_skillIds_select_nothing P example_mock (VNum 42)
             example_heap example_store example_snapshot); reflexivity.
Defined.

(** ** A string in the place of the list of ids *)

Lemma prefix_cons a b c d :
  String.prefix (String a b) (String c d)
  = if ascii_dec a c then String.prefix b d else false.
Proof. reflexivity. Qed.

Lemma prefix_append a b : String.prefix a (a +:+ b) = true.
Proof.
  induction a as [|c a IH]; [apply prefix_nil|].
  rewrite append_cons, prefix_cons. now destruct (ascii_dec c c).
Qed.

Lemma prefix_inv a b : String.prefix a b = true -> ∃ c, b = a +:+ c.
Proof.
  revert b. induction a as [|x a IH]; intros b H.
  - now exists b.
  - destruct b as [|y b]; [discriminate|].
    rewrite prefix_cons in H. destruct (ascii_dec x y) as [->|]; [|discriminate].
    destruct (IH b H) as [c ->]. now exists c.
Qed.

Lemma str_includes_unfold hay needle :
  str_includes hay needle
  = (String.prefix needle hay ||
     match hay with
     | EmptyString => false
     | String _ hay' => str_includes hay' needle
     end).
Proof. now destruct hay. Qed.

Lemma str_includes_spec hay needle :
  str_includes hay needle = true <-> occurs_in needle hay.
Proof.
  split.
  - induction hay as [|c hay IH]; rewrite str_includes_unfold; intros H;
      apply orb_true_iff in H as [H|H]; try discriminate.
    + apply prefix_inv in H as [post ->]. now exists "", post.
    + apply prefix_inv in H as [post ->]. now exists "", post.
    + destruct (IH H) as (pre & post & ->). now exists (String c pre), post.
  - intros (pre & post & ->). induction pre as [|c pre IH];
      rewrite str_includes_unfold.
    + rewrite append_nil, prefix_append. reflexivity.
    + rewrite append_cons, IH. apply orb_true_r.
Qed.

(** X8.  When [skillIds] is a non-empty string instead of a list, the
    creation succeeds and the skills chosen are the catalog skills whose
    id occurs somewhere in that string, in catalog order: the id itself
    selects its skill, and so does any longer text that contains it. *)
Theorem string_skillIds_select_by_substring P m fields hay (h : heap) st :
  snapshot m h = Some st ->
  lookup_field "skillIds" fields = VStr hay ->
  hay ≠ "" ->
  (∃ r h' o,
      postOpp P m (VObj fields) h = (Ok r, h') ∧
      viewOpportunity h' r = Some o ∧
      Opportunity.skills o `sublist_of` store_skills st ∧
      forall s, s ∈ Opportunity.skills o <->
                s ∈ store_skills st ∧ occurs_in (Skill.id s) hay) ∧
  (∃ r h' u,
      postUser P m (VObj fields) h = (Ok r, h') ∧
      viewUser h' r = Some u ∧
      User.skills u `sublist_of` store_skills st ∧
      forall s, s ∈ User.skills u <->
                s ∈ store_skills st ∧ occurs_in (Skill.id s) hay).
Proof.
  intros Hst Hfield Hne.
  assert (Hsel : selection (VObj fields) = VStr hay).
  { unfold selection, or_else. simpl. rewrite Hfield. simpl.
    destruct (String.eqb_spec hay "") as [->|_]; [contradiction|reflexivity]. }
  destruct (snapshot_inv _ _ _ Hst) as (Hsk & _ & _).
  destruct (chooseSkills_ok m (VObj fields) h (str_includes hay) (store_skills st))
    as (kept & Hrun & Hk); [intros s; now rewrite Hsel|exact Hsk|].
  assert (Hmem : forall s,
    s ∈ filter (fun s => Is_true (str_includes hay (Skill.id s))) (store_skills st)
    <-> s ∈ store_skills st ∧ occurs_in (Skill.id s) hay).
  { intros s. rewrite list_elem_of_filter, Is_true_true, str_includes_spec. tauto. }
  split.
  - destruct (postOpp_chosen P m (VObj fields) h st kept _
                (lookup_field "title" fields) (lookup_field "description" fields)
                Hst Hrun Hk eq_refl eq_refl)
      as (h' & ls & Hpost & Hview & _).
    eexists _, h', _. split; [exact Hpost|]. split; [exact Hview|].
    split; [apply sublist_filter|exact Hmem].
  - destruct (postUser_chosen P m (VObj fields) h st kept _
                (lookup_field "name" fields) (lookup_field "email" fields)
                Hst Hrun Hk eq_refl eq_refl)
      as (h' & ls & Hpost & Hview & _).
    eexists _, h', _. split; [exact Hpost|]. split; [exact Hview|].
    split; [apply sublist_filter|exact Hmem].
Qed.

Lemma string_skillIds_select_by_substring_witness :
  let P := example_platform "new-id" "2024-05-01T13:00:00.000Z" in
  let fields := [("title", VStr "T"); ("skillIds", VStr "skill-C,skill-A")] in
  (∃ r h' o,
      postOpp P example_mock (VObj fields) example_heap = (Ok r, h') ∧
      viewOpportunity h' r = Some o ∧
      Opportunity.skills o `sublist_of` store_skills example_store ∧
      forall s, s ∈ Opportunity.skills o <->
                s ∈ store_skills example_store ∧
                occurs_in (Skill.id s) "skill-C,skill-A") ∧
  (∃ r h' u,
      postUser P example_mock (VObj fields) example_heap = (Ok r, h') ∧
      viewUser h' r = Some u ∧
      User.skills u `sublist_of` store_skills example_store ∧
      forall s, s ∈ User.skills u <->
                s ∈ store_skills example_store ∧
                occurs_in (Skill.id s) "skill-C,skill-A").
Proof.
  intros P fields.
  apply (string_skillIds_select_by_substring P example_mock fields "skill-C,skill-A"
           example_heap example_store example_snapshot);
    [reflexivity|discriminate].
Defined.

(** ** Every stored skill is a catalog skill *)

Lemma mock_init_within b :
  ∃ m h0 st0,
    mock_init b [] = (Ok m, h0) ∧
    snapshot m h0 = Some st0 ∧
    store_skills st0 = seed_skills b ∧
    within (seed_skills b) st0.
Proof.
  eexists _, _, _. split; [reflexivity|]. split; [reflexivity|].
  split; [reflexivity|].
  split; cbn;
    repeat (apply Forall_cons_2;
            [intros s Hs; revert Hs; cbn;
             rewrite !elem_of_cons, ?elem_of_nil; tauto|]);
    apply Forall_nil_2.
Qed.

Lemma perform_within m r (h : heap) st :
  snapshot m h = Some st ->
  within (store_skills st) st ->
  ∃ st', snapshot m (snd (perform m r h)) = Some st' ∧
         store_skills st' = store_skills st ∧
         within (store_skills st') st'.
Proof.
  intros Hst Hin.
  assert (Hread : h `prefix_of` snd (perform m r h) ->
            ∃ st', snapshot m (snd (perform m r h)) = Some st' ∧
                   store_skills st' = store_skills st ∧
                   within (store_skills st') st').
  { intros Hext. exists st. split; [eapply snapshot_mono; eauto|]. now split. }
  destruct r as [| |P body| |P body|userId]; simpl perform in *.
  - now apply Hread.
  - apply Hread. destruct (getOpps_view _ _ _ Hst) as (h' & -> & Hext & _).
    exact Hext.
  - destruct (postOpp_outcome P m body h st Hst)
      as [(h' & o & -> & _ & Hsub & _ & Hsnap & _)|(h' & Hrun & Hext & _)].
    + eexists. split; [exact Hsnap|]. split; [reflexivity|].
      destruct Hin as [Ho Hu]. split; [|exact Hu].
      constructor; [|exact Ho]. now apply sublist_subseteq.
    + apply Hread. now rewrite Hrun.
  - now apply Hread.
  - destruct (postUser_outcome P m body h st Hst)
      as [(h' & u & -> & _ & Hsub & Hsnap & _)|(h' & Hrun & Hext & _)].
    + eexists. split; [exact Hsnap|]. split; [reflexivity|].
      destruct Hin as [Ho Hu]. split; [exact Ho|].
      apply Forall_app. split; [exact Hu|].
      constructor; [|constructor]. now apply sublist_subseteq.
    + apply Hread. now rewrite Hrun.
  - apply Hread.
    destruct (getMatches_frame m h st userId Hst) as (r & rs & h' & -> & Hext & _).
    exact Hext.
Qed.

Lemma run_within m rs (h : heap) st :
  snapshot m h = Some st ->
  within (store_skills st) st ->
  ∃ st', snapshot m (run m rs h) = Some st' ∧
         store_skills st' = store_skills st ∧
         within (store_skills st') st'.
Proof.
  revert h st. induction rs as [|r rs IH]; intros h st Hst Hin.
  - exists st. now split.
  - destruct (perform_within m r h st Hst Hin) as (st1 & Hst1 & Hsk1 & Hin1).
    destruct (IH _ _ Hst1 Hin1) as (st2 & Hst2 & Hsk2 & Hin2).
    exists st2. split; [exact Hst2|]. split; [congruence|exact Hin2].
Qed.

(** X9.  On every store the application can reach, every skill of every
    stored opportunity and of every stored user is one of the skills of
    the catalog seeded at load time: the mock store never holds a
    reference to a skill that the catalog does not have. *)
Theorem stored_skills_are_catalog_skills b m (h : heap) :
  reachable b m h ->
  ∃ st, snapshot m h = Some st ∧
        store_skills st = seed_skills b ∧
        within (seed_skills b) st.
Proof.
  intros (rs & h0 & Hinit & ->).
  destruct (mock_init_within b) as (m' & h0' & st0 & Hinit' & Hst0 & Hsk & Hin).
  rewrite Hinit in Hinit'. injection Hinit' as <- <-.
  rewrite <- Hsk in Hin.
  destruct (run_within m rs h0 st0 Hst0 Hin) as (st & Hst & Hsame & Hw).
  exists st. split; [exact Hst|]. rewrite <- Hsk, <- Hsame. now split.
Qed.

Lemma stored_skills_are_catalog_skills_witness :
  let P := example_platform "new-id" "2024-05-01T13:00:00.000Z" in
  let rs := [PostOpp P (opportunity_body "T" "D" ["skill-A"; "unknown"]);
             PostUser P (VObj [("skillIds", VStr "skill-B skill-C")]);
             PostOpp P VNull] in
  ∃ st, snapshot example_mock (run example_mock rs example_heap) = Some st ∧
        store_skills st = seed_skills example_boot ∧
        within (seed_skills example_boot) st.
Proof.
  intros P rs.
  apply (stored_skills_are_catalog_skills example_boot example_mock
           (run example_mock rs example_heap)).
  exists rs, example_heap. split; [vm_compute; reflexivity|reflexivity].
Defined.

(** ** Order and repetition in the list of ids *)

Lemma catalog_filter_same ids1 ids2 cat :
  (forall x, x ∈ ids1 <-> x ∈ ids2) -> catalog_filter ids1 cat = catalog_filter ids2 cat.
Proof. intros Hsame. apply list_filter_iff. intros s. apply Hsame. Qed.

Lemma postOpp_selects_skills P m body ids (h : heap) st :
  snapshot m h = Some st ->
  selects body ids ->
  ∃ h' o,
    postOpp P m body h = (Ok (S (List.length h)), h') ∧
    viewOpportunity h' (S (List.length h)) = Some o ∧
    Opportunity.id o = uid P ∧
    Opportunity.skills o = catalog_filter ids (store_skills st) ∧
    snapshot m h' =
      Some {| store_skills := store_skills st;
              store_opportunities := o :: store_opportunities st;
              store_users := store_users st |}.
Proof.
  intros Hst Hsel. destruct (snapshot_inv _ _ _ Hst) as (Hsk & _ & _).
  destruct (chooseSkills_selects m body h _ ids Hsel Hsk) as (kept & Hrun & Hkept).
  destruct (selects_get body ids "title" Hsel) as [t Ht].
  destruct (selects_get body ids "description" Hsel) as [d Hd].
  destruct (postOpp_chosen P m body h st kept _ t d Hst Hrun Hkept Ht Hd)
    as (h' & ls & Hpost & Hview & _ & _ & Hsnap & _).
  eexists h', _. split; [exact Hpost|]. split; [exact Hview|].
  split; [reflexivity|]. split; [reflexivity|exact Hsnap].
Qed.

Lemma postUser_selects_skills P m body ids (h : heap) st :
  snapshot m h = Some st ->
  selects body ids ->
  ∃ h' u,
    postUser P m body h = (Ok (S (List.length h)), h') ∧
    viewUser h' (S (List.length h)) = Some u ∧
    User.id u = uid P ∧
    User.skills u = catalog_filter ids (store_skills st) ∧
    snapshot m h' =
      Some {| store_skills := store_skills st;
              store_opportunities := store_opportunities st;
              store_users := store_users st ++ [u] |}.
Proof.
  intros Hst Hsel. destruct (snapshot_inv _ _ _ Hst) as (Hsk & _ & _).
  destruct (chooseSkills_selects m body h _ ids Hsel Hsk) as (kept & Hrun & Hkept).
  destruct (selects_get body ids "name" Hsel) as [n Hn].
  destruct (selects_get body ids "email" Hsel) as [e He].
  destruct (postUser_chosen P m body h st kept _ n e Hst Hrun Hkept Hn He)
    as (h' & ls & Hpost & Hview & _ & _ & Hsnap & _).
  eexists h', _. split; [exact Hpost|]. split; [exact Hview|].
  split; [reflexivity|]. split; [reflexivity|exact Hsnap].
Qed.

(** X10.  The skills of a created record depend only on which ids the
    list holds, not on their order or on repetitions: an opportunity and
    a user created from two lists with the same elements get the same
    skills, a sub-sequence of the catalog. *)
Theorem selection_ignores_order_and_repeats P m body1 body2 ids1 ids2 (h : heap) st :
  snapshot m h = Some st ->
  selects body1 ids1 ->
  selects body2 ids2 ->
  (forall x, x ∈ ids1 <-> x ∈ ids2) ->
  ∃ r1 h1 o r2 h2 u,
    postOpp P m body1 h = (Ok r1, h1) ∧ viewOpportunity h1 r1 = Some o ∧
    postUser P m body2 h = (Ok r2, h2) ∧ viewUser h2 r2 = Some u ∧
    Opportunity.skills o = User.skills u ∧
    Opportunity.skills o `sublist_of` store_skills st.
Proof.
  intros Hst Hsel1 Hsel2 Hsame.
  destruct (postOpp_selects_skills P m body1 ids1 h st Hst Hsel1)
    as (h1 & o & Hpost & Hview & _ & Hskills & _).
  destruct (postUser_selects_skills P m body2 ids2 h st Hst Hsel2)
    as (h2 & u & Hpost' & Hview' & _ & Hskills' & _).
  exists (S (List.length h)), h1, o, (S (List.length h)), h2, u.
  repeat (split; [assumption|]). split.
  - rewrite Hskills, Hskills'. now apply catalog_filter_same.
  - rewrite Hskills. apply sublist_filter.
Qed.

Lemma selection_ignores_order_and_repeats_witness :
  let P := example_platform "new-id" "2024-05-01T13:00:00.000Z" in
  ∃ r1 h1 o r2 h2 u,
    postOpp P example_mock
        (opportunity_body "T" "D" ["skill-H"; "skill-B"; "skill-H"]) example_heap
      = (Ok r1, h1) ∧
    viewOpportunity h1 r1 = Some o ∧
    postUser P example_mock (user_body "N" "E" ["skill-B"; "skill-H"]) example_heap
      = (Ok r2, h2) ∧
    viewUser h2 r2 = Some u ∧
    Opportunity.skills o = User.skills u ∧
    Opportunity.skills o `sublist_of` store_skills example_store.
Proof.
  intros P.
  apply (selection_ignores_order_and_repeats P example_mock
           (opportunity_body "T" "D" ["skill-H"; "skill-B"; "skill-H"])
           (user_body "N" "E" ["skill-B"; "skill-H"])
           ["skill-H"; "skill-B"; "skill-H"] ["skill-B"; "skill-H"]
           example_heap example_store example_snapshot).
  - eexists. split; reflexivity.
  - eexists. split; reflexivity.
  - intros x. rewrite !elem_of_cons, elem_of_nil. tauto.
Defined.

(** ** The range of a score *)

Lemma filter_length_zero {A} (P : A -> Prop) `{!forall x, Decision (P x)} (l : list A) :
  List.length (filter P l) = 0%nat <-> Forall (fun x => ¬ P x) l.
Proof.
  induction l as [|x l IH]; [split; [constructor|reflexivity]|].
  rewrite filter_cons, Forall_cons. destruct (decide (P x)); simpl.
  - split; [discriminate|tauto].
  - rewrite IH. tauto.
Qed.

Lemma filter_length_all {A} (P : A -> Prop) `{!forall x, Decision (P x)} (l : list A) :
  List.length (filter P l) = List.length l <-> Forall P l.
Proof.
  induction l as [|x l IH]; [split; [constructor|reflexivity]|].
  rewrite filter_cons, Forall_cons. pose proof (length_filter P l) as Hle.
  destruct (decide (P x)); simpl.
  - rewrite <- IH. split; [intros [= ->]; tauto|intros [_ ->]; reflexivity].
  - split; [intros Hlen; exfalso; lia|tauto].
Qed.

Lemma overlap_range (u : User.t (list Skill.t)) (o : Opportunity.t (list Skill.t)) :
  0 <= overlap u o <= Z.of_nat (List.length (Opportunity.skills o)) ∧
  (overlap u o = 0 <->
   Forall (fun s => Skill.id s ∉ skill_ids (User.skills u)) (Opportunity.skills o)) ∧
  (overlap u o = Z.of_nat (List.length (Opportunity.skills o)) <->
   Forall (fun s => Skill.id s ∈ skill_ids (User.skills u)) (Opportunity.skills o)).
Proof.
  unfold overlap.
  pose proof (length_filter (fun s => Skill.id s ∈ skill_ids (User.skills u))
                (Opportunity.skills o)) as Hle.
  split; [lia|]. split.
  - rewrite <- (filter_length_zero (fun s => Skill.id s ∈ skill_ids (User.skills u))).
    lia.
  - rewrite <- (filter_length_all (fun s => Skill.id s ∈ skill_ids (User.skills u))).
    lia.
Qed.

(** X11.  For the id of a stored user, every entry [getMatches] returns
    carries a score between 0 and the number of skills of its
    opportunity; the score is 0 exactly when no skill of the opportunity
    has its id among the user's, and it is the number of skills exactly
    when all of them have. *)
Theorem match_scores_are_in_range m (h : heap) st userId u :
  snapshot m h = Some st ->
  user_with_id userId (store_users st) = Some u ->
  ∃ r h' listing,
    getMatches m (Some userId) h = (Ok r, h') ∧
    viewOpportunities h' r = Some listing ∧
    Forall2 (fun o e =>
      ∃ score,
        Opportunity.matchScore e = Some score ∧
        0 <= score <= Z.of_nat (List.length (Opportunity.skills o)) ∧
        (score = 0 <->
         Forall (fun s => Skill.id s ∉ skill_ids (User.skills u))
                (Opportunity.skills o)) ∧
        (score = Z.of_nat (List.length (Opportunity.skills o)) <->
         Forall (fun s => Skill.id s ∈ skill_ids (User.skills u))
                (Opportunity.skills o)))
      (store_opportunities st) listing.
Proof.
  intros Hst Hu.
  destruct (getMatches_found m h st userId u Hst Hu)
    as (r & rs & h' & Hrun & _ & _ & _ & _ & Hview).
  eexists r, h', _. split; [exact Hrun|]. split; [exact Hview|].
  apply Forall2_fmap_r, Forall_Forall2_diag, Forall_forall.
  intros o _. exists (overlap u o). split; [reflexivity|]. apply overlap_range.
Qed.

Lemma match_scores_are_in_range_witness :
  ∃ u r h' listing,
    user_with_id "u1" (store_users abc_store) = Some u ∧
    getMatches abc_mock (Some "u1") abc_heap = (Ok r, h') ∧
    viewOpportunities h' r = Some listing ∧
    Forall2 (fun o e =>
      ∃ score,
        Opportunity.matchScore e = Some score ∧
        0 <= score <= Z.of_nat (List.length (Opportunity.skills o)) ∧
        (score = 0 <->
         Forall (fun s => Skill.id s ∉ skill_ids (User.skills u))
                (Opportunity.skills o)) ∧
        (score = Z.of_nat (List.length (Opportunity.skills o)) <->
         Forall (fun s => Skill.id s ∈ skill_ids (User.skills u))
                (Opportunity.skills o)))
      (store_opportunities abc_store) listing.
Proof.
  eexists. 
  assert (Hu : user_with_id "u1" (store_users abc_store)
               = Some (User.Build "u1" (VStr "Ann") (VStr "ann@example.com")
                         [Skill.Build "A" "a"; Skill.Build "B" "b"]))
    by reflexivity.
  destruct (match_scores_are_in_range abc_mock abc_heap abc_store "u1" _
              abc_snapshot Hu) as (r & h' & listing & H).
  exists r, h', listing. split; [exact Hu|exact H].
Defined.

(** ** A user and an opportunity with the same skills *)

Lemma user_with_id_last userId (us : list (User.t (list Skill.t))) u :
  userId ∉ (User.id <$> us) ->
  User.id u = userId ->
  user_with_id userId (us ++ [u]) = Some u.
Proof.
  intros Hnot Hid. induction us as [|x us IH]; unfold user_with_id; simpl.
  - rewrite Hid, String.eqb_refl. reflexivity.
  - rewrite fmap_cons, not_elem_of_cons in Hnot. destruct Hnot as [Hne Hnot].
    destruct (String.eqb_spec (User.id x) userId) as [Heq|_]; [congruence|].
    now apply IH.
Qed.

(** X12.  The creation calls and the matching agree: after a user is
    created from a list of ids, under an id that no stored user has, and
    then an opportunity from a list with the same ids, the matches of
    that user start with the new opportunity, and its score is the number
    of its skills (every skill of it counts). *)
Theorem created_pair_matches_fully P1 P2 m body1 body2 ids (h : heap) st :
  snapshot m h = Some st ->
  selects body1 ids ->
  selects body2 ids ->
  ¬ existing_user_id (uid P1) st ->
  ∃ r1 h1 r2 h2 r h3 o rest,
    postUser P1 m body1 h = (Ok r1, h1) ∧
    postOpp P2 m body2 h1 = (Ok r2, h2) ∧
    getMatches m (Some (uid P1)) h2 = (Ok r, h3) ∧
    viewOpportunities h3 r = Some (o :: rest) ∧
    Opportunity.id o = uid P2 ∧
    Opportunity.skills o = catalog_filter ids (store_skills st) ∧
    Opportunity.matchScore o
      = Some (Z.of_nat (List.length (Opportunity.skills o))).
Proof.
  intros Hst Hsel1 Hsel2 Hnew.
  destruct (postUser_selects_skills P1 m body1 ids h st Hst Hsel1)
    as (h1 & u & Hpost1 & _ & Hid & Hsk1 & Hst1).
  destruct (postOpp_selects_skills P2 m body2 ids h1 _ Hst1 Hsel2)
    as (h2 & o & Hpost2 & _ & Hid2 & Hsk2 & Hst2).
  simpl in Hsk2, Hst2.
  assert (Hu : user_with_id (uid P1) (store_users st ++ [u]) = Some u)
    by now apply user_with_id_last.
  destruct (getMatches_found m h2 _ (uid P1) u Hst2 Hu)
    as (r & rs & h3 & Hrun & _ & _ & _ & _ & Hview).
  simpl in Hview.
  eexists _, h1, _, h2, r, h3, _, _.
  split; [exact Hpost1|]. split; [exact Hpost2|]. split; [exact Hrun|].
  split; [exact Hview|]. split; [exact Hid2|]. split; [exact Hsk2|].
  simpl. f_equal. apply overlap_range.
  rewrite Hsk1, Hsk2. apply Forall_forall. intros s Hs.
  now apply list_elem_of_fmap_2.
Qed.

Lemma created_pair_matches_fully_witness :
  let P1 := example_platform "carol" "2024-05-01T13:00:00.000Z" in
  let P2 := example_platform "job" "2024-05-01T13:05:00.000Z" in
  let ids := ["skill-E"; "skill-A"; "skill-Z"] in
  ∃ r1 h1 r2 h2 r h3 o rest,
    postUser P1 example_mock (user_body "Carol" "carol@example.com" ids) example_heap
      = (Ok r1, h1) ∧
    postOpp P2 example_mock (opportunity_body "T" "D" ids) h1 = (Ok r2, h2) ∧
    getMatches example_mock (Some (uid P1)) h2 = (Ok r, h3) ∧
    viewOpportunities h3 r = Some (o :: rest) ∧
    Opportunity.id o = uid P2 ∧
    Opportunity.skills o = catalog_filter ids (store_skills example_store) ∧
    Opportunity.matchScore o
      = Some (Z.of_nat (List.length (Opportunity.skills o))).
Proof.
  intros P1 P2 ids.
  apply (created_pair_matches_fully P1 P2 example_mock
           (user_body "Carol" "carol@example.com" ids)
           (opportunity_body "T" "D" ids) ids example_heap example_store
           example_snapshot).
  - eexists. split; reflexivity.
  - eexists. split; reflexivity.
  - vm_compute. intros H.
    repeat (apply elem_of_cons in H as [H|H]; [discriminate|]).
    now apply elem_of_nil in H.
Defined.

(** ** What a caller holds after a later creation *)

(** X13.  [getUsers] returns the stored array itself, not a copy: the
    array a caller received before a [postUser] reads, after it, as the
    former users followed by the new one. *)
Theorem getUsers_result_sees_later_users P m body ids (h : heap) st :
  snapshot m h = Some st ->
  selects body ids ->
  ∃ r r' h' u,
    getUsers m h = (Ok r, h) ∧
    viewUsers h r = Some (store_users st) ∧
    postUser P m body h = (Ok r', h') ∧
    viewUser h' r' = Some u ∧
    viewUsers h' r = Some (store_users st ++ [u]).
Proof.
  intros Hst Hsel. destruct (snapshot_inv _ _ _ Hst) as (_ & _ & Hus).
  destruct (postUser_selects_skills P m body ids h st Hst Hsel)
    as (h' & u & Hpost & Hview & _ & _ & Hst').
  destruct (snapshot_inv _ _ _ Hst') as (_ & _ & Hus').
  exists (users m), (S (List.length h)), h', u.
  split; [reflexivity|]. split; [exact Hus|]. split; [exact Hpost|].
  split; [exact Hview|exact Hus'].
Qed.

Lemma getUsers_result_sees_later_users_witness :
  let P := example_platform "carol" "2024-05-01T13:00:00.000Z" in
  ∃ r r' h' u,
    getUsers example_mock example_heap = (Ok r, example_heap) ∧
    viewUsers example_heap r = Some (store_users example_store) ∧
    postUser P example_mock (user_body "Carol" "carol@example.com" []) example_heap
      = (Ok r', h') ∧
    viewUser h' r' = Some u ∧
    viewUsers h' r = Some (store_users example_store ++ [u]).
Proof.
  intros P.
  apply (getUsers_result_sees_later_users P example_mock
           (user_body "Carol" "carol@example.com" []) [] example_heap example_store
           example_snapshot).
  eexists. split; reflexivity.
Defined.

Section Agree.
Context (h h' : heap) (p : loc) (old : list loc).
Context (Hp : h !! p = Some (CArray TOpportunity old)).
Context (Hagree : forall l c, l ≠ p -> h !! l = Some c -> h' !! l = Some c).

Lemma agree_viewSkill l s : viewSkill h l = Some s -> viewSkill h' l = Some s.
Proof.
  unfold viewSkill. destruct (h !! l) as [c|] eqn:E; [|discriminate].
  destruct (decide (l = p)) as [->|Hne].
  - rewrite Hp in E. injection E as <-. discriminate.
  - now rewrite (Hagree l c Hne E).
Qed.

Lemma agree_viewArray t a ls :
  a ≠ p -> viewArray t h a = Some ls -> viewArray t h' a = Some ls.
Proof.
  intros Hne. unfold viewArray. destruct (h !! a) as [c|] eqn:E; [|discriminate].
  now rewrite (Hagree a c Hne E).
Qed.

Lemma agree_viewSkills a ss : viewSkills h a = Some ss -> viewSkills h' a = Some ss.
Proof.
  intros H. destruct (viewSkills_inv _ _ _ H) as (ls & Harr & Hls).
  unfold viewSkills. rewrite (agree_viewArray TSkill a ls); [|intros ->|exact Harr].
  - simpl. revert Hls. apply mapM_mono. apply agree_viewSkill.
  - apply viewArray_cell in Harr. rewrite Hp in Harr. discriminate.
Qed.

Lemma agree_viewOpportunity l o :
  viewOpportunity h l = Some o -> viewOpportunity h' l = Some o.
Proof.
  intros H. destruct (viewOpportunity_inv _ _ _ H) as (c & Hc & Hsk & Heq).
  assert (Hne : l ≠ p) by (intros ->; rewrite Hp in Hc; discriminate).
  unfold viewOpportunity. rewrite (Hagree l _ Hne Hc), (agree_viewSkills _ _ Hsk).
  simpl. now rewrite Heq.
Qed.

Lemma agree_viewOpportunities a os :
  a ≠ p -> viewOpportunities h a = Some os -> viewOpportunities h' a = Some os.
Proof.
  intros Hne H. destruct (viewOpportunities_inv _ _ _ H) as (ls & Harr & Hls).
  unfold viewOpportunities. rewrite (agree_viewArray _ _ _ Hne Harr). simpl.
  revert Hls. apply mapM_mono. apply agree_viewOpportunity.
Qed.
End Agree.

Lemma sort_fst_perm (ps : list (loc * Opportunity.t loc)) cmp :
  fst <$> sort cmp ps ≡ₚ fst <$> ps.
Proof. now rewrite sort_perm. Qed.

(** X14.  [getOpps] returns a copy of the collection that holds the
    stored records themselves: its elements are the stored references, in
    another order at most, and the array is not touched by a later
    [postOpp]: it still reads as the listing it was, without the new
    record. *)
Theorem getOpps_result_is_a_snapshot P m body ids (h : heap) st :
  snapshot m h = Some st ->
  selects body ids ->
  ∃ r h1 r' h2 stored listed,
    getOpps m h = (Ok r, h1) ∧
    viewArray TOpportunity h (opportunities m) = Some stored ∧
    viewArray TOpportunity h1 r = Some listed ∧
    listed ≡ₚ stored ∧
    postOpp P m body h1 = (Ok r', h2) ∧
    (r' ∉ listed) ∧
    viewArray TOpportunity h2 r = Some listed ∧
    viewOpportunities h2 r = Some (sort newest_first (store_opportunities st)).
Proof.
  intros Hst Hsel. destruct (snapshot_inv _ _ _ Hst) as (Hsk & Hop & _).
  destruct (viewOpportunities_inv _ _ _ Hop) as (stored & Harr & Hls).
  destruct (getOpps_refs m h st stored Hst Harr) as (ps & Hfst & _ & Hrun).
  destruct (getOpps_view m h st Hst) as (h1 & Hrun' & Hext & Hview).
  rewrite Hrun in Hrun'. injection Hrun' as <-.
  set (listed := fst <$> sort (fun x y : loc * Opportunity.t loc =>
                                 newest_first (snd x) (snd y)) ps) in *.
  set (h1 := h ++ [CArray TOpportunity listed]) in *.
  assert (Hst1 : snapshot m h1 = Some st) by (eapply snapshot_mono; eauto).
  assert (Harr1 : viewArray TOpportunity h1 (opportunities m) = Some stored)
    by (eapply viewArray_mono; eauto).
  destruct (snapshot_inv _ _ _ Hst1) as (Hsk1 & _ & _).
  destruct (chooseSkills_selects m body h1 _ ids Hsel Hsk1) as (kept & Hchoose & Hkept).
  destruct (selects_get body ids "title" Hsel) as [t Ht].
  destruct (selects_get body ids "description" Hsel) as [d Hd].
  destruct (postOpp_chosen P m body h1 st kept _ t d Hst1 Hchoose Hkept Ht Hd)
    as (h2 & ls' & Hpost & _ & _ & _ & _ & Hframe).
  assert (Hperm : listed ≡ₚ stored).
  { unfold listed. rewrite sort_fst_perm. now rewrite Hfst. }
  assert (Hne : List.length h ≠ opportunities m).
  { apply viewArray_lt in Harr. lia. }
  exists (List.length h), h1, (S (List.length h1)), h2, stored, listed.
  split; [exact Hrun|]. split; [exact Harr|].
  split; [apply new_array_view|]. split; [exact Hperm|]. split; [exact Hpost|].
  split; [|split].
  - rewrite Hperm. apply fresh_not_in.
    eapply Forall_impl; [exact (mapM_lt _ _ _ _ (viewOpportunity_lt h) Hls)|].
    intros l Hl. unfold h1. rewrite length_app. simpl in *. lia.
  - apply (agree_viewArray h1 h2 (opportunities m) Hframe); [exact Hne|].
    apply new_array_view.
  - apply (agree_viewOpportunities h1 h2 (opportunities m) stored
             (viewArray_cell _ _ _ _ Harr1) Hframe); [exact Hne|exact Hview].
Qed.

Lemma getOpps_result_is_a_snapshot_witness :
  let P := example_platform "job" "2024-05-01T13:00:00.000Z" in
  ∃ r h1 r' h2 stored listed,
    getOpps example_mock example_heap = (Ok r, h1) ∧
    viewArray TOpportunity example_heap (opportunities example_mock) = Some stored ∧
    viewArray TOpportunity h1 r = Some listed ∧
    listed ≡ₚ stored ∧
    postOpp P example_mock (opportunity_body "T" "D" []) h1 = (Ok r', h2) ∧
    (r' ∉ listed) ∧
    viewArray TOpportunity h2 r = Some listed ∧
    viewOpportunities h2 r
      = Some (sort newest_first (store_opportunities example_store)).
Proof.
  intros P.
  apply (getOpps_result_is_a_snapshot P example_mock (opportunity_body "T" "D" []) []
           example_heap example_store example_snapshot).
  eexists. split; reflexivity.
Defined.

(** ** A collection that is already in listing order *)

Lemma sort_sorted_id {A} (cmp : A -> A -> Z) (l : list A) :
  Sorted (in_order cmp) l -> sort cmp l = l.
Proof.
  induction 1 as [|x l Hl IH Hx]; [reflexivity|].
  unfold sort in *. simpl. rewrite IH.
  destruct Hx as [|y l Hxy]; [reflexivity|]. simpl.
  unfold in_order in Hxy. destruct (0 <? cmp x y) eqn:E; [lia|reflexivity].
Qed.

(** X15.  [postOpp] puts the new record at the front, so a collection
    that is in order from the newest to the oldest stays in that order
    when the new timestamp is not earlier than the stored ones; and on
    such a collection [getOpps] returns the opportunities exactly in the
    order in which they are stored. *)
Theorem newest_first_store_stays_in_order P m body ids (h : heap) st :
  snapshot m h = Some st ->
  newest_to_oldest (store_opportunities st) ->
  (∃ r h', getOpps m h = (Ok r, h') ∧
           viewOpportunities h' r = Some (store_opportunities st)) ∧
  (selects body ids -> none_later (now P) st ->
   ∃ r h' st',
     postOpp P m body h = (Ok r, h') ∧
     snapshot m h' = Some st' ∧
     newest_to_oldest (store_opportunities st') ∧
     none_later (now P) st').
Proof.
  intros Hst Hsorted. split.
  - destruct (getOpps_view m h st Hst) as (h' & Hrun & _ & Hview).
    exists (List.length h), h'. split; [exact Hrun|].
    rewrite Hview. f_equal. apply sort_sorted_id. exact Hsorted.
  - intros Hsel Hold. destruct (snapshot_inv _ _ _ Hst) as (_ & Hop & _).
    destruct (viewOpportunities_inv _ _ _ Hop) as (ls & Harr & _).
    destruct (postOpp_selects P m body ids h st ls Hst Hsel Harr)
      as (h' & o & Hpost & _ & Hat & _ & Hst').
    eexists _, h', _. split; [exact Hpost|]. split; [exact Hst'|].
    unfold newest_to_oldest, none_later in *. simpl. split.
    + constructor; [exact Hsorted|].
      destruct Hold as [|y l Hy _]; constructor. now rewrite Hat.
    + constructor; [|exact Hold]. rewrite Hat. apply not_later_refl.
Qed.

Lemma newest_first_store_stays_in_order_witness :
  let P := example_platform "job" "2024-05-01T12:00:00.000Z" in
  newest_to_oldest (store_opportunities example_store) ∧
  none_later (now P) example_store ∧
  (∃ r h', getOpps example_mock example_heap = (Ok r, h') ∧
           viewOpportunities h' r = Some (store_opportunities example_store)) ∧
  (∃ r h' st',
     postOpp P example_mock (opportunity_body "T" "D" []) example_heap = (Ok r, h') ∧
     snapshot example_mock h' = Some st' ∧
     newest_to_oldest (store_opportunities st') ∧
     none_later (now P) st').
Proof.
  intros P.
  assert (Hsorted : newest_to_oldest (store_opportunities example_store)).
  { repeat constructor; vm_compute; discriminate. }
  assert (Hold : none_later (now P) example_store).
  { repeat constructor; vm_compute; discriminate. }
  split; [exact Hsorted|]. split; [exact Hold|].
  destruct (newest_first_store_stays_in_order P example_mock
              (opportunity_body "T" "D" []) [] example_heap example_store
              example_snapshot Hsorted) as [Hlist Hpost].
  split; [exact Hlist|]. apply Hpost; [|exact Hold].
  eexists. split; reflexivity.
Defined.

(** ** The GET routes *)

(** X16.  On every store the application can reach, in mock mode, a GET
    that the router recognises never fails when its body is absent or
    parses: it returns a reference and leaves the three collections as
    they were (it only allocates). *)
Theorem routed_GET_always_answers b cfg P m path options (h : heap) body :
  reachable b m h ->
  USE_MOCK cfg = true ->
  request_method options = "GET" ->
  request_body P options = Ok body ->
  routed "GET" path = true ->
  ∃ r h' st,
    api cfg P m path options h = (Ok (Ref r), h') ∧
    h `prefix_of` h' ∧
    snapshot m h = Some st ∧
    snapshot m h' = Some st.
Proof.
  intros Hreach Hmock Hmethod Hbody Hrouted.
  destruct (reachable_store b m h Hreach) as (st & Hst & _).
  assert (Hdone : forall c : M loc,
            (∃ r h', c h = (Ok r, h') ∧ h `prefix_of` h') ->
            ∃ r h' st',
              by_ref c h = (Ok (Ref r), h') ∧ h `prefix_of` h' ∧
              snapshot m h = Some st' ∧ snapshot m h' = Some st').
  { intros c (r & h' & Hc & Hext). exists r, h', st.
    split; [now apply by_ref_ok|]. split; [exact Hext|].
    split; [exact Hst|]. eapply snapshot_mono; eauto. }
  unfold api. rewrite Hmock, (bind_lift_ok _ _ _ _ Hbody), Hmethod.
  unfold routed in Hrouted.
  change (String.eqb "GET" "GET") with true in *.
  change (String.eqb "GET" "POST") with false in *.
  rewrite ?andb_true_r, ?andb_false_r, ?orb_false_r in *.
  destruct (String.eqb path "/api/skills").
  { apply Hdone. exists (skills m), h. split; reflexivity. }
  destruct (String.eqb path "/api/opportunities").
  { apply Hdone. destruct (getOpps_view m h st Hst) as (h' & Hrun & Hext & _). eauto. }
  destruct (String.eqb path "/api/users").
  { apply Hdone. exists (users m), h. split; reflexivity. }
  simpl in Hrouted. rewrite Hrouted.
  apply Hdone.
  destruct (getMatches_frame m h st (split "/" path !! 3%nat) Hst)
    as (r & rs & h' & Hrun & Hext & _). eauto.
Qed.

Lemma routed_GET_always_answers_witness :
  ∃ r h' st,
    api mock_mode (example_platform "id" "2024-05-01T13:00:00.000Z") example_mock
        "/api/users/nobody/matches" (Some (bodiless "get")) example_heap
      = (Ok (Ref r), h') ∧
    example_heap `prefix_of` h' ∧
    snapshot example_mock example_heap = Some st ∧
    snapshot example_mock h' = Some st.
Proof.
  apply (routed_GET_always_answers example_boot mock_mode
           (example_platform "id" "2024-05-01T13:00:00.000Z") example_mock
           "/api/users/nobody/matches" (Some (bodiless "get")) example_heap
           VUndefined);
    try reflexivity.
  exists [], example_heap. split; vm_compute; reflexivity.
Defined.

(** ** Live mode *)

(** X17.  In live mode the call never looks at the mock store nor
    changes it, and never returns a reference into it; besides a
    non-success status it fails in three ways, each time with the error of
    the platform: [fetch] rejects, [res.text()] rejects on a non-success
    response, [res.json()] rejects on a success response. *)
Theorem live_call_leaves_the_mock_alone cfg P m path options (h : heap) :
  USE_MOCK cfg = false ->
  snd (api cfg P m path options h) = h ∧
  (forall m' (h' : heap),
     fst (api cfg P m' path options h') = fst (api cfg P m path options h)) ∧
  (forall l, fst (api cfg P m path options h) = Ok (Ref l) -> False) ∧
  (forall e, fetch P (API_URL cfg +:+ path) (fetch_init options) = Throw e ->
     fst (api cfg P m path options h) = Throw e) ∧
  (forall r e, fetch P (API_URL cfg +:+ path) (fetch_init options) = Ok r ->
     ok r = false -> text r = Throw e ->
     fst (api cfg P m path options h) = Throw e) ∧
  (forall r e, fetch P (API_URL cfg +:+ path) (fetch_init options) = Ok r ->
     ok r = true -> json r = Throw e ->
     fst (api cfg P m path options h) = Throw e).
Proof.
  intros Hlive. unfold api, bind, lift, ret, throw. rewrite Hlive.
  destruct (fetch P (API_URL cfg +:+ path) (fetch_init options)) as [r|e].
  - destruct (ok r) eqn:Hok; simpl.
    + destruct (json r) as [v|e] eqn:Hj; simpl;
        (split; [|split; [|split; [|split; [|split]]]]);
        intros; simplify_eq; try reflexivity; congruence.
    + destruct (text r) as [t|e] eqn:Ht; simpl;
        (split; [|split; [|split; [|split; [|split]]]]);
        intros; simplify_eq; try reflexivity; congruence.
  - simpl. (split; [|split; [|split; [|split; [|split]]]]);
      intros; simplify_eq; try reflexivity; congruence.
Qed.

Lemma live_call_leaves_the_mock_alone_witness :
  let cfg := live_mode "http://localhost:5000" in
  let P := example_platform "id" "2024-05-01T13:00:00.000Z" in
  snd (api cfg P example_mock "/api/skills" None example_heap) = example_heap ∧
  fst (api cfg P example_mock "/api/skills" None example_heap)
    = Throw (Rejected "Failed to fetch").
Proof.
  intros cfg P.
  destruct (live_call_leaves_the_mock_alone cfg P example_mock "/api/skills" None
              example_heap eq_refl) as (Hsame & _ & _ & Hfetch & _).
  split; [exact Hsame|]. apply Hfetch. reflexivity.
Defined.

(** ** The configuration *)

Lemma lower_upper_ascii c : lower_ascii (upper_ascii c) = lower_ascii c.
Proof. destruct c as [[] [] [] [] [] [] [] []]; reflexivity. Qed.

Lemma toLowerCase_upper s : toLowerCase (toUpperCase s) = toLowerCase s.
Proof.
  induction s as [|c s IH]; simpl; [reflexivity|].
  now rewrite lower_upper_ascii, IH.
Qed.

(** X18.  The configuration read at load time: the base URL is never
    empty (an unset or empty [VITE_API_URL] gives the local default); the
    mock is used exactly when [VITE_USE_MOCK] is set to [1] or to [true]
    in any mix of upper and lower case, so an unset variable means live
    mode. *)
Theorem config_defaults_and_flag e :
  (API_URL (config_of e) = "" -> False) ∧
  (VITE_API_URL e = None ∨ VITE_API_URL e = Some "" ->
   API_URL (config_of e) = "http://localhost:5000") ∧
  (USE_MOCK (config_of e) = true <->
   ∃ s, VITE_USE_MOCK e = Some s ∧ (toLowerCase s = "1" ∨ toLowerCase s = "true")) ∧
  (forall url s,
     USE_MOCK (config_of {| VITE_API_URL := url; VITE_USE_MOCK := Some (toUpperCase s) |})
     = USE_MOCK (config_of {| VITE_API_URL := url; VITE_USE_MOCK := Some s |})).
Proof.
  split; [|split; [|split]].
  - unfold config_of. simpl. destruct (VITE_API_URL e) as [s|]; [|discriminate].
    destruct (String.eqb_spec s ""); [discriminate|congruence].
  - unfold config_of. simpl. intros [->| ->]; reflexivity.
  - unfold config_of. simpl. rewrite orb_true_iff, !String.eqb_eq.
    destruct (VITE_USE_MOCK e) as [s|]; simpl.
    + split; [intros H; now exists s|intros (s' & [= <-] & H); exact H].
    + split; [intros [H|H]; discriminate|intros (s' & [=] & _)].
  - intros url s. unfold config_of. simpl. now rewrite toLowerCase_upper.
Qed.

(** ** The skill pickers *)

Lemma toggle_member id xs : id ∈ toggle id xs <-> id ∉ xs.
Proof.
  unfold toggle. destruct (bool_decide_reflect (id ∈ xs)) as [Hin|Hin].
  - rewrite list_elem_of_filter. tauto.
  - rewrite elem_of_app, list_elem_of_singleton. tauto.
Qed.

Lemma toggle_others id xs y : y ≠ id -> (y ∈ toggle id xs <-> y ∈ xs).
Proof.
  intros Hne. unfold toggle. destruct (bool_decide (id ∈ xs)).
  - rewrite list_elem_of_filter. tauto.
  - rewrite elem_of_app, list_elem_of_singleton. tauto.
Qed.

Lemma toggle_NoDup id xs : NoDup xs -> NoDup (toggle id xs).
Proof.
  intros Hnd. unfold toggle. destruct (bool_decide_reflect (id ∈ xs)) as [Hin|Hin].
  - now apply NoDup_filter.
  - apply NoDup_app. split; [exact Hnd|]. split; [|apply NoDup_singleton].
    intros x Hx Hx'. apply list_elem_of_singleton in Hx'. congruence.
Qed.

Lemma filter_absent (id : string) (xs : list string) :
  id ∉ xs -> filter (fun x => x ≠ id) xs = xs.
Proof.
  induction xs as [|x xs IH]; [reflexivity|].
  rewrite not_elem_of_cons. intros [Hne Hnot].
  rewrite filter_cons_True by congruence. now rewrite IH.
Qed.

Lemma toggle_twice id xs : id ∉ xs -> toggle id (toggle id xs) = xs.
Proof.
  intros Hnot. unfold toggle at 2. rewrite bool_decide_eq_false_2 by exact Hnot.
  unfold toggle. rewrite bool_decide_eq_true_2.
  - rewrite filter_app, (filter_absent id xs Hnot).
    rewrite filter_cons_False by tauto. apply app_nil_r.
  - rewrite elem_of_app, list_elem_of_singleton. now right.
Qed.

(** X19.  A click on a skill button flips that skill in the selection and
    no other: after [toggle] the id is selected exactly when it was not,
    every other id is selected exactly when it was, a selection without
    repetition stays without repetition, and clicking twice on an id that
    was not selected gives the selection back as it was. *)
Theorem toggle_flips_one_id id xs :
  (id ∈ toggle id xs <-> id ∉ xs) ∧
  (forall y, y ≠ id -> (y ∈ toggle id xs <-> y ∈ xs)) ∧
  (NoDup xs -> NoDup (toggle id xs)) ∧
  (id ∉ xs -> toggle id (toggle id xs) = xs).
Proof.
  split; [apply toggle_member|]. split; [intros y; apply toggle_others|].
  split; [apply toggle_NoDup|apply toggle_twice].
Qed.

Lemma foldl_toggle_NoDup clicks xs :
  NoDup xs -> NoDup (foldl (fun xs id => toggle id xs) xs clicks).
Proof.
  revert xs. induction clicks as [|c clicks IH]; intros xs Hnd; [exact Hnd|].
  simpl. apply IH. now apply toggle_NoDup.
Qed.

Lemma clicks_on_cons id c clicks :
  clicks_on id (c :: clicks)
  = if decide (c = id) then S (clicks_on id clicks) else clicks_on id clicks.
Proof. unfold clicks_on. rewrite filter_cons. now destruct (decide (c = id)). Qed.

Lemma foldl_toggle_member id clicks xs :
  bool_decide (id ∈ foldl (fun xs id => toggle id xs) xs clicks)
  = xorb (bool_decide (id ∈ xs)) (Nat.odd (clicks_on id clicks)).
Proof.
  revert xs. induction clicks as [|c clicks IH]; intros xs.
  - simpl. now destruct (bool_decide (id ∈ xs)).
  - simpl foldl. rewrite IH, clicks_on_cons. destruct (decide (c = id)) as [->|Hne].
    + rewrite Nat.odd_succ, <- Nat.negb_odd.
      rewrite (bool_decide_ext _ _ (toggle_member id xs)).
      rewrite bool_decide_not.
      destruct (bool_decide (id ∈ xs)), (Nat.odd (clicks_on id clicks)); reflexivity.
    + now rewrite (bool_decide_ext _ _ (toggle_others c xs id (not_eq_sym Hne))).
Qed.

(** X20.  Whatever the sequence of clicks since the form was opened, the
    selection holds no id twice, and it holds exactly the ids that were
    clicked an odd number of times. *)
Theorem selection_after_clicks clicks :
  NoDup (selected_after clicks) ∧
  (forall id, id ∈ selected_after clicks <-> Nat.odd (clicks_on id clicks) = true).
Proof.
  split.
  - apply foldl_toggle_NoDup. constructor.
  - intros id. unfold selected_after.
    rewrite <- (bool_decide_eq_true (id ∈ _)), foldl_toggle_member.
    rewrite bool_decide_eq_false_2 by apply not_elem_of_nil. reflexivity.
Qed.

(** ** Loading the module *)

(** X21.  Loading the module never fails, whatever ids [uid()] returns
    (equal ones included): every skill the seed records look up by name
    is in the catalog, so the store starts with the nine named skills,
    three opportunities without a score and two users, all of whose
    skills are catalog skills. *)
Theorem module_load_always_succeeds b :
  ∃ m h0 st0,
    mock_init b [] = (Ok m, h0) ∧
    snapshot m h0 = Some st0 ∧
    Skill.name <$> store_skills st0 = skillNames ∧
    store_skills st0 = seed_skills b ∧
    List.length (store_opportunities st0) = 3%nat ∧
    List.length (store_users st0) = 2%nat ∧
    unscored st0 ∧
    within (seed_skills b) st0.
Proof.
  destruct (mock_init_within b) as (m & h0 & st0 & Hinit & Hst & Hsk & Hin).
  destruct (mock_init_ok b) as (m' & h0' & st0' & Hinit' & Hst' & _ & Hun).
  rewrite Hinit in Hinit'. injection Hinit' as <- <-.
  rewrite Hst in Hst'. injection Hst' as <-.
  exists m, h0, st0. split; [exact Hinit|]. split; [exact Hst|].
  split; [now rewrite Hsk|]. split; [exact Hsk|].
  assert (Hlen : snapshot m h0 = Some st0 ->
                 mock_init b [] = (Ok m, h0) ->
                 List.length (store_opportunities st0) = 3%nat ∧
                 List.length (store_users st0) = 2%nat).
  { intros H1 H2. cbv in H2. injection H2 as <- <-. cbv in H1.
    injection H1 as <-. split; reflexivity. }
  destruct (Hlen Hst Hinit) as [H3 H2].
  split; [exact H3|]. split; [exact H2|]. split; [exact Hun|exact Hin].
Qed.

(** ** The forms *)

Lemma request_body_post P text body :
  text ≠ "" -> JSON_parse P text = Ok body -> request_body P (post text) = Ok body.
Proof.
  intros Hne Hparse. unfold request_body, post. simpl.
  destruct (String.eqb_spec text ""); [contradiction|exact Hparse].
Qed.

Lemma api_post_opportunities cfg P m text body (h : heap) :
  USE_MOCK cfg = true -> text ≠ "" -> JSON_parse P text = Ok body ->
  api cfg P m "/api/opportunities" (post text) h = by_ref (postOpp P m body) h.
Proof.
  intros Hmock Hne Hparse. unfold api.
  now rewrite Hmock, (bind_lift_ok _ _ _ _ (request_body_post P text body Hne Hparse)).
Qed.

Lemma api_post_users cfg P m text body (h : heap) :
  USE_MOCK cfg = true -> text ≠ "" -> JSON_parse P text = Ok body ->
  api cfg P m "/api/users" (post text) h = by_ref (postUser P m body) h.
Proof.
  intros Hmock Hne Hparse. unfold api.
  now rewrite Hmock, (bind_lift_ok _ _ _ _ (request_body_post P text body Hne Hparse)).
Qed.

Lemma by_ref_inv (c : M loc) (h : heap) x h' :
  by_ref c h = (x, h') ->
  (∃ r, c h = (Ok r, h') ∧ x = Ok (Ref r)) ∨ (∃ e, c h = (Throw e, h') ∧ x = Throw e).
Proof.
  unfold by_ref, bind, ret. destruct (c h) as [[r|e] h1]; intros [= <- <-]; eauto.
Qed.

(** A call of [api] that fails leaves the three collections as they
    were, in either mode. *)
Lemma api_throw_snapshot cfg P m path options (h : heap) st e h' :
  snapshot m h = Some st ->
  api cfg P m path options h = (Throw e, h') ->
  snapshot m h' = Some st.
Proof.
  intros Hst. unfold api. destruct (USE_MOCK cfg).
  - unfold bind at 1, lift. destruct (request_body P options) as [body|e0];
      [|intros [= <- <-]; exact Hst].
    assert (Hcall : forall c : M loc,
              (forall e1 h1, c h = (Throw e1, h1) -> snapshot m h1 = Some st) ->
              by_ref c h = (Throw e, h') -> snapshot m h' = Some st).
    { intros c Hc Hrun. destruct (by_ref_inv c h _ _ Hrun) as [(r & _ & [=])|(e1 & Hc1 & _)].
      eapply Hc; eauto. }
    repeat match goal with
           | |- (if ?b then _ else _) _ = _ -> _ => destruct b
           end.
    + apply Hcall. intros e1 h1 [=].
    + apply Hcall. intros e1 h1 Hrun.
      destruct (getOpps_view m h st Hst) as (h2 & Hrun' & _). congruence.
    + apply Hcall. intros e1 h1 Hrun.
      destruct (postOpp_outcome P m body h st Hst)
        as [(h2 & o & Hrun' & _)|(h2 & Hrun' & Hext & _)]; [congruence|].
      rewrite Hrun in Hrun'. injection Hrun' as _ <-.
      eapply snapshot_mono; eauto.
    + apply Hcall. intros e1 h1 [=].
    + apply Hcall. intros e1 h1 Hrun.
      destruct (postUser_outcome P m body h st Hst)
        as [(h2 & o & Hrun' & _)|(h2 & Hrun' & Hext & _)]; [congruence|].
      rewrite Hrun in Hrun'. injection Hrun' as _ <-.
      eapply snapshot_mono; eauto.
    + apply Hcall. intros e1 h1 Hrun.
      destruct (getMatches_frame m h st (split "/" path !! 3%nat) Hst)
        as (r & rs & h2 & Hrun' & _). congruence.
    + intros [= <- <-]. exact Hst.
  - unfold bind, lift, throw, ret.
    destruct (fetch P (API_URL cfg +:+ path) (fetch_init options)) as [r|e0];
      [|intros [= <- <-]; exact Hst].
    destruct (negb (ok r)).
    + destruct (text r); intros [= <- <-]; exact Hst.
    + destruct (json r); intros [= <-]; try exact Hst. subst. exact Hst.
Qed.

(** X22.  Saving the opportunity form in mock mode, when [JSON.parse]
    gives back what [JSON.stringify] was given: the store gets, in front,
    an opportunity with the title and the description as typed, the
    selected skills in catalog order, the id and the time of the call,
    and no score; the form is emptied and reads "Created!". *)
Theorem opportunity_form_submit_creates stringify engine cfg P m s (h : heap) st :
  USE_MOCK cfg = true ->
  snapshot m h = Some st ->
  stringify (CreateOpportunity.payload s) ≠ "" ->
  JSON_parse P (stringify (CreateOpportunity.payload s))
    = Ok (CreateOpportunity.payload s) ->
  ∃ h',
    CreateOpportunity.submit stringify engine cfg P m s h
      = (CreateOpportunity.created, h') ∧
    snapshot m h' =
      Some {| store_skills := store_skills st;
              store_opportunities :=
                Opportunity.Build (uid P) (VStr (CreateOpportunity.title s))
                  (VStr (CreateOpportunity.description s)) (now P)
                  (catalog_filter (CreateOpportunity.selected s) (store_skills st))
                  None
                :: store_opportunities st;
              store_users := store_users st |}.
Proof.
  intros Hmock Hst Hne Hparse.
  destruct (snapshot_inv _ _ _ Hst) as (Hsk & _ & _).
  assert (Hsel : selects (CreateOpportunity.payload s) (CreateOpportunity.selected s))
    by (eexists; split; reflexivity).
  destruct (chooseSkills_selects m _ h _ _ Hsel Hsk) as (kept & Hrun & Hkept).
  destruct (postOpp_chosen P m (CreateOpportunity.payload s) h st kept _
              (VStr (CreateOpportunity.title s))
              (VStr (CreateOpportunity.description s))
              Hst Hrun Hkept eq_refl eq_refl)
    as (h' & ls & Hpost & _ & _ & _ & Hsnap & _).
  exists h'. split; [|exact Hsnap].
  unfold CreateOpportunity.submit.
  rewrite (api_post_opportunities cfg P m _ _ h Hmock Hne Hparse).
  now rewrite (by_ref_ok _ _ _ _ Hpost).
Qed.

Lemma opportunity_form_submit_creates_witness :
  let P := parsing "{...}" (opportunity_body "Intern" "A role" ["skill-C"; "skill-A"])
             "new-id" "2024-05-01T13:00:00.000Z" in
  let s := {| CreateOpportunity.title := "Intern";
              CreateOpportunity.description := "A role";
              CreateOpportunity.selected := ["skill-C"; "skill-A"];
              CreateOpportunity.saving := false;
              CreateOpportunity.message := VStr "" |} in
  ∃ h',
    CreateOpportunity.submit (fun _ => "{...}") (fun _ => VUndefined) mock_mode P
        example_mock s example_heap
      = (CreateOpportunity.created, h') ∧
    snapshot example_mock h' =
      Some {| store_skills := store_skills example_store;
              store_opportunities :=
                Opportunity.Build "new-id" (VStr "Intern") (VStr "A role")
                  "2024-05-01T13:00:00.000Z"
                  (catalog_filter ["skill-C"; "skill-A"] (store_skills example_store))
                  None
                :: store_opportunities example_store;
              store_users := store_users example_store |}.
Proof.
  intros P s.
  apply (opportunity_form_submit_creates (fun _ => "{...}") (fun _ => VUndefined)
           mock_mode P example_mock s example_heap example_store);
    solve [reflexivity | exact example_snapshot | discriminate].
Defined.

Lemma or_else_truthy a s : s ≠ "" -> truthy (or_else a (VStr s)) = true.
Proof.
  intros Hne. unfold or_else. destruct (truthy a) eqn:Ha; [exact Ha|].
  simpl. now destruct (String.eqb_spec s "").
Qed.

(** X23.  Saving the opportunity form, in either mode and whatever the
    call does: afterwards [saving] is off and the message is not empty.
    Either the form was emptied and reads "Created!", or the call failed:
    then the title, the description and the selection are as typed and
    the store is unchanged.  In live mode a response that is not ok is
    reported by its text, and by "Error" when the text is empty. *)
Theorem opportunity_form_always_reports stringify engine cfg P m s (h : heap) st :
  snapshot m h = Some st ->
  ∃ s' h',
    CreateOpportunity.submit stringify engine cfg P m s h = (s', h') ∧
    CreateOpportunity.saving s' = false ∧
    truthy (CreateOpportunity.message s') = true ∧
    (s' = CreateOpportunity.created ∨
     (CreateOpportunity.title s' = CreateOpportunity.title s ∧
      CreateOpportunity.description s' = CreateOpportunity.description s ∧
      CreateOpportunity.selected s' = CreateOpportunity.selected s ∧
      snapshot m h' = Some st)) ∧
    (forall r t,
       USE_MOCK cfg = false ->
       fetch P (API_URL cfg +:+ "/api/opportunities")
         (fetch_init (post (stringify (CreateOpportunity.payload s)))) = Ok r ->
       ok r = false ->
       text r = Ok t ->
       CreateOpportunity.message s' = VStr (if String.eqb t "" then "Error" else t)).
Proof.
  intros Hst. unfold CreateOpportunity.submit.
  destruct (api cfg P m "/api/opportunities"
              (post (stringify (CreateOpportunity.payload s))) h)
    as [[r|e] h'] eqn:Hrun.
  - exists CreateOpportunity.created, h'. split; [reflexivity|].
    split; [reflexivity|]. split; [reflexivity|]. split; [now left|].
    intros r' t Hlive Hfetch Hok Ht. exfalso. revert Hrun.
    unfold api, bind, lift, throw. rewrite Hlive, Hfetch, Hok, Ht. discriminate.
  - eexists _, h'. split; [reflexivity|]. simpl.
    split; [reflexivity|]. split; [now apply or_else_truthy|].
    split; [right; repeat (split; [reflexivity|]);
            exact (api_throw_snapshot _ _ _ _ _ _ _ _ _ Hst Hrun)|].
    intros r' t Hlive Hfetch Hok Ht. revert Hrun.
    unfold api, bind, lift, throw. rewrite Hlive, Hfetch, Hok, Ht. simpl.
    intros [= <- <-]. unfold or_else, message_of. simpl.
    now destruct (String.eqb t "").
Qed.

Lemma opportunity_form_always_reports_witness :
  let s := {| CreateOpportunity.title := "Intern";
              CreateOpportunity.description := "A role";
              CreateOpportunity.selected := ["skill-C"];
              CreateOpportunity.saving := false;
              CreateOpportunity.message := VStr "" |} in
  let P := answering {| status := 500; text := Ok ""; json := Throw SyntaxError |} in
  ∃ s' h',
    CreateOpportunity.submit (fun _ => "{...}") (fun _ => VUndefined)
        (live_mode "http://example.org") P example_mock s example_heap = (s', h') ∧
    CreateOpportunity.saving s' = false ∧
    truthy (CreateOpportunity.message s') = true ∧
    (s' = CreateOpportunity.created ∨
     (CreateOpportunity.title s' = CreateOpportunity.title s ∧
      CreateOpportunity.description s' = CreateOpportunity.description s ∧
      CreateOpportunity.selected s' = CreateOpportunity.selected s ∧
      snapshot example_mock h' = Some example_store)) ∧
    (forall r t,
       USE_MOCK (live_mode "http://example.org") = false ->
       fetch P (API_URL (live_mode "http://example.org") +:+ "/api/opportunities")
         (fetch_init (post ((fun _ => "{...}") (CreateOpportunity.payload s)))) = Ok r ->
       ok r = false ->
       text r = Ok t ->
       CreateOpportunity.message s' = VStr (if String.eqb t "" then "Error" else t)).
Proof.
  intros s P.
  exact (opportunity_form_always_reports (fun _ => "{...}") (fun _ => VUndefined)
           (live_mode "http://example.org") P example_mock s example_heap
           example_store example_snapshot).
Defined.

Lemma api_get_users cfg P m (h : heap) :
  USE_MOCK cfg = true -> api cfg P m "/api/users" None h = (Ok (Ref (users m)), h).
Proof. intros Hmock. unfold api. now rewrite Hmock. Qed.

Lemma api_live_heap cfg P m path options (h : heap) :
  USE_MOCK cfg = false -> snd (api cfg P m path options h) = h.
Proof.
  intros Hlive. unfold api, bind, lift, throw, ret. rewrite Hlive.
  destruct (fetch P (API_URL cfg +:+ path) (fetch_init options)) as [r|e]; [|reflexivity].
  destruct (negb (ok r)); [now destruct (text r)|now destruct (json r)].
Qed.

(** X24.  Adding a user from the form in mock mode, when [JSON.parse]
    gives back what [JSON.stringify] was given: the store gets, at the
    end, a user with the name and the email as typed, the selected skills
    in catalog order and the id of the call; the form is emptied, and the
    list the component then holds is the stored array, which reads as the
    former users followed by the new one. *)
Theorem user_form_submit_adds_and_refreshes stringify cfg P1 P2 m s (h : heap) st :
  USE_MOCK cfg = true ->
  snapshot m h = Some st ->
  stringify (Users.payload s) ≠ "" ->
  JSON_parse P1 (stringify (Users.payload s)) = Ok (Users.payload s) ->
  ∃ h' u,
    Users.submit stringify cfg P1 P2 m s h
      = (Ok tt,
         {| Users.users := Ref (users m); Users.name := ""; Users.email := "";
            Users.selected := [] |},
         h') ∧
    u = User.Build (uid P1) (VStr (Users.name s)) (VStr (Users.email s))
          (catalog_filter (Users.selected s) (store_skills st)) ∧
    viewUsers h' (users m) = Some (store_users st ++ [u]) ∧
    snapshot m h' =
      Some {| store_skills := store_skills st;
              store_opportunities := store_opportunities st;
              store_users := store_users st ++ [u] |}.
Proof.
  intros Hmock Hst Hne Hparse.
  destruct (snapshot_inv _ _ _ Hst) as (Hsk & _ & _).
  assert (Hsel : selects (Users.payload s) (Users.selected s))
    by (eexists; split; reflexivity).
  destruct (chooseSkills_selects m _ h _ _ Hsel Hsk) as (kept & Hrun & Hkept).
  destruct (postUser_chosen P1 m (Users.payload s) h st kept _
              (VStr (Users.name s)) (VStr (Users.email s))
              Hst Hrun Hkept eq_refl eq_refl)
    as (h' & ls & Hpost & _ & _ & _ & Hsnap & _).
  exists h', (User.Build (uid P1) (VStr (Users.name s)) (VStr (Users.email s))
                (catalog_filter (Users.selected s) (store_skills st))).
  split; [|split; [reflexivity|split; [|exact Hsnap]]].
  - unfold Users.submit.
    rewrite (api_post_users cfg P1 m _ _ h Hmock Hne Hparse).
    rewrite (by_ref_ok _ _ _ _ Hpost).
    now rewrite (api_get_users cfg P2 m h' Hmock).
  - now destruct (snapshot_inv _ _ _ Hsnap) as (_ & _ & Hus).
Qed.

Lemma user_form_submit_adds_and_refreshes_witness :
  let P1 := parsing "{...}" (user_body "Carol" "carol@example.com" ["skill-B"])
              "carol" "2024-05-01T13:00:00.000Z" in
  let P2 := example_platform "unused" "2024-05-01T13:00:01.000Z" in
  let s := {| Users.users := Json (VArr []); Users.name := "Carol";
              Users.email := "carol@example.com"; Users.selected := ["skill-B"] |} in
  ∃ h' u,
    Users.submit (fun _ => "{...}") mock_mode P1 P2 example_mock s example_heap
      = (Ok tt,
         {| Users.users := Ref (users example_mock); Users.name := "";
            Users.email := ""; Users.selected := [] |},
         h') ∧
    u = User.Build "carol" (VStr "Carol") (VStr "carol@example.com")
          (catalog_filter ["skill-B"] (store_skills example_store)) ∧
    viewUsers h' (users example_mock) = Some (store_users example_store ++ [u]) ∧
    snapshot example_mock h' =
      Some {| store_skills := store_skills example_store;
              store_opportunities := store_opportunities example_store;
              store_users := store_users example_store ++ [u] |}.
Proof.
  intros P1 P2 s.
  apply (user_form_submit_adds_and_refreshes (fun _ => "{...}") mock_mode P1 P2
           example_mock s example_heap example_store);
    solve [reflexivity | exact example_snapshot | discriminate].
Defined.

(** X25.  When adding a user fails, in either mode, the component keeps
    the list of users it had and the store is unchanged; nothing catches
    the error, so the handler's promise is rejected with it.  When the
    handler succeeds the form is emptied. *)
Theorem user_form_failure_changes_nothing stringify cfg P1 P2 m s (h : heap) st :
  snapshot m h = Some st ->
  ∃ x s' h',
    Users.submit stringify cfg P1 P2 m s h = (x, s', h') ∧
    ((x = Ok tt ∧ Users.name s' = "" ∧ Users.email s' = "" ∧ Users.selected s' = []) ∨
     (∃ e, x = Throw e ∧ Users.users s' = Users.users s ∧ snapshot m h' = Some st)).
Proof.
  intros Hst. unfold Users.submit.
  destruct (api cfg P1 m "/api/users" (post (stringify (Users.payload s))) h)
    as [[r|e] h1] eqn:Hrun1.
  - destruct (api cfg P2 m "/api/users" None h1) as [[fresh|e] h2] eqn:Hrun2.
    + eexists _, _, h2. split; [reflexivity|]. left. repeat split.
    + eexists _, _, h2. split; [reflexivity|]. right. exists e.
      split; [reflexivity|]. split; [reflexivity|].
      destruct (USE_MOCK cfg) eqn:Hmode.
      * rewrite (api_get_users cfg P2 m h1 Hmode) in Hrun2. discriminate.
      * pose proof (api_live_heap cfg P1 m "/api/users"
                      (post (stringify (Users.payload s))) h Hmode)
          as H1.
        pose proof (api_live_heap cfg P2 m "/api/users" None h1 Hmode) as H2.
        rewrite Hrun1 in H1. rewrite Hrun2 in H2. simpl in H1, H2. now subst.
  - eexists _, s, h1. split; [reflexivity|]. right. exists e.
    split; [reflexivity|]. split; [reflexivity|].
    exact (api_throw_snapshot _ _ _ _ _ _ _ _ _ Hst Hrun1).
Qed.

Lemma user_form_failure_changes_nothing_witness :
  let P := example_platform "unused" "2024-05-01T13:00:00.000Z" in
  let s := {| Users.users := Json (VArr []); Users.name := "Carol";
              Users.email := "carol@example.com"; Users.selected := ["skill-B"] |} in
  ∃ x s' h',
    Users.submit (fun _ => "{...}") mock_mode P P example_mock s example_heap
      = (x, s', h') ∧
    ((x = Ok tt ∧ Users.name s' = "" ∧ Users.email s' = "" ∧ Users.selected s' = []) ∨
     (∃ e, x = Throw e ∧ Users.users s' = Users.users s ∧
           snapshot example_mock h' = Some example_store)).
Proof.
  intros P s.
  exact (user_form_failure_changes_nothing (fun _ => "{...}") mock_mode P P
           example_mock s example_heap example_store example_snapshot).
Defined.

(** ** The matching view and the lists *)

Lemma matches_call cfg P m id (h : heap) st :
  USE_MOCK cfg = true ->
  snapshot m h = Some st ->
  no_slash id ->
  ∃ r h',
    api cfg P m ("/api/users/" +:+ id +:+ "/matches") None h = (Ok (Ref r), h') ∧
    h `prefix_of` h' ∧
    viewOpportunities h' r
      = Some (from_option (fun u => matches_of u st) []
                (user_with_id id (store_users st))).
Proof.
  intros Hmock Hst Hno.
  assert (Hroute : api cfg P m (matches_path id) None h
                   = by_ref (getMatches m (Some id)) h).
  { apply (matches_route cfg P m None id "matches" h VUndefined); try assumption;
      try reflexivity.
    apply matches_path_ends. }
  unfold matches_path in Hroute. rewrite Hroute.
  destruct (user_with_id id (store_users st)) as [u|] eqn:Hu; simpl.
  - destruct (getMatches_found m h st id u Hst Hu)
      as (r & rs & h' & Hrun & Hext & _ & _ & _ & Hview).
    exists r, h'. split; [now apply by_ref_ok|]. split; [exact Hext|exact Hview].
  - exists (List.length h), (h ++ [CArray TOpportunity []]). split; [|split].
    + apply by_ref_ok. apply (getMatches_none m h st (Some id) Hst).
      now intros i [= <-].
    + apply new_prefix.
    + unfold viewOpportunities. now rewrite new_array_view.
Qed.

(** X26.  The matching view after a user is chosen in the select, in mock
    mode and for an id without a slash: the chosen id is kept, the store
    is unchanged; for the empty choice the matches are emptied without
    any call; for any other the component holds a new list that reads as
    every opportunity with its score against the first user of that id,
    and as the empty list when no user has the id. *)
Theorem matches_follow_the_chosen_user cfg P m s id (h : heap) st :
  USE_MOCK cfg = true ->
  snapshot m h = Some st ->
  no_slash id ->
  ∃ s' h',
    Matching.effect cfg P m (Matching.choose id s) h = (s', h') ∧
    Matching.users s' = Matching.users s ∧
    Matching.selected s' = id ∧
    snapshot m h' = Some st ∧
    (id = "" -> Matching.matches s' = Json (VArr []) ∧ h' = h) ∧
    (id ≠ "" ->
     ∃ r, Matching.matches s' = Ref r ∧
          viewOpportunities h' r
            = Some (from_option (fun u => matches_of u st) []
                      (user_with_id id (store_users st)))).
Proof.
  intros Hmock Hst Hno. unfold Matching.effect, Matching.choose. simpl.
  destruct (String.eqb_spec id "") as [->|Hne].
  - eexists _, h. split; [reflexivity|]. simpl. repeat (split; [reflexivity|]).
    split; [exact Hst|]. split; [now split|]. intros Hne. now destruct Hne.
  - destruct (matches_call cfg P m id h st Hmock Hst Hno) as (r & h' & Hrun & Hext & Hview).
    unfold load. rewrite Hrun.
    eexists _, h'. split; [reflexivity|]. simpl. repeat (split; [reflexivity|]).
    split; [eapply snapshot_mono; eauto|]. split; [intros ->; now destruct Hne|].
    intros _. exists r. split; [reflexivity|exact Hview].
Qed.

Lemma matches_follow_the_chosen_user_witness :
  let P := example_platform "id" "2024-05-01T13:00:00.000Z" in
  ∃ s' h',
    Matching.effect mock_mode P abc_mock (Matching.choose "u1" Matching.initial) abc_heap
      = (s', h') ∧
    Matching.users s' = Matching.users Matching.initial ∧
    Matching.selected s' = "u1" ∧
    snapshot abc_mock h' = Some abc_store ∧
    ("u1" = "" -> Matching.matches s' = Json (VArr []) ∧ h' = abc_heap) ∧
    ("u1" ≠ "" ->
     ∃ r, Matching.matches s' = Ref r ∧
          viewOpportunities h' r
            = Some (from_option (fun u => matches_of u abc_store) []
                      (user_with_id "u1" (store_users abc_store)))).
Proof.
  intros P.
  apply (matches_follow_the_chosen_user mock_mode P abc_mock Matching.initial "u1"
           abc_heap abc_store);
    solve [reflexivity | exact abc_snapshot].
Defined.

(** X27.  What a failed load leaves: in either mode, when the call of
    [api] fails the cell keeps the value it had and the store is
    unchanged, so the matching view keeps showing the matches of the user
    chosen before; in live mode that is the case whenever the network
    call is rejected or the response is not ok. *)
Theorem failed_load_keeps_what_was_shown cfg P m path current (h : heap) st :
  snapshot m h = Some st ->
  ∃ r h',
    load cfg P m path current h = (r, h') ∧
    (forall e, fst (api cfg P m path None h) = Throw e ->
               r = current ∧ snapshot m h' = Some st) ∧
    (USE_MOCK cfg = false ->
     (forall e, fetch P (API_URL cfg +:+ path) (fetch_init None) = Throw e -> r = current) ∧
     (forall x t, fetch P (API_URL cfg +:+ path) (fetch_init None) = Ok x ->
                  ok x = false -> text x = Ok t -> r = current) ∧
     h' = h).
Proof.
  intros Hst. unfold load.
  destruct (api cfg P m path None h) as [[r|e] h'] eqn:Hrun.
  - exists r, h'. split; [reflexivity|]. split; [intros e [=]|].
    intros Hlive. pose proof (api_live_heap cfg P m path None h Hlive) as Hh.
    rewrite Hrun in Hh. simpl in Hh. revert Hrun.
    unfold api, bind, lift, throw, ret. rewrite Hlive.
    intros Hrun. split; [|split; [|exact Hh]].
    + intros e He. rewrite He in Hrun. discriminate.
    + intros x t Hx Hok Ht. rewrite Hx, Hok, Ht in Hrun. discriminate.
  - exists current, h'. split; [reflexivity|]. split.
    + intros e' _. split; [reflexivity|].
      exact (api_throw_snapshot _ _ _ _ _ _ _ _ _ Hst Hrun).
    + intros Hlive. pose proof (api_live_heap cfg P m path None h Hlive) as Hh.
      rewrite Hrun in Hh. simpl in Hh. now repeat split.
Qed.

Lemma failed_load_keeps_what_was_shown_witness :
  let P := example_platform "unused" "2024-05-01T13:00:00.000Z" in
  ∃ r h',
    load (live_mode "http://example.org") P example_mock "/api/users/u1/matches"
        (Ref 5%nat) example_heap = (r, h') ∧
    (forall e, fst (api (live_mode "http://example.org") P example_mock
                      "/api/users/u1/matches" None example_heap) = Throw e ->
               r = Ref 5%nat ∧ snapshot example_mock h' = Some example_store) ∧
    (USE_MOCK (live_mode "http://example.org") = false ->
     (forall e, fetch P (API_URL (live_mode "http://example.org")
                          +:+ "/api/users/u1/matches") (fetch_init None) = Throw e ->
                r = Ref 5%nat) ∧
     (forall x t, fetch P (API_URL (live_mode "http://example.org")
                            +:+ "/api/users/u1/matches") (fetch_init None) = Ok x ->
                  ok x = false -> text x = Ok t -> r = Ref 5%nat) ∧
     h' = example_heap).
Proof.
  intros P.
  exact (failed_load_keeps_what_was_shown (live_mode "http://example.org") P
           example_mock "/api/users/u1/matches" (Ref 5%nat) example_heap
           example_store example_snapshot).
Defined.

(** X28.  The lists the components load when they are mounted, in mock
    mode and on a store the application can reach: the skill buttons get
    the catalog as seeded, the opportunity list a new array that reads as
    the stored opportunities sorted newest first, the user list the stored
    array of users; none of these loads fails or changes the store. *)
Theorem lists_load_from_the_store b cfg P m current (h : heap) st :
  USE_MOCK cfg = true ->
  reachable b m h ->
  snapshot m h = Some st ->
  (load cfg P m "/api/skills" current h = (Ref (skills m), h) ∧
   viewSkills h (skills m) = Some (seed_skills b)) ∧
  (∃ h', load cfg P m "/api/opportunities" current h = (Ref (List.length h), h') ∧
         viewOpportunities h' (List.length h)
           = Some (sort newest_first (store_opportunities st)) ∧
         sort newest_first (store_opportunities st) ≡ₚ store_opportunities st ∧
         snapshot m h' = Some st) ∧
  (load cfg P m "/api/users" current h = (Ref (users m), h) ∧
   viewUsers h (users m) = Some (store_users st)).
Proof.
  intros Hmock Hreach Hst.
  destruct (reachable_store b m h Hreach) as (st' & Hst' & Hseed & _).
  rewrite Hst in Hst'. injection Hst' as <-.
  destruct (snapshot_inv _ _ _ Hst) as (Hsk & _ & Hus).
  split; [|split].
  - split; [|now rewrite <- Hseed]. unfold load, api. now rewrite Hmock.
  - destruct (getOpps_view m h st Hst) as (h' & Hrun & Hext & Hview).
    exists h'. split; [|split; [exact Hview|split]].
    + assert (Hroute : api cfg P m "/api/opportunities" None h = by_ref (getOpps m) h)
        by (unfold api; now rewrite Hmock).
      unfold load. now rewrite Hroute, (by_ref_ok _ _ _ _ Hrun).
    + apply sort_perm.
    + eapply snapshot_mono; eauto.
  - split; [|exact Hus]. unfold load. now rewrite (api_get_users cfg P m h Hmock).
Qed.

Lemma lists_load_from_the_store_witness :
  let P := example_platform "unused" "2024-05-01T13:00:00.000Z" in
  (load mock_mode P example_mock "/api/skills" (Json (VArr [])) example_heap
     = (Ref (skills example_mock), example_heap) ∧
   viewSkills example_heap (skills example_mock) = Some (seed_skills example_boot)) ∧
  (∃ h', load mock_mode P example_mock "/api/opportunities" (Json (VArr [])) example_heap
           = (Ref (List.length example_heap), h') ∧
         viewOpportunities h' (List.length example_heap)
           = Some (sort newest_first (store_opportunities example_store)) ∧
         sort newest_first (store_opportunities example_store)
           ≡ₚ store_opportunities example_store ∧
         snapshot example_mock h' = Some example_store) ∧
  (load mock_mode P example_mock "/api/users" (Json (VArr [])) example_heap
     = (Ref (users example_mock), example_heap) ∧
   viewUsers example_heap (users example_mock) = Some (store_users example_store)).
Proof.
  intros P.
  apply (lists_load_from_the_store example_boot mock_mode P example_mock
           (Json (VArr [])) example_heap example_store);
    solve [reflexivity | exact example_snapshot
          | exists [], example_heap; split; vm_compute; reflexivity].
Defined.
